(** * A shallow embedding of the CPU NDArray backend (ndarray_backend_cpu.cc)

    The backend works on flat [float] buffers ([AlignedArray]) addressed
    through (shape, strides, offset) views.  This development embeds

    - [Fill],
    - the strided index walker ([getLocation], [updateIndices]),
    - the view transfer operations ([Compact], [EwiseSetitem],
      [ScalarSetitem]),
    - the elementwise and scalar kernels,
    - the naive and the tiled matrix product ([Matmul], [AlignedDot],
      [MatmulTiled]),
    - the run reductions ([ReduceMax], [ReduceSum]),

    and proves their functional behaviour, and what they do at the edges of
    their domains.

    Conventions of the embedding.
    - [scalar_t] is IEEE-754 binary32, given by the Standard Library's
      [spec_float] with precision 24 and maximal exponent 128.
    - [size_t] and [uint32_t] values are integers reduced modulo 2^64 and
      2^32; [int32_t] arithmetic is reduced to the two's complement range.
    - An [AlignedArray] lives in a heap that maps array handles to their
      contents, so that two arguments of a kernel may denote the same array.
      The heap also keeps a log of the element reads and writes.
    - [std::vector] locals are values; an access outside a vector or an
      array has no defined behaviour in C++ and makes the embedded
      computation fail ([None]).
    - Where the code hands the storage of a [std::vector] to a kernel that
      assumes an alignment, the address of that storage is a parameter: the
      allocator chooses it, and an address that breaks the assumption makes
      the computation fail as well.  *)

From Stdlib Require Import ZArith Lia.
From Stdlib Require Import Floats.SpecFloat.
From stdpp Require Import base option list gmap.

Open Scope Z_scope.

(** ** Scalars: [typedef float scalar_t] *)

Definition scalar_t : Type := spec_float.

Definition prec32 : Z := 24.
Definition emax32 : Z := 128.

Definition fadd : scalar_t → scalar_t → scalar_t := SFadd prec32 emax32.
Definition fmul : scalar_t → scalar_t → scalar_t := SFmul prec32 emax32.
Definition fdiv : scalar_t → scalar_t → scalar_t := SFdiv prec32 emax32.
Definition flt : scalar_t → scalar_t → bool := SFltb.
Definition fle : scalar_t → scalar_t → bool := SFleb.
Definition feq : scalar_t → scalar_t → bool := SFeqb.

(** The conversion of an integer literal to [float]. *)
Definition f32 (z : Z) : scalar_t := binary_normalize prec32 emax32 z 0 false.

Definition fzero : scalar_t := S754_zero false.
Definition fnegzero : scalar_t := S754_zero true.
Definition finf : scalar_t := S754_infinity false.
Definition fneginf : scalar_t := S754_infinity true.
Definition fnan : scalar_t := S754_nan.

(** [scalar_t(c)] for a comparison result [c]. *)
Definition f32_of_bool (c : bool) : scalar_t := if c then f32 1 else fzero.

(** [std::max(x, y)] is [(x < y) ? y : x]. *)
Definition std_max (x y : scalar_t) : scalar_t := if flt x y then y else x.

(** ** Machine integers *)

Definition u32 (z : Z) : Z := z mod 2 ^ 32.
Definition u64 (z : Z) : Z := z mod 2 ^ 64.
Definition s32 (z : Z) : Z := (z + 2 ^ 31) mod 2 ^ 32 - 2 ^ 31.

(** The values of an [int32_t]. *)
Definition int32 (z : Z) : Prop := - 2 ^ 31 ≤ z < 2 ^ 31.

Definition TILE : Z := 8.

(** ** Vectors: [std::vector<T>] locals with [operator[]] *)

Definition vget {A} (v : list A) (i : Z) : option A :=
  if bool_decide (0 ≤ i) then v !! Z.to_nat i else None.

Definition vset {A} (v : list A) (i : Z) (x : A) : option (list A) :=
  if bool_decide (0 ≤ i < Z.of_nat (length v)) then Some (<[Z.to_nat i := x]> v)
  else None.

(** [for (i = 0; i < n; i++) l = body(i, l)] over local state [l]. *)
Fixpoint ofor {L} (n : nat) (body : nat → L → option L) (l : L) : option L :=
  match n with
  | O => Some l
  | S n' => l' ← ofor n' body l; body n' l'
  end.

(** ** IndexWalker *)

(** [getLocation]: [loc] is a [size_t]; the product is an [int] that is
    converted to [size_t] by the compound assignment. *)
Definition getLocation (strides : list Z) (offset : Z) (indices_vector : list Z)
  : option Z :=
  ofor (length indices_vector)
       (λ i loc,
          s ← strides !! i;
          x ← indices_vector !! i;
          Some (u64 (loc + s32 (s * x))))
       offset.

(** [updateIndices]: the scan [for (size_t i = size - 1;; i--)] at position
    [i].  It stops at the first position that can still be incremented, and
    at position 0. *)
Fixpoint updateIndices_at (i : nat) (shape indices_vector : list Z)
  : option (list Z) :=
  x ← indices_vector !! i;
  s ← shape !! i;
  if bool_decide (x < s32 (s - 1)) then Some (<[i := s32 (x + 1)]> indices_vector)
  else match i with
       | O => Some indices_vector
       | S i' => updateIndices_at i' shape (<[i := 0]> indices_vector)
       end.

(** On an empty [indices_vector] the scan starts at [SIZE_MAX], outside the
    vector. *)
Definition updateIndices (shape indices_vector : list Z) : option (list Z) :=
  match length indices_vector with
  | O => None
  | S r => updateIndices_at r shape indices_vector
  end.

(** ** The heap of [AlignedArray]s *)

(** Arrays are named by handles. *)
Abbreviation handle := nat (only parsing).

(** An element access [ptr[i]] of the array [h]. *)
Inductive event : Type :=
  | Rd (h : handle) (i : Z)
  | Wr (h : handle) (i : Z) (v : scalar_t).

Record state : Type := State {
  heap : gmap nat (list scalar_t);
  trace : list event
}.

(** Computations over the heap that may fail. *)
Definition M (A : Type) : Type := state → option (A * state).

#[global] Instance M_ret : MRet M := λ A x st, Some (x, st).
#[global] Instance M_bind : MBind M :=
  λ A B f c st, match c st with
                | Some (x, st') => f x st'
                | None => None
                end.

Definition lift {A} (o : option A) : M A :=
  λ st, match o with Some x => Some (x, st) | None => None end.

(** [a.size] *)
Definition size (h : handle) : M nat :=
  λ st, l ← heap st !! h; Some (length l, st).

(** [a.ptr[i]] as an rvalue *)
Definition load (h : handle) (i : Z) : M scalar_t :=
  λ st, l ← heap st !! h;
        v ← vget l i;
        Some (v, State (heap st) (trace st ++ [Rd h i])).

(** [out->ptr[i] = v] *)
Definition store (h : handle) (i : Z) (v : scalar_t) : M unit :=
  λ st, l ← heap st !! h;
        l' ← vset l i v;
        Some (tt, State (<[h := l']> (heap st)) (trace st ++ [Wr h i v])).

(** [for (i = 0; i < n; i++) l = body(i, l)], the locals [l] threaded
    through the iterations. *)
Fixpoint for_ {L} (n : nat) (body : nat → L → M L) (l : L) : M L :=
  match n with
  | O => mret l
  | S n' => l' ← for_ n' body l; body n' l'
  end.

(** [for (i = lo; i < hi; i++)] *)
Definition for_range {L} (lo hi : Z) (body : Z → L → M L) (l : L) : M L :=
  for_ (Z.to_nat (hi - lo)) (λ t, body (lo + Z.of_nat t)) l.

(** [for (size_t i = 0; i < hi; i += step)] with the iteration counter
    [cnt]; the loop does not end when [step] is 0, which the fuel reports
    as a failure. *)
Fixpoint for_step {L} (fuel : nat) (hi step : Z) (body : Z → nat → L → M L)
    (i : Z) (cnt : nat) (l : L) : M L :=
  if bool_decide (i < hi) then
    match fuel with
    | O => λ _, None
    | S fuel' =>
        l' ← body i cnt l;
        for_step fuel' hi step body (u64 (i + step)) (S cnt) l'
    end
  else mret l.

(** ** Fill *)

(** [for (int i = 0; i < out->size; i++) out->ptr[i] = val]: the counter is
    an [int] that the comparison converts to [size_t]. *)
Fixpoint Fill_loop (fuel : nat) (out : handle) (val : scalar_t) (hi i : Z)
  : M unit :=
  if bool_decide (u64 i < hi) then
    match fuel with
    | O => λ _, None
    | S fuel' =>
        _ ← store out i val;
        Fill_loop fuel' out val hi (s32 (i + 1))
    end
  else mret tt.

Definition Fill (out : handle) (val : scalar_t) : M unit :=
  n ← size out;
  Fill_loop n out val (Z.of_nat n) 0.

(** ** ViewTransfer *)

Definition Compact (a out : handle) (shape strides : list Z) (offset : Z)
  : M unit :=
  n ← size out;
  _ ← for_ n (λ i indices_vector,
                loc ← lift (getLocation strides offset indices_vector);
                v ← load a loc;
                _ ← store out (Z.of_nat i) v;
                lift (updateIndices shape indices_vector))
             (replicate (length shape) 0);
  mret tt.

Definition EwiseSetitem (a out : handle) (shape strides : list Z) (offset : Z)
  : M unit :=
  n ← size a;
  _ ← for_ n (λ i indices_vector,
                loc ← lift (getLocation strides offset indices_vector);
                v ← load a (Z.of_nat i);
                _ ← store out loc v;
                lift (updateIndices shape indices_vector))
             (replicate (length shape) 0);
  mret tt.

Definition ScalarSetitem (size : Z) (val : scalar_t) (out : handle)
    (shape strides : list Z) (offset : Z) : M unit :=
  _ ← for_ (Z.to_nat size)
           (λ i indices_vector,
              loc ← lift (getLocation strides offset indices_vector);
              _ ← store out loc val;
              lift (updateIndices shape indices_vector))
           (replicate (length shape) 0);
  mret tt.

(** ** ElementwiseEngine *)

(** The three loop shapes shared by the elementwise kernels:
    [out->ptr[i] = f(a.ptr[i], b.ptr[i])], [out->ptr[i] = f(a.ptr[i], val)]
    and [out->ptr[i] = f(a.ptr[i])], for [i < a.size]. *)
Definition ewise_binary (f : scalar_t → scalar_t → scalar_t)
    (a b out : handle) : M unit :=
  n ← size a;
  for_ n (λ i _,
            x ← load a (Z.of_nat i);
            y ← load b (Z.of_nat i);
            store out (Z.of_nat i) (f x y)) tt.

Definition ewise_scalar (f : scalar_t → scalar_t → scalar_t)
    (a : handle) (val : scalar_t) (out : handle) : M unit :=
  n ← size a;
  for_ n (λ i _,
            x ← load a (Z.of_nat i);
            store out (Z.of_nat i) (f x val)) tt.

Definition ewise_unary (f : scalar_t → scalar_t) (a out : handle) : M unit :=
  n ← size a;
  for_ n (λ i _,
            x ← load a (Z.of_nat i);
            store out (Z.of_nat i) (f x)) tt.

Definition EwiseAdd := ewise_binary fadd.
Definition ScalarAdd := ewise_scalar fadd.
Definition EwiseMul := ewise_binary fmul.
Definition ScalarMul := ewise_scalar fmul.
Definition EwiseDiv := ewise_binary fdiv.
Definition ScalarDiv := ewise_scalar fdiv.
Definition EwiseMaximum := ewise_binary std_max.
Definition ScalarMaximum := ewise_scalar std_max.
Definition EwiseEq := ewise_binary (λ x y, f32_of_bool (feq x y)).
Definition ScalarEq := ewise_scalar (λ x y, f32_of_bool (feq x y)).
Definition EwiseGe := ewise_binary (λ x y, f32_of_bool (fle y x)).
Definition ScalarGe := ewise_scalar (λ x y, f32_of_bool (fle y x)).

(** The kernels that call the C mathematics library take its functions
    [pow], [log], [exp] and [tanh] as parameters. *)
Section Libm.
Variable libm_pow : scalar_t → scalar_t → scalar_t.
Variables libm_log libm_exp libm_tanh : scalar_t → scalar_t.

Definition ScalarPower := ewise_scalar libm_pow.
Definition EwiseLog := ewise_unary libm_log.
Definition EwiseExp := ewise_unary libm_exp.
Definition EwiseTanh := ewise_unary libm_tanh.
End Libm.

(** ** MatMulEngine *)

(** All index expressions of the three matrix kernels are [uint32_t]. *)
Definition Matmul (a b out : handle) (m n p : Z) : M unit :=
  for_ (Z.to_nat m) (λ i _,
    for_ (Z.to_nat p) (λ j _,
      _ ← store out (u32 (Z.of_nat i * p + Z.of_nat j)) (f32 0);
      for_ (Z.to_nat n) (λ k _,
        x ← load a (u32 (Z.of_nat i * n + Z.of_nat k));
        y ← load b (u32 (Z.of_nat k * p + Z.of_nat j));
        o ← load out (u32 (Z.of_nat i * p + Z.of_nat j));
        store out (u32 (Z.of_nat i * p + Z.of_nat j)) (fadd o (fmul x y))) tt) tt) tt.

(** [a], [b] and [out] point to three distinct tiles ([__restrict__]). *)
Definition AlignedDot (a b out : list scalar_t) : option (list scalar_t) :=
  ofor (Z.to_nat TILE) (λ i out,
    ofor (Z.to_nat TILE) (λ j out,
      ofor (Z.to_nat TILE) (λ k out,
        x ← vget a (u32 (Z.of_nat i * TILE + Z.of_nat k));
        y ← vget b (u32 (Z.of_nat k * TILE + Z.of_nat j));
        o ← vget out (u32 (Z.of_nat i * TILE + Z.of_nat j));
        vset out (u32 (Z.of_nat i * TILE + Z.of_nat j)) (fadd o (fmul x y)))
      out) out) out.

(** [const size_t ELEM_SIZE = sizeof(scalar_t)] *)
Definition ELEM_SIZE : Z := 4.

(** [__builtin_assume_aligned(ptr, align)]: the behaviour is undefined when
    the address [ptr] is not a multiple of [align]. *)
Definition assume_aligned (ptr align : Z) : option unit :=
  if bool_decide (ptr mod align = 0) then Some tt else None.

(** The kernel as it is called, on the pointers [pa], [pb] and [pout] to
    the tiles [a], [b] and [out]: the three alignment assumptions that
    [AlignedDot] opens with, then its loops. *)
Definition AlignedDot_ptr (pa pb pout : Z) (a b out : list scalar_t)
  : option (list scalar_t) :=
  _ ← assume_aligned pa (TILE * ELEM_SIZE);
  _ ← assume_aligned pb (TILE * ELEM_SIZE);
  _ ← assume_aligned pout (TILE * ELEM_SIZE);
  AlignedDot a b out.

(** The byte addresses that the allocator gives to the storage of the
    [std::vector] locals of [MatmulTiled]: [tile_a] and [tile_b] are
    allocated once, [tmp_res] anew for every output block [(i, j)].  The
    addresses are not in the hands of the caller; [operator new] promises
    multiples of its default alignment (16 on the usual 64-bit platforms),
    not of [TILE * ELEM_SIZE]. *)
Record vectors : Type := Vectors {
  tile_a_data : Z;
  tile_b_data : Z;
  tmp_res_data : nat → nat → Z
}.

(** The locals [tile_a] and [tile_b] live across all blocks, [tmp_res] is
    created for each output block; [AlignedDot] receives their [data()]
    pointers. *)
Definition MatmulTiled (v : vectors) (a b out : handle) (m n p : Z) : M unit :=
  _ ← for_ (Z.to_nat (m / TILE)) (λ i tiles,
    for_ (Z.to_nat (p / TILE)) (λ j tiles,
      '(tile_a, tile_b, tmp_res) ←
        for_ (Z.to_nat (n / TILE)) (λ k '(tile_a, tile_b, tmp_res),
          '(tile_a, tile_b) ←
            for_ (Z.to_nat TILE) (λ ii tiles,
              for_ (Z.to_nat TILE) (λ jj '(tile_a, tile_b),
                x ← load a (u32 (Z.of_nat i * n * TILE + Z.of_nat k * TILE * TILE
                                 + Z.of_nat ii * TILE + Z.of_nat jj));
                tile_a ← lift (vset tile_a (u32 (Z.of_nat ii * TILE + Z.of_nat jj)) x);
                y ← load b (u32 (Z.of_nat k * p * TILE + Z.of_nat j * TILE * TILE
                                 + Z.of_nat ii * TILE + Z.of_nat jj));
                tile_b ← lift (vset tile_b (u32 (Z.of_nat ii * TILE + Z.of_nat jj)) y);
                mret (tile_a, tile_b)) tiles) (tile_a, tile_b);
          tmp_res ← lift (AlignedDot_ptr (tile_a_data v) (tile_b_data v)
                                         (tmp_res_data v i j)
                                         tile_a tile_b tmp_res);
          mret (tile_a, tile_b, tmp_res))
        (tiles.1, tiles.2, replicate (Z.to_nat (TILE * TILE)) (f32 0));
      _ ← for_ (Z.to_nat TILE) (λ ii _,
        for_ (Z.to_nat TILE) (λ jj _,
          v ← lift (vget tmp_res (u32 (Z.of_nat ii * TILE + Z.of_nat jj)));
          store out (u32 (Z.of_nat i * p * TILE + Z.of_nat j * TILE * TILE
                          + Z.of_nat ii * TILE + Z.of_nat jj)) v) tt) tt;
      mret (tile_a, tile_b)) tiles)
    (replicate (Z.to_nat (TILE * TILE)) (f32 0),
     replicate (Z.to_nat (TILE * TILE)) (f32 0));
  mret tt.

(** ** ReductionEngine *)

Definition ReduceMax (a out : handle) (reduce_size : Z) : M unit :=
  n ← size a;
  for_step n (Z.of_nat n) reduce_size (λ i cnt _,
    first ← load a i;
    max_num ← for_range (u64 (i + 1)) (u64 (i + reduce_size))
                 (λ j max_num, v ← load a j; mret (std_max max_num v)) first;
    store out (Z.of_nat cnt) max_num) 0 O tt.

Definition ReduceSum (a out : handle) (reduce_size : Z) : M unit :=
  n ← size a;
  for_step n (Z.of_nat n) reduce_size (λ i cnt _,
    sum_res ← for_range i (u64 (i + reduce_size))
                 (λ j sum_res, v ← load a j; mret (fadd sum_res v)) (f32 0);
    store out (Z.of_nat cnt) sum_res) 0 O tt.

(** * Specification vocabulary *)

(** ** Views *)

(** The number of elements of a shape. *)
Definition product (shape : list Z) : Z := foldr Z.mul 1 shape.

(** A positive axis size, an [int32_t]. *)
Definition axis (s : Z) : Prop := 0 < s < 2 ^ 31.

(** A multi-index of a shape. *)
Definition in_shape (shape indices : list Z) : Prop :=
  Forall2 (λ x s, 0 ≤ x < s) indices shape.

(** The row-major rank of a multi-index: the last axis varies fastest. *)
Definition ravel (shape indices : list Z) : Z :=
  foldl (λ acc sx, acc * sx.1 + sx.2) 0 (zip shape indices).

(** The multi-index of row-major rank [i], least significant digit first
    over the reversed shape. *)
Fixpoint unravel_rev (rshape : list Z) (i : Z) : list Z :=
  match rshape with
  | [] => []
  | s :: rshape' => i mod s :: unravel_rev rshape' (i / s)
  end.

Definition unravel (shape : list Z) (i : Z) : list Z :=
  reverse (unravel_rev (reverse shape) i).

(** The location a view resolves for a multi-index, in the arithmetic of
    [getLocation]. *)
Definition location (strides : list Z) (offset : Z) (indices : list Z) : Z :=
  foldl (λ loc sx, u64 (loc + s32 (sx.1 * sx.2))) offset (zip strides indices).

(** The same location in unbounded arithmetic:
    [offset + strides[0] * indices[0] + ...]. *)
Definition location_exact (strides : list Z) (offset : Z) (indices : list Z) : Z :=
  foldl (λ loc sx, loc + sx.1 * sx.2) offset (zip strides indices).

(** The location of the element of row-major rank [i] of a view. *)
Definition view_location (shape strides : list Z) (offset : Z) (i : nat) : Z :=
  location strides offset (unravel shape (Z.of_nat i)).

(** Every location that a view resolves lies in a buffer of [len] elements. *)
Definition view_in_bounds (shape strides : list Z) (offset : Z) (len : nat) : Prop :=
  ∀ indices, in_shape shape indices →
             0 ≤ location strides offset indices < Z.of_nat len.

(** One step of the index walker read off the reversed vectors. *)
Fixpoint step_rev (rshape rindices : list Z) : list Z :=
  match rshape, rindices with
  | s :: rshape', x :: rindices' =>
      if bool_decide (x < s32 (s - 1)) then s32 (x + 1) :: rindices'
      else match rindices' with
           | [] => [x]
           | _ :: _ => 0 :: step_rev rshape' rindices'
           end
  | _, _ => rindices
  end.

(** ** Accesses *)

(** The element of a buffer at an index, [+0] outside. *)
Definition rd (l : list scalar_t) (i : Z) : scalar_t :=
  default fzero (vget l i).

(** The accesses of iteration [i] of [Compact] over an input with the
    contents [A]: a read of the view's element, a write of position [i]. *)
Definition Compact_events (a out : handle) (A : list scalar_t)
    (shape strides : list Z) (offset : Z) (i : nat) : list event :=
  [Rd a (view_location shape strides offset i);
   Wr out (Z.of_nat i) (rd A (view_location shape strides offset i))].


(** A heap of three arrays with the handles 0, 1 and 2, and an empty log. *)
Definition mem3 (x y z : list scalar_t) : state :=
  State (<[0%nat := x]> (<[1%nat := y]> (<[2%nat := z]> ∅))) [].

(** A function with the values that IEEE-754 gives to [log] at zeros and at
    negative arguments; it stands for the library function in examples. *)
Definition log_exceptional (x : scalar_t) : scalar_t :=
  if feq x fzero then fneginf else if flt x fzero then fnan else x.

(** No product [strides[i] * indices[i]] leaves the range of [int]. *)
Definition products_fit (strides indices : list Z) : Prop :=
  Forall (λ sx : Z * Z, int32 (sx.1 * sx.2)) (zip strides indices).

(** ** Sums *)

(** [init + t 0 + t 1 + ... + t (n - 1)], added from left to right. *)
Definition fsum (t : nat → scalar_t) (n : nat) (init : scalar_t) : scalar_t :=
  foldl (λ acc k, fadd acc (t k)) init (seq 0 n).

(** ** Matrices *)

(** A buffer in which the positions of a region hold new values. *)
Definition patch (X : list scalar_t) (region : nat → bool) (f : nat → scalar_t)
  : list scalar_t :=
  imap (λ r x, if region r then f r else x) X.

(** Cell [(i, j)] of the product of a row-major [m x n] by a row-major
    [n x p] matrix: the products are added to 0 for [k = 0 .. n - 1]. *)
Definition dot (A B : list scalar_t) (n p : Z) (i j : nat) : scalar_t :=
  fsum (λ k, fmul (rd A (Z.of_nat i * n + Z.of_nat k))
                  (rd B (Z.of_nat k * p + Z.of_nat j)))
       (Z.to_nat n) (f32 0).

(** The same sum over the elements that the [uint32_t] index expressions
    of [Matmul] select. *)
Definition dot32 (A B : list scalar_t) (n p : Z) (i j : nat) : scalar_t :=
  fsum (λ k, fmul (rd A (u32 (Z.of_nat i * n + Z.of_nat k)))
                  (rd B (u32 (Z.of_nat k * p + Z.of_nat j))))
       (Z.to_nat n) (f32 0).

(** ** Tiles *)

(** The terms of cell [(i, j)] of a tile product. *)
Definition tile_term (a b : list scalar_t) (i j k : nat) : scalar_t :=
  fmul (rd a (Z.of_nat i * TILE + Z.of_nat k)) (rd b (Z.of_nat k * TILE + Z.of_nat j)).

Definition tile_cell (a b out : list scalar_t) (q : nat) : scalar_t :=
  fsum (tile_term a b (q / 8) (q mod 8)) 8 (rd out (Z.of_nat q)).

(** The tile that [MatmulTiled] copies out of an array from the position
    [base] on, in its [uint32_t] index arithmetic. *)
Definition tile_at (A : list scalar_t) (base : Z) : list scalar_t :=
  (λ q : nat, rd A (u32 (base + Z.of_nat q))) <$> seq 0 64.

(** The accumulator [tmp_res] of the output block [(i, j)] after [K]
    reduction blocks. *)
Fixpoint block_acc (A B : list scalar_t) (n p : Z) (i j K : nat) : list scalar_t :=
  match K with
  | O => replicate 64 (f32 0)
  | S K' =>
      let acc := block_acc A B n p i j K' in
      tile_cell (tile_at A (Z.of_nat i * n * TILE + Z.of_nat K' * TILE * TILE))
                (tile_at B (Z.of_nat K' * p * TILE + Z.of_nat j * TILE * TILE))
                acc <$> seq 0 64
  end.

(** The contents of position [r] of [out] after [MatmulTiled]: element
    [r mod 64] of the accumulator of block [r / 64]. *)
Definition tiled_cell (A B : list scalar_t) (n p : Z) (r : nat) : scalar_t :=
  rd (block_acc A B n p ((r / 64) / Z.to_nat (p / TILE))
                        ((r / 64) mod Z.to_nat (p / TILE))
                        (Z.to_nat (n / TILE)))
     (Z.of_nat (r mod 64)).

(** The products that [MatmulTiled] adds into element [ii * 8 + jj] of the
    block [(i, j)], in the order of the reduction index [k]. *)
Definition tiled_term (A B : list scalar_t) (n p : Z) (i j ii jj k : nat) : scalar_t :=
  fmul (rd A (u32 (Z.of_nat i * n * TILE + Z.of_nat (k / 8) * TILE * TILE
                   + Z.of_nat (ii * 8 + k mod 8))))
       (rd B (u32 (Z.of_nat (k / 8) * p * TILE + Z.of_nat j * TILE * TILE
                   + Z.of_nat (k mod 8 * 8 + jj)))).

(** ** Block layout *)

(** The position of the logical cell [(i, k)] of a matrix with [cols]
    columns in the layout [rows/TILE x cols/TILE x TILE x TILE]. *)
Definition tiled_index (cols i k : Z) : Z :=
  (i / TILE) * cols * TILE + (k / TILE) * TILE * TILE
  + (i mod TILE) * TILE + k mod TILE.

(** Cell [(i, j)] of the product of two matrices in the block layout: the
    products are added to 0 for [k = 0 .. n - 1]. *)
Definition dot_tiled (A B : list scalar_t) (n p : Z) (i j : nat) : scalar_t :=
  fsum (λ k, fmul (rd A (tiled_index n (Z.of_nat i) (Z.of_nat k)))
                  (rd B (tiled_index p (Z.of_nat k) (Z.of_nat j))))
       (Z.to_nat n) (f32 0).

(** ** Tolerance *)

(** The value of a finite float as an integer multiple of [2 ^ e]. *)
Definition scaled (e : Z) (x : scalar_t) : option Z :=
  match x with
  | S754_zero _ => Some 0
  | S754_finite s m ex => Some ((if s then -1 else 1) * Z.pos m * 2 ^ (ex - e))
  | _ => None
  end.

Definition exponent (x : scalar_t) : Z :=
  match x with S754_finite _ _ e => e | _ => 0 end.

(** [x] equals [y] up to a relative error below [1e-5]: the two are the
    same value, or both are finite and [|x - y| < 1e-5 * |y|]. *)
Definition rel_close (x y : scalar_t) : Prop :=
  x = y ∨
  ∃ zx zy,
    scaled (Z.min (exponent x) (exponent y)) x = Some zx ∧
    scaled (Z.min (exponent x) (exponent y)) y = Some zy ∧
    100000 * Z.abs (zx - zy) < Z.abs zy.

(** ** Reduction runs *)

(** Run [i] of [a]: the elements [i * reduce_size .. (i + 1) * reduce_size - 1]. *)
Definition run (a : list scalar_t) (reduce_size i : nat) : list scalar_t :=
  take reduce_size (drop (i * reduce_size) a).

Definition run_max (r : list scalar_t) : scalar_t :=
  match r with
  | [] => fzero
  | x :: r' => foldl std_max x r'
  end.

Definition run_sum (r : list scalar_t) : scalar_t := foldl fadd fzero r.

(** ** Walks, scatters and compact strides *)

(** The [indices_vector] of a transfer loop before iteration [n]: the zero
    tuple advanced [n] times by [updateIndices]. *)
Definition walk (shape : list Z) (n : nat) : option (list Z) :=
  ofor n (λ _ indices_vector, updateIndices shape indices_vector)
       (replicate (length shape) 0).

(** The writes [X[loc 0] = val 0; ...; X[loc (n - 1)] = val (n - 1)], in
    this order. *)
Definition scatter (X : list scalar_t) (loc : nat → Z) (val : nat → scalar_t)
    (n : nat) : list scalar_t :=
  foldl (λ X i, <[Z.to_nat (loc i) := val i]> X) X (seq 0 n).

(** The strides of a compact row-major array: the stride of an axis is the
    number of elements of the axes after it. *)
Fixpoint compact_strides (shape : list Z) : list Z :=
  match shape with
  | [] => []
  | _ :: shape' => product shape' :: compact_strides shape'
  end.

(** A view resolves distinct multi-indices to distinct locations. *)
Definition injective_view (shape strides : list Z) (offset : Z) : Prop :=
  ∀ indices1 indices2,
    in_shape shape indices1 → in_shape shape indices2 →
    location strides offset indices1 = location strides offset indices2 →
    indices1 = indices2.

Definition is_nan (x : scalar_t) : bool :=
  match x with S754_nan => true | _ => false end.

(** The arrays of [st] have the sizes they have in [st0]. *)
Definition same_sizes (st0 st : state) : Prop :=
  ∀ h, length <$> heap st !! h = length <$> heap st0 !! h.

(** ** Alignment *)

(** An address that [AlignedDot] may receive: a multiple of
    [TILE * ELEM_SIZE] bytes. *)
Definition aligned (ptr : Z) : Prop := ptr mod (TILE * ELEM_SIZE) = 0.

(** Every vector that a call with [mb x pb] output blocks allocates is
    aligned as [AlignedDot] assumes. *)
Definition vectors_aligned (v : vectors) (mb pb : nat) : Prop :=
  aligned (tile_a_data v) ∧ aligned (tile_b_data v)
  ∧ ∀ i j, (i < mb)%nat → (j < pb)%nat → aligned (tmp_res_data v i j).

(** * Proofs *)

(** ** Machine integers and the scan of the index walker *)

Lemma s32_id z : - 2 ^ 31 ≤ z < 2 ^ 31 → s32 z = z.
Proof. intros H. unfold s32. rewrite Z.mod_small; lia. Qed.

Lemma u32_id z : 0 ≤ z < 2 ^ 32 → u32 z = z.
Proof. intros H. unfold u32. apply Z.mod_small; lia. Qed.

Lemma u64_id z : 0 ≤ z < 2 ^ 64 → u64 z = z.
Proof. intros H. unfold u64. apply Z.mod_small; lia. Qed.

Lemma u32_range z : 0 ≤ u32 z < 2 ^ 32.
Proof. unfold u32. apply Z.mod_pos_bound. lia. Qed.

Lemma u64_range z : 0 ≤ u64 z < 2 ^ 64.
Proof. unfold u64. apply Z.mod_pos_bound. lia. Qed.

Lemma updateIndices_at_rev pre : ∀ post spre spost,
  length pre = length spre → pre ≠ [] →
  updateIndices_at (length pre - 1) (spre ++ spost) (pre ++ post)
  = Some (reverse (step_rev (reverse spre) (reverse pre)) ++ post).
Proof.
  induction pre as [|x pre IH] using rev_ind; intros post spre spost Hlen Hne; [done|].
  destruct spre as [|s spre _] using rev_ind.
  { rewrite length_app in Hlen. simpl in Hlen. lia. }
  rewrite !length_app in Hlen. simpl in Hlen.
  assert (Hl : length pre = length spre) by lia.
  rewrite length_app. simpl.
  replace (length pre + 1 - 1)%nat with (length pre) by lia.
  rewrite !reverse_snoc. cbn [step_rev].
  assert (Hx : (pre ++ [x]) ++ post = pre ++ x :: post) by (by rewrite <- app_assoc).
  assert (Hs : (spre ++ [s]) ++ spost = spre ++ s :: spost) by (by rewrite <- app_assoc).
  rewrite Hx, Hs.
  destruct pre as [|y pre' _] using rev_ind.
  - destruct spre; [|done]. simpl.
    case_bool_decide; simpl; done.
  - set (P := pre' ++ [y]) in *.
    assert (HP : length P = S (length pre')).
    { unfold P. rewrite length_app. simpl. lia. }
    assert (Hlk : (P ++ x :: post) !! length P = Some x)
      by (by rewrite list_lookup_middle).
    assert (Hls : (spre ++ s :: spost) !! length P = Some s)
      by (by rewrite list_lookup_middle).
    assert (Hins : ∀ v, <[length P := v]> (P ++ x :: post) = P ++ v :: post).
    { intros v. replace (length P) with (length P + 0)%nat at 1 by lia.
      by rewrite insert_app_r. }
    rewrite HP in Hlk, Hls, Hins |- *.
    cbn [updateIndices_at]. rewrite Hlk. cbn [mbind option_bind]. rewrite Hls.
    cbn [mbind option_bind]. rewrite !Hins.
    assert (HrP : reverse P = y :: reverse pre') by (unfold P; by rewrite reverse_snoc).
    case_bool_decide.
    + by rewrite reverse_cons, reverse_involutive, <- app_assoc.
    + rewrite HrP at 1.
      specialize (IH (0 :: post) spre (s :: spost)).
      rewrite HP in IH. replace (S (length pre') - 1)%nat with (length pre') in IH by lia.
      rewrite IH; [|lia|by destruct pre'].
      by rewrite (reverse_cons _ 0), <- app_assoc.
Qed.

(** ** The heap monad and its loops *)

Lemma bind_run {A B} (c : M A) (f : A → M B) st :
  (c ≫= f) st = match c st with Some (x, st') => f x st' | None => None end.
Proof. reflexivity. Qed.

Lemma bind_Some {A B} (c : M A) (f : A → M B) st x st' :
  c st = Some (x, st') → (c ≫= f) st = f x st'.
Proof. intros H. by rewrite bind_run, H. Qed.

Lemma lift_Some {A} (o : option A) x st : o = Some x → lift o st = Some (x, st).
Proof. by intros ->. Qed.

Lemma for_inv {L} (I : nat → L → state → Prop) n (body : nat → L → M L) l st :
  I O l st →
  (∀ i l st, (i < n)%nat → I i l st →
     ∃ l' st', body i l st = Some (l', st') ∧ I (S i) l' st') →
  ∃ l' st', for_ n body l st = Some (l', st') ∧ I n l' st'.
Proof.
  intros H0 Hstep. induction n as [|n IH]; [by exists l, st|].
  destruct IH as (l1 & st1 & Hrun & HI); [intros; apply Hstep; [lia|done]|].
  destruct (Hstep n l1 st1) as (l2 & st2 & Hb & HI2); [lia|done|].
  exists l2, st2. split; [|done].
  cbn [for_]. by rewrite (bind_Some _ _ _ _ _ Hrun).
Qed.

Lemma ofor_inv {L} (I : nat → L → Prop) n (body : nat → L → option L) l :
  I O l →
  (∀ i l, (i < n)%nat → I i l → ∃ l', body i l = Some l' ∧ I (S i) l') →
  ∃ l', ofor n body l = Some l' ∧ I n l'.
Proof.
  intros H0 Hstep. induction n as [|n IH]; [by exists l|].
  destruct IH as (l1 & Hrun & HI); [intros; apply Hstep; [lia|done]|].
  destruct (Hstep n l1) as (l2 & Hb & HI2); [lia|done|].
  exists l2. split; [|done]. cbn [ofor]. by rewrite Hrun.
Qed.

Lemma vget_Some {A} (v : list A) i x :
  0 ≤ i → v !! Z.to_nat i = Some x → vget v i = Some x.
Proof. intros Hi Hx. unfold vget. by rewrite bool_decide_true. Qed.

Lemma vget_nat {A} (v : list A) (i : nat) : vget v (Z.of_nat i) = v !! i.
Proof. unfold vget. rewrite bool_decide_true by lia. by rewrite Nat2Z.id. Qed.

Lemma vset_Some {A} (v : list A) i x :
  0 ≤ i < Z.of_nat (length v) → vset v i x = Some (<[Z.to_nat i := x]> v).
Proof. intros Hi. unfold vset. by rewrite bool_decide_true. Qed.

Lemma vset_nat {A} (v : list A) (i : nat) x :
  (i < length v)%nat → vset v (Z.of_nat i) x = Some (<[i := x]> v).
Proof. intros Hi. rewrite vset_Some by lia. by rewrite Nat2Z.id. Qed.

Lemma size_run h st l : heap st !! h = Some l → size h st = Some (length l, st).
Proof. intros H. unfold size. by rewrite H. Qed.

Lemma load_run h i st l v :
  heap st !! h = Some l → vget l i = Some v →
  load h i st = Some (v, State (heap st) (trace st ++ [Rd h i])).
Proof. intros Hh Hv. unfold load. rewrite Hh. simpl. by rewrite Hv. Qed.

Lemma store_run h i v st l l' :
  heap st !! h = Some l → vset l i v = Some l' →
  store h i v st = Some (tt, State (<[h := l']> (heap st)) (trace st ++ [Wr h i v])).
Proof. intros Hh Hv. unfold store. rewrite Hh. simpl. by rewrite Hv. Qed.

(** Lists that hold results below a position and old elements from it on. *)
Lemma lookup_take_drop_ge {A} (R O : list A) (k i : nat) :
  (k ≤ length R)%nat → (k ≤ i)%nat → (take k R ++ drop k O) !! i = O !! i.
Proof.
  intros Hlen Hk.
  rewrite lookup_app_r; rewrite length_take, Nat.min_l by lia; [|lia].
  rewrite lookup_drop. f_equal. lia.
Qed.

Lemma insert_take_drop {A} (R O : list A) (k : nat) x :
  (k < length O)%nat → R !! k = Some x →
  <[k := x]> (take k R ++ drop k O) = take (S k) R ++ drop (S k) O.
Proof.
  intros Hlen Hx. pose proof (lookup_lt_Some _ _ _ Hx) as Hk.
  replace k with (length (take k R) + 0)%nat at 1
    by (rewrite length_take; lia).
  rewrite insert_app_r.
  rewrite (take_S_r _ _ _ Hx), <- app_assoc. f_equal.
  destruct (drop k O) as [|o O'] eqn:HO.
  { apply (f_equal length) in HO. rewrite length_drop in HO. simpl in HO. lia. }
  simpl. f_equal.
  replace (S k) with (k + 1)%nat by lia. by rewrite <- drop_drop, HO.
Qed.

(** ** Elementwise kernels *)

(** While positions below [k] of [out] hold results, every array still has
    its initial element at position [k]. *)
Lemma current_lookup (hp : gmap nat (list scalar_t)) (out h : nat)
    (R O X : list scalar_t) (k : nat) :
  hp !! out = Some O → hp !! h = Some X → (k ≤ length R)%nat →
  ∃ X', <[out := take k R ++ drop k O]> hp !! h = Some X' ∧ X' !! k = X !! k.
Proof.
  intros Ho Hh Hlen. destruct (decide (out = h)) as [->|Hne].
  - rewrite lookup_insert_eq. eexists; split; [done|].
    rewrite lookup_take_drop_ge by (done || lia). congruence.
  - rewrite lookup_insert_ne by done. by exists X.
Qed.

Lemma elementwise_loop (g : scalar_t → scalar_t → scalar_t) (a b out : handle)
    (A B O : list scalar_t) st :
  heap st !! a = Some A → heap st !! b = Some B → heap st !! out = Some O →
  length B = length A → length O = length A →
  ∃ st', for_ (length A)
              (λ i _, x ← load a (Z.of_nat i);
                      y ← load b (Z.of_nat i);
                      store out (Z.of_nat i) (g x y)) tt st = Some (tt, st')
         ∧ heap st' = <[out := zip_with g A B]> (heap st).
Proof.
  intros Ha Hb Ho HlB HlO.
  set (R := zip_with g A B).
  assert (HlR : length R = length O).
  { unfold R. rewrite length_zip_with. lia. }
  destruct (for_inv
    (λ k (_ : unit) st', heap st' = <[out := take k R ++ drop k O]> (heap st))
    (length A)
    (λ i _, x ← load a (Z.of_nat i); y ← load b (Z.of_nat i);
            store out (Z.of_nat i) (g x y)) tt st) as ([] & st' & Hrun & HI).
  - simpl. by rewrite drop_0, insert_id.
  - intros k [] st1 Hk HI.
    destruct (lookup_lt_is_Some_2 A k Hk) as [x Hx].
    destruct (lookup_lt_is_Some_2 B k ltac:(lia)) as [y Hy].
    destruct (current_lookup (heap st) out a R O A k Ho Ha ltac:(lia)) as (A' & HA' & HA'k).
    destruct (current_lookup (heap st) out b R O B k Ho Hb ltac:(lia)) as (B' & HB' & HB'k).
    rewrite <- HI in HA', HB'.
    exists tt. eexists. split.
    + erewrite bind_Some; [|eapply load_run; [done|by rewrite vget_nat, HA'k]].
      erewrite bind_Some; [|eapply load_run; [done|by rewrite vget_nat, HB'k]].
      eapply store_run; simpl.
      * rewrite HI. apply lookup_insert_eq.
      * apply vset_nat. rewrite length_app, length_take, length_drop. lia.
    + simpl. rewrite HI, insert_insert_eq. f_equal.
      apply insert_take_drop; [lia|].
      unfold R. rewrite lookup_zip_with, Hx. simpl. by rewrite Hy.
  - exists st'. split; [done|]. rewrite HI. f_equal.
    rewrite take_ge, drop_ge by lia. by rewrite app_nil_r.
Qed.

Lemma ewise_binary_run g a b out A B O st :
  heap st !! a = Some A → heap st !! b = Some B → heap st !! out = Some O →
  length B = length A → length O = length A →
  ∃ st', ewise_binary g a b out st = Some (tt, st')
         ∧ heap st' = <[out := zip_with g A B]> (heap st).
Proof.
  intros Ha Hb Ho HlB HlO. unfold ewise_binary.
  rewrite (bind_Some _ _ _ _ _ (size_run _ _ _ Ha)).
  by eapply elementwise_loop.
Qed.

Lemma ewise_unary2_run (g : scalar_t → scalar_t) a out A O st :
  heap st !! a = Some A → heap st !! out = Some O → length O = length A →
  ∃ st', for_ (length A)
              (λ i _, x ← load a (Z.of_nat i); store out (Z.of_nat i) (g x)) tt st
         = Some (tt, st')
         ∧ heap st' = <[out := g <$> A]> (heap st).
Proof.
  intros Ha Ho HlO.
  set (R := g <$> A).
  assert (HlR : length R = length O) by (unfold R; rewrite length_fmap; lia).
  destruct (for_inv
    (λ k (_ : unit) st', heap st' = <[out := take k R ++ drop k O]> (heap st))
    (length A)
    (λ i _, x ← load a (Z.of_nat i); store out (Z.of_nat i) (g x)) tt st)
    as ([] & st' & Hrun & HI).
  - simpl. by rewrite drop_0, insert_id.
  - intros k [] st1 Hk HI.
    destruct (lookup_lt_is_Some_2 A k Hk) as [x Hx].
    destruct (current_lookup (heap st) out a R O A k Ho Ha ltac:(lia)) as (A' & HA' & HA'k).
    rewrite <- HI in HA'.
    exists tt. eexists. split.
    + erewrite bind_Some; [|eapply load_run; [done|by rewrite vget_nat, HA'k]].
      eapply store_run; simpl.
      * rewrite HI. apply lookup_insert_eq.
      * apply vset_nat. rewrite length_app, length_take, length_drop. lia.
    + simpl. rewrite HI, insert_insert_eq. f_equal.
      apply insert_take_drop; [lia|].
      unfold R. by rewrite list_lookup_fmap, Hx.
  - exists st'. split; [done|]. rewrite HI. f_equal.
    rewrite take_ge, drop_ge by lia. by rewrite app_nil_r.
Qed.

Lemma ewise_scalar_run g a val out A O st :
  heap st !! a = Some A → heap st !! out = Some O → length O = length A →
  ∃ st', ewise_scalar g a val out st = Some (tt, st')
         ∧ heap st' = <[out := (λ x, g x val) <$> A]> (heap st).
Proof.
  intros Ha Ho HlO. unfold ewise_scalar.
  rewrite (bind_Some _ _ _ _ _ (size_run _ _ _ Ha)).
  by eapply (ewise_unary2_run (λ x, g x val)).
Qed.

Lemma ewise_unary_run g a out A O st :
  heap st !! a = Some A → heap st !! out = Some O → length O = length A →
  ∃ st', ewise_unary g a out st = Some (tt, st')
         ∧ heap st' = <[out := g <$> A]> (heap st).
Proof.
  intros Ha Ho HlO. unfold ewise_unary.
  rewrite (bind_Some _ _ _ _ _ (size_run _ _ _ Ha)).
  by eapply ewise_unary2_run.
Qed.

(** Claim C7.  On arrays of one length every elementwise kernel runs to the
    end and stores [g (a[i], b[i])], [g (a[i], val)] or [g (a[i])] at every
    position [i] of [out], whichever arrays the three handles name:
    [EwiseAdd] stores the sums, [ScalarGe] stores 1 where [a[i] >= val] and
    0 elsewhere.  On [1, 2, 3] and [4, 5, 6], [EwiseAdd] gives [5, 7, 9] and
    [ScalarGe] with 2 gives [0, 1, 1]. *)
Theorem elementwise_kernels_pointwise (a b out : handle) (val : scalar_t)
    (A B O : list scalar_t) (st : state) :
  heap st !! a = Some A → heap st !! b = Some B → heap st !! out = Some O →
  length B = length A → length O = length A →
  (∀ g, ∃ st', ewise_binary g a b out st = Some (tt, st')
               ∧ heap st' = <[out := zip_with g A B]> (heap st))
  ∧ (∀ g, ∃ st', ewise_scalar g a val out st = Some (tt, st')
                 ∧ heap st' = <[out := (λ x, g x val) <$> A]> (heap st))
  ∧ (∀ g, ∃ st', ewise_unary g a out st = Some (tt, st')
                 ∧ heap st' = <[out := g <$> A]> (heap st))
  ∧ (∃ st', EwiseAdd a b out st = Some (tt, st')
            ∧ heap st' = <[out := zip_with fadd A B]> (heap st))
  ∧ (∃ st', ScalarGe a val out st = Some (tt, st')
            ∧ heap st' = <[out := (λ x, if fle val x then f32 1 else f32 0) <$> A]>
                           (heap st))
  ∧ (∃ st', EwiseAdd 0%nat 1%nat 2%nat
              (mem3 (f32 <$> [1; 2; 3]) (f32 <$> [4; 5; 6]) (f32 <$> [0; 0; 0]))
            = Some (tt, st')
            ∧ heap st' !! 2%nat = Some (f32 <$> [5; 7; 9]))
  ∧ (∃ st', ScalarGe 0%nat (f32 2) 2%nat
              (mem3 (f32 <$> [1; 2; 3]) (f32 <$> [4; 5; 6]) (f32 <$> [0; 0; 0]))
            = Some (tt, st')
            ∧ heap st' !! 2%nat = Some (f32 <$> [0; 1; 1])).
Proof.
  intros Ha Hb Ho HlB HlO.
  split; [intros g; by eapply ewise_binary_run|].
  split; [intros g; by eapply ewise_scalar_run|].
  split; [intros g; by eapply ewise_unary_run|].
  split; [by eapply ewise_binary_run|].
  split; [by eapply (ewise_scalar_run (λ x y, f32_of_bool (fle y x)))|].
  split; eexists; (split; [vm_compute; reflexivity|vm_compute; reflexivity]).
Qed.

Lemma elementwise_kernels_pointwise_witness :
  ∃ st', EwiseAdd 0%nat 1%nat 2%nat
           (mem3 (f32 <$> [1; 2; 3]) (f32 <$> [4; 5; 6]) (f32 <$> [0; 0; 0]))
         = Some (tt, st')
         ∧ heap st' = <[2%nat := zip_with fadd (f32 <$> [1; 2; 3]) (f32 <$> [4; 5; 6])]>
                        (heap (mem3 (f32 <$> [1; 2; 3]) (f32 <$> [4; 5; 6])
                                    (f32 <$> [0; 0; 0]))).
Proof.
  destruct (elementwise_kernels_pointwise 0%nat 1%nat 2%nat (f32 2)
              (f32 <$> [1; 2; 3]) (f32 <$> [4; 5; 6]) (f32 <$> [0; 0; 0])
              (mem3 (f32 <$> [1; 2; 3]) (f32 <$> [4; 5; 6]) (f32 <$> [0; 0; 0])))
    as (_ & _ & _ & H & _); [reflexivity..|exact H].
Defined.

(** ** The index walker at the last multi-index *)

Lemma updateIndices_rev shape indices :
  length indices = length shape → indices ≠ [] →
  updateIndices shape indices
  = Some (reverse (step_rev (reverse shape) (reverse indices))).
Proof.
  intros Hlen Hne. unfold updateIndices.
  destruct (length indices) as [|r] eqn:Hr; [by destruct indices|].
  rewrite <- Hr in Hlen.
  pose proof (updateIndices_at_rev indices [] shape [] Hlen Hne) as H.
  rewrite !app_nil_r, Hr in H. by replace (S r - 1)%nat with r in H by lia.
Qed.

Lemma length_step_rev rshape rindices :
  length (step_rev rshape rindices) = length rindices.
Proof.
  revert rindices. induction rshape as [|s rshape IH]; intros [|x xs]; simpl; try done.
  case_bool_decide; [done|]. destruct xs; [done|]. simpl. f_equal. apply IH.
Qed.

(** On the last multi-index every position but the first is reset. *)
Lemma step_rev_last rshape s0 :
  Forall (λ s, 1 ≤ s < 2 ^ 31) rshape → 1 ≤ s0 < 2 ^ 31 →
  step_rev (rshape ++ [s0]) (((λ s, s - 1) <$> rshape) ++ [s0 - 1])
  = replicate (length rshape) 0 ++ [s0 - 1].
Proof.
  intros Hr H0. induction Hr as [|s rshape Hs Hr IH].
  - simpl. rewrite bool_decide_false; [done|]. rewrite s32_id; lia.
  - rewrite fmap_cons. cbn [app step_rev length replicate].
    rewrite bool_decide_false by (rewrite s32_id; lia).
    rewrite <- IH.
    destruct (((λ s, s - 1) <$> rshape) ++ [s0 - 1]) eqn:E; [|done].
    by destruct ((λ s, s - 1) <$> rshape).
Qed.

Lemma in_shape_last shape :
  Forall int32 shape → in_shape shape ((λ s, s - 1) <$> shape) →
  Forall (λ s, 1 ≤ s < 2 ^ 31) shape.
Proof.
  unfold in_shape, int32. intros H32 Hin.
  induction shape as [|s shape IH]; [done|].
  rewrite fmap_cons in Hin. apply Forall2_cons in Hin as [Hs Hin].
  apply Forall_cons in H32 as [H1 H2].
  constructor; [lia|by apply IH].
Qed.

(** Claim C10, amended.  On a shape of rank at least 1 and a multi-index of
    that shape, [updateIndices] ends and reads and writes both vectors inside
    their bounds only (the embedding fails on any other access).  On the last
    multi-index it keeps the first component and resets all the others to 0;
    it leaves that multi-index as it is only when nothing is to reset. *)
Theorem updateIndices_in_bounds_and_last (shape indices : list Z) :
  shape ≠ [] → length indices = length shape → Forall int32 shape →
  in_shape shape indices →
  (∃ indices', updateIndices shape indices = Some indices'
               ∧ length indices' = length indices)
  ∧ (indices = (λ s, s - 1) <$> shape →
     updateIndices shape indices
     = Some (take 1 indices ++ replicate (length shape - 1) 0)).
Proof.
  intros Hne Hlen H32 Hin. split.
  - rewrite updateIndices_rev; [|done|by destruct indices, shape].
    eexists; split; [done|].
    by rewrite length_reverse, length_step_rev, length_reverse.
  - intros ->. apply in_shape_last in Hin; [|done].
    destruct shape as [|s0 rest]; [done|].
    rewrite updateIndices_rev; [|by rewrite length_fmap|done].
    f_equal. rewrite fmap_cons, !reverse_cons.
    apply Forall_cons in Hin as [H0 Hrest].
    rewrite <- fmap_reverse, step_rev_last; [|by apply Forall_reverse|done].
    rewrite reverse_app, reverse_replicate, length_reverse. simpl.
    by rewrite Nat.sub_0_r.
Qed.

Lemma updateIndices_in_bounds_and_last_witness :
  (∃ indices', updateIndices [2; 3] [1; 2] = Some indices'
               ∧ length indices' = length [1; 2])
  ∧ ([1; 2] = (λ s, s - 1) <$> [2; 3] →
     updateIndices [2; 3] [1; 2]
     = Some (take 1 [1; 2] ++ replicate (length [2; 3] - 1) 0)).
Proof.
  apply (updateIndices_in_bounds_and_last [2; 3] [1; 2]).
  - discriminate.
  - reflexivity.
  - repeat constructor; vm_compute; discriminate.
  - repeat constructor; lia.
Defined.

(** Claim C10 as stated fails: on the last multi-index [1, 2] of the shape
    [2, 3] the walker returns [1, 0]. *)
Lemma updateIndices_last_not_fixed :
  in_shape [2; 3] [1; 2] ∧ [1; 2] = (λ s, s - 1) <$> [2; 3]
  ∧ updateIndices [2; 3] [1; 2] = Some [1; 0]
  ∧ updateIndices [2; 3] [1; 2] ≠ Some [1; 2].
Proof.
  split; [repeat constructor; lia|]. split; [reflexivity|].
  split; [reflexivity|]. vm_compute. congruence.
Qed.

(** ** Division, logarithm and empty views *)

Lemma fdiv_positive_by_zero x :
  flt fzero x = true → fdiv x fzero = finf ∧ fdiv x fnegzero = fneginf.
Proof. destruct x as [s|s| |s m e]; try destruct s; simpl; try done. Qed.

Lemma fdiv_zero_by_zero x y :
  feq x fzero = true → feq y fzero = true → fdiv x y = fnan.
Proof.
  destruct x as [s|s| |s m e], y as [s'|s'| |s' m' e'];
    try destruct s; try destruct s'; simpl; try done.
Qed.

(** Claim C8, amended.  [EwiseDiv], [ScalarDiv] and [EwiseLog] run to the end
    on all inputs and store the IEEE-754 value of every position.  [EwiseDiv]
    stores +infinity for a positive [a[i]] over [+0], -infinity for a
    positive [a[i]] over [-0], and NaN for a zero over a zero.  [EwiseLog]
    stores what the library's [log] returns, which is -infinity at a zero and
    NaN at a negative argument for a library that follows IEEE-754. *)
Theorem division_and_log_store_ieee_values
    (libm_log : scalar_t → scalar_t)
    (a b out : handle) (val : scalar_t) (A B O : list scalar_t) (st : state) :
  heap st !! a = Some A → heap st !! b = Some B → heap st !! out = Some O →
  length B = length A → length O = length A →
  (∀ x, feq x fzero = true → libm_log x = fneginf) →
  (∀ x, flt x fzero = true → libm_log x = fnan) →
  (∃ st' O', EwiseDiv a b out st = Some (tt, st')
       ∧ heap st' = <[out := O']> (heap st)
       ∧ O' = zip_with fdiv A B
       ∧ ∀ i x y, A !! i = Some x → B !! i = Some y →
           (flt fzero x = true → y = fzero → O' !! i = Some finf)
           ∧ (flt fzero x = true → y = fnegzero → O' !! i = Some fneginf)
           ∧ (feq x fzero = true → feq y fzero = true → O' !! i = Some fnan))
  ∧ (∃ st', ScalarDiv a val out st = Some (tt, st')
       ∧ heap st' = <[out := (λ x, fdiv x val) <$> A]> (heap st))
  ∧ (∃ st' O', EwiseLog libm_log a out st = Some (tt, st')
       ∧ heap st' = <[out := O']> (heap st)
       ∧ O' = libm_log <$> A
       ∧ ∀ i x, A !! i = Some x →
           (feq x fzero = true → O' !! i = Some fneginf)
           ∧ (flt x fzero = true → O' !! i = Some fnan)).
Proof.
  intros Ha Hb Ho HlB HlO Hlog0 Hlogneg. split; [|split].
  - destruct (ewise_binary_run fdiv a b out A B O st) as (st' & Hrun & Hh); try done.
    exists st', (zip_with fdiv A B). do 3 (split; [done|]).
    intros i x y Hx Hy. rewrite lookup_zip_with, Hx. simpl. rewrite Hy. simpl.
    split; [|split].
    + intros Hpos ->. f_equal. by apply fdiv_positive_by_zero.
    + intros Hpos ->. f_equal. by apply fdiv_positive_by_zero.
    + intros H1 H2. f_equal. by apply fdiv_zero_by_zero.
  - by eapply (ewise_scalar_run fdiv).
  - destruct (ewise_unary_run libm_log a out A O st) as (st' & Hrun & Hh); try done.
    exists st', (libm_log <$> A). do 3 (split; [done|]).
    intros i x Hx. rewrite list_lookup_fmap, Hx. simpl.
    split; intros H; f_equal; auto.
Qed.

(** Claim C8 as stated fails: a positive [a[i]] over a [b[i]] that equals
    zero gives -infinity when [b[i]] is [-0]. *)
Lemma EwiseDiv_negative_zero_divisor :
  flt fzero (f32 1) = true ∧ feq fnegzero fzero = true
  ∧ (∃ st', EwiseDiv 0%nat 1%nat 2%nat (mem3 [f32 1] [fnegzero] [fzero])
            = Some (tt, st')
            ∧ heap st' !! 2%nat = Some [fneginf])
  ∧ fneginf ≠ finf.
Proof.
  split; [reflexivity|]. split; [reflexivity|].
  split; [|discriminate].
  eexists. split; vm_compute; reflexivity.
Qed.

Lemma division_and_log_store_ieee_values_witness :
  ∃ st' O', EwiseDiv 0%nat 1%nat 2%nat
              (mem3 [f32 1; fzero] [fzero; fnegzero] [fzero; fzero])
            = Some (tt, st')
    ∧ heap st' = <[2%nat := O']>
                   (heap (mem3 [f32 1; fzero] [fzero; fnegzero] [fzero; fzero]))
    ∧ O' = zip_with fdiv [f32 1; fzero] [fzero; fnegzero]
    ∧ ∀ i x y, [f32 1; fzero] !! i = Some x → [fzero; fnegzero] !! i = Some y →
        (flt fzero x = true → y = fzero → O' !! i = Some finf)
        ∧ (flt fzero x = true → y = fnegzero → O' !! i = Some fneginf)
        ∧ (feq x fzero = true → feq y fzero = true → O' !! i = Some fnan).
Proof.
  destruct (division_and_log_store_ieee_values log_exceptional 0%nat 1%nat 2%nat (f32 2)
              [f32 1; fzero] [fzero; fnegzero] [fzero; fzero]
              (mem3 [f32 1; fzero] [fzero; fnegzero] [fzero; fzero]))
    as (H & _); [reflexivity..| | |exact H].
  - intros x Hx. unfold log_exceptional. rewrite Hx. reflexivity.
  - intros x Hx. unfold log_exceptional.
    destruct x as [s|s| |s m e]; try destruct s; try discriminate; reflexivity.
Defined.

Lemma product_zero shape : 0 ∈ shape → product shape = 0.
Proof.
  unfold product. induction shape as [|s shape IH]; [by intros ?%elem_of_nil|].
  intros [<-|H]%elem_of_cons; simpl; [lia|]. rewrite IH by done. lia.
Qed.

(** Claim C9.  For a shape with an axis of size 0, whose product is 0, and
    a compact counterpart of that length, [Compact], [EwiseSetitem] and
    [ScalarSetitem] do not run their loop body: they return with the same
    heap and the same log of accesses. *)
Theorem zero_sized_view_transfers_do_nothing
    (a out : handle) (shape strides : list Z) (offset size : Z) (val : scalar_t)
    (A O : list scalar_t) (st : state) :
  0 ∈ shape →
  (heap st !! out = Some O → Z.of_nat (length O) = product shape →
     Compact a out shape strides offset st = Some (tt, st))
  ∧ (heap st !! a = Some A → Z.of_nat (length A) = product shape →
     EwiseSetitem a out shape strides offset st = Some (tt, st))
  ∧ (size = product shape →
     ScalarSetitem size val out shape strides offset st = Some (tt, st)).
Proof.
  intros H0%product_zero. rewrite H0. split; [|split].
  - intros Ho Hlen. unfold Compact.
    rewrite (bind_Some _ _ _ _ _ (size_run _ _ _ Ho)).
    by replace (length O) with 0%nat by lia.
  - intros Ha Hlen. unfold EwiseSetitem.
    rewrite (bind_Some _ _ _ _ _ (size_run _ _ _ Ha)).
    by replace (length A) with 0%nat by lia.
  - by intros ->.
Qed.

Lemma zero_sized_view_transfers_do_nothing_witness :
  (heap (mem3 [f32 1; f32 2] [] []) !! 1%nat = Some [] →
   Z.of_nat (length (@nil scalar_t)) = product [2; 0] →
   Compact 0%nat 1%nat [2; 0] [1; 1] 0 (mem3 [f32 1; f32 2] [] [])
   = Some (tt, mem3 [f32 1; f32 2] [] []))
  ∧ (heap (mem3 [f32 1; f32 2] [] []) !! 0%nat = Some [f32 1; f32 2] →
     Z.of_nat (length [f32 1; f32 2]) = product [2; 0] →
     EwiseSetitem 0%nat 1%nat [2; 0] [1; 1] 0 (mem3 [f32 1; f32 2] [] [])
     = Some (tt, mem3 [f32 1; f32 2] [] []))
  ∧ (0 = product [2; 0] →
     ScalarSetitem 0 (f32 1) 1%nat [2; 0] [1; 1] 0 (mem3 [f32 1; f32 2] [] [])
     = Some (tt, mem3 [f32 1; f32 2] [] [])).
Proof.
  apply (zero_sized_view_transfers_do_nothing 0%nat 1%nat [2; 0] [1; 1] 0 0 (f32 1)
           [f32 1; f32 2] [] (mem3 [f32 1; f32 2] [] [])).
  apply list_elem_of_further, list_elem_of_here.
Defined.

(** ** Row-major enumeration *)

Lemma product_app l1 l2 : product (l1 ++ l2) = product l1 * product l2.
Proof. unfold product. induction l1 as [|x l1 IH]; simpl; [lia|]. rewrite IH. lia. Qed.

Lemma product_reverse l : product (reverse l) = product l.
Proof.
  induction l as [|x l IH]; [done|].
  rewrite reverse_cons, product_app, IH. unfold product. simpl. lia.
Qed.

Lemma product_pos l : Forall axis l → 0 < product l.
Proof. unfold product, axis. induction 1; simpl; lia. Qed.

Lemma length_unravel_rev rshape i : length (unravel_rev rshape i) = length rshape.
Proof. revert i. induction rshape; intros i; simpl; auto. Qed.

Lemma length_unravel shape i : length (unravel shape i) = length shape.
Proof. unfold unravel. by rewrite length_reverse, length_unravel_rev, length_reverse. Qed.

Lemma unravel_rev_0 rshape : unravel_rev rshape 0 = replicate (length rshape) 0.
Proof.
  induction rshape as [|s rshape IH]; [done|]. simpl.
  by rewrite Zmod_0_l, Zdiv_0_l, IH.
Qed.

Lemma unravel_0 shape : unravel shape 0 = replicate (length shape) 0.
Proof. unfold unravel. by rewrite unravel_rev_0, reverse_replicate, length_reverse. Qed.

Lemma step_rev_unravel rshape : ∀ k,
  Forall axis rshape → 0 ≤ k → k + 1 < product rshape →
  step_rev rshape (unravel_rev rshape k) = unravel_rev rshape (k + 1).
Proof.
  induction rshape as [|s rshape IH]; intros k Hax Hk Hlt; [done|].
  apply Forall_cons in Hax as [Hs Hax]. unfold axis in Hs.
  pose proof (product_pos _ Hax) as Hpos.
  change (product (s :: rshape)) with (s * product rshape) in Hlt.
  pose proof (Z.div_mod k s ltac:(lia)) as Hdm.
  pose proof (Z.mod_pos_bound k s ltac:(lia)) as Hmb.
  cbn [unravel_rev step_rev]. rewrite (s32_id (s - 1)) by lia.
  case_bool_decide as Hc.
  - rewrite s32_id by lia. f_equal.
    + apply (Z.mod_unique_pos _ _ (k / s)); lia.
    + f_equal. apply (Z.div_unique_pos _ _ _ (k mod s + 1)); lia.
  - assert (Hq : 0 ≤ k / s) by (apply Z.div_pos; lia).
    assert (Hm1 : (k + 1) mod s = 0).
    { symmetry. apply (Z.mod_unique_pos _ _ (k / s + 1)); lia. }
    assert (Hd1 : (k + 1) / s = k / s + 1).
    { symmetry. apply (Z.div_unique_pos _ _ _ 0); lia. }
    rewrite Hm1, Hd1.
    destruct rshape as [|s' rshape'].
    + exfalso. unfold product in Hlt. simpl in Hlt. nia.
    + rewrite <- IH; [done|done|done|nia].
Qed.

Lemma unravel_rev_in_shape rshape : ∀ i,
  Forall axis rshape → Forall2 (λ x s, 0 ≤ x < s) (unravel_rev rshape i) rshape.
Proof.
  induction rshape as [|s rshape IH]; intros i Hax; [constructor|].
  apply Forall_cons in Hax as [Hs Hax]. unfold axis in Hs. simpl.
  constructor; [apply Z.mod_pos_bound; lia|by apply IH].
Qed.

Lemma ravel_snoc shape indices s x :
  length shape = length indices →
  ravel (shape ++ [s]) (indices ++ [x]) = ravel shape indices * s + x.
Proof.
  intros Hlen. unfold ravel.
  rewrite zip_with_app by done. by rewrite foldl_app.
Qed.

Lemma ravel_unravel_rev rshape : ∀ i,
  Forall axis rshape → 0 ≤ i < product rshape →
  ravel (reverse rshape) (reverse (unravel_rev rshape i)) = i.
Proof.
  induction rshape as [|s rshape IH]; intros i Hax Hi.
  { unfold product in Hi. simpl in *. unfold ravel. simpl. lia. }
  apply Forall_cons in Hax as [Hs Hax]. unfold axis in Hs.
  change (product (s :: rshape)) with (s * product rshape) in Hi.
  cbn [unravel_rev]. rewrite !reverse_cons.
  rewrite ravel_snoc by (by rewrite !length_reverse, length_unravel_rev).
  rewrite IH; [|done|].
  - pose proof (Z.div_mod i s ltac:(lia)). lia.
  - split; [apply Z.div_pos; lia|]. apply Z.div_lt_upper_bound; lia.
Qed.

Lemma unravel_rev_ravel rindices rshape :
  Forall2 (λ x s, 0 ≤ x < s) rindices rshape →
  0 ≤ ravel (reverse rshape) (reverse rindices) < product rshape
  ∧ unravel_rev rshape (ravel (reverse rshape) (reverse rindices)) = rindices.
Proof.
  induction 1 as [|x s rindices rshape Hx Hall [IHr IHu]].
  { unfold ravel, product. simpl. split; [lia|done]. }
  pose proof (Forall2_length _ _ _ Hall) as Hlen.
  rewrite !reverse_cons, ravel_snoc by (by rewrite !length_reverse).
  change (product (s :: rshape)) with (s * product rshape).
  set (v := ravel (reverse rshape) (reverse rindices)) in *.
  split; [nia|]. cbn [unravel_rev].
  assert (Hm : (v * s + x) mod s = x).
  { symmetry. apply (Z.mod_unique_pos _ _ v); lia. }
  assert (Hd : (v * s + x) / s = v).
  { symmetry. apply (Z.div_unique_pos _ _ _ x); lia. }
  by rewrite Hm, Hd, IHu.
Qed.

(** The multi-indices of a shape are in bijection with the row-major ranks
    below its product. *)
Lemma unravel_in_shape shape i :
  Forall axis shape → 0 ≤ i < product shape →
  in_shape shape (unravel shape i) ∧ ravel shape (unravel shape i) = i.
Proof.
  intros Hax Hi. unfold in_shape, unravel. split.
  - rewrite <- (reverse_involutive shape) at 2. apply Forall2_reverse.
    apply unravel_rev_in_shape. by apply Forall_reverse.
  - rewrite <- (reverse_involutive shape) at 1.
    apply ravel_unravel_rev; [by apply Forall_reverse|by rewrite product_reverse].
Qed.

Lemma ravel_in_shape shape indices :
  in_shape shape indices →
  0 ≤ ravel shape indices < product shape
  ∧ unravel shape (ravel shape indices) = indices.
Proof.
  intros Hin. apply Forall2_reverse in Hin.
  apply unravel_rev_ravel in Hin. rewrite !reverse_involutive, product_reverse in Hin.
  destruct Hin as [Hr Hu]. split; [done|].
  unfold unravel. by rewrite Hu, reverse_involutive.
Qed.

(** One step of the walker leads from rank [k] to rank [k + 1]. *)
Lemma updateIndices_unravel shape k :
  shape ≠ [] → Forall axis shape → 0 ≤ k → k + 1 < product shape →
  updateIndices shape (unravel shape k) = Some (unravel shape (k + 1)).
Proof.
  intros Hne Hax Hk Hlt.
  rewrite updateIndices_rev.
  - unfold unravel. rewrite reverse_involutive, step_rev_unravel; try done.
    + by apply Forall_reverse.
    + by rewrite product_reverse.
  - apply length_unravel.
  - intros E. apply (f_equal length) in E. rewrite length_unravel in E.
    by destruct shape.
Qed.

Lemma updateIndices_total shape indices :
  shape ≠ [] → length indices = length shape →
  ∃ indices', updateIndices shape indices = Some indices'
              ∧ length indices' = length shape.
Proof.
  intros Hne Hlen. rewrite updateIndices_rev; [|done|by destruct indices, shape].
  eexists; split; [done|].
  by rewrite length_reverse, length_step_rev, length_reverse.
Qed.

(** [getLocation] computes [location]. *)
Lemma getLocation_location strides offset indices :
  (length indices ≤ length strides)%nat →
  getLocation strides offset indices = Some (location strides offset indices).
Proof.
  intros Hlen. unfold getLocation, location.
  destruct (ofor_inv
    (λ k loc, loc = foldl (λ loc sx, u64 (loc + s32 (sx.1 * sx.2))) offset
                      (take k (zip strides indices)))
    (length indices)
    (λ i loc, s ← strides !! i; x ← indices !! i; Some (u64 (loc + s32 (s * x))))
    offset) as (loc & Hrun & ->).
  - done.
  - intros k loc Hk ->.
    destruct (lookup_lt_is_Some_2 indices k Hk) as [x Hx].
    destruct (lookup_lt_is_Some_2 strides k ltac:(lia)) as [s Hs].
    rewrite Hs, Hx. simpl. eexists; split; [done|].
    assert (Hz : zip strides indices !! k = Some (s, x)).
    { by rewrite lookup_zip_with, Hs; simpl; rewrite Hx. }
    by rewrite (take_S_r _ _ _ Hz), foldl_app.
  - rewrite Hrun. f_equal. f_equal. apply take_ge.
    rewrite length_zip_with. lia.
Qed.

(** Without overflow of the [int] products, [location] is the sum
    [offset + strides[0] * indices[0] + ...] reduced to a [size_t]. *)
Lemma location_exact_u64 strides offset indices :
  0 ≤ offset < 2 ^ 64 → products_fit strides indices →
  location strides offset indices = u64 (location_exact strides offset indices).
Proof.
  unfold location, location_exact, products_fit. intros Hoff.
  rewrite <- (u64_id offset) at 1 by done.
  generalize offset. clear Hoff.
  induction (zip strides indices) as [|[s x] l IH]; intros acc Hfit.
  - done.
  - apply Forall_cons in Hfit as [Hsx Hfit]. cbn [foldl fst snd] in *.
    rewrite (s32_id (s * x)) by exact Hsx.
    replace (u64 (u64 acc + s * x)) with (u64 (acc + s * x))
      by (unfold u64; by rewrite Zplus_mod_idemp_l).
    by apply IH.
Qed.

(** ** Compact and EwiseSetitem *)

Lemma walker_step shape (k : nat) :
  shape ≠ [] → Forall axis shape →
  ∃ indices', updateIndices shape (unravel shape (Z.of_nat k)) = Some indices'
    ∧ length indices' = length shape
    ∧ (Z.of_nat (S k) < product shape → indices' = unravel shape (Z.of_nat (S k))).
Proof.
  intros Hne Hax.
  destruct (decide (Z.of_nat (S k) < product shape)) as [Hlt|Hge].
  - exists (unravel shape (Z.of_nat (S k))).
    split; [|split; [apply length_unravel|done]].
    rewrite Nat2Z.inj_succ, <- Z.add_1_r.
    apply updateIndices_unravel; try done; lia.
  - destruct (updateIndices_total shape (unravel shape (Z.of_nat k)))
      as (idx & Hrun & Hlen); [done|apply length_unravel|].
    exists idx. split; [done|]. split; [done|]. intros ?. lia.
Qed.

Lemma rd_lookup (A : list scalar_t) (z : Z) :
  0 ≤ z < Z.of_nat (length A) → vget A z = Some (rd A z).
Proof.
  intros Hz. unfold rd.
  destruct (lookup_lt_is_Some_2 A (Z.to_nat z) ltac:(lia)) as [v Hv].
  by rewrite (vget_Some _ _ _ (proj1 Hz) Hv).
Qed.

Lemma Compact_run a out shape strides offset A O st :
  a ≠ out → heap st !! a = Some A → heap st !! out = Some O →
  shape ≠ [] → Forall axis shape → length strides = length shape →
  Z.of_nat (length O) = product shape →
  view_in_bounds shape strides offset (length A) →
  ∃ st', Compact a out shape strides offset st = Some (tt, st')
    ∧ heap st' = <[out := (λ i, rd A (view_location shape strides offset i))
                           <$> seq 0 (length O)]> (heap st)
    ∧ trace st' = trace st
                  ++ mjoin (Compact_events a out A shape strides offset
                            <$> seq 0 (length O)).
Proof.
  intros Hne Ha Ho Hshape Hax Hstr Hlen Hb.
  set (loc := view_location shape strides offset).
  set (R := (λ i, rd A (loc i)) <$> seq 0 (length O)).
  assert (HlR : length R = length O) by (unfold R; by rewrite length_fmap, length_seq).
  unfold Compact. rewrite (bind_Some _ _ _ _ _ (size_run _ _ _ Ho)).
  destruct (for_inv
    (λ k indices st',
       heap st' = <[out := take k R ++ drop k O]> (heap st)
       ∧ length indices = length shape
       ∧ ((k < length O)%nat → indices = unravel shape (Z.of_nat k))
       ∧ trace st' = trace st
                     ++ mjoin (Compact_events a out A shape strides offset <$> seq 0 k))
    (length O)
    (λ i indices_vector,
       loc ← lift (getLocation strides offset indices_vector);
       v ← load a loc;
       _ ← store out (Z.of_nat i) v;
       lift (updateIndices shape indices_vector))
    (replicate (length shape) 0) st) as (idx & st' & Hrun & HI & _ & _ & Htr).
  - split; [simpl; by rewrite drop_0, insert_id|].
    split; [by rewrite length_replicate|].
    split; [intros _; by rewrite unravel_0|].
    simpl. by rewrite app_nil_r.
  - intros k idx st1 Hk (HI & Hlidx & Hidx & Htr).
    specialize (Hidx Hk). subst idx.
    destruct (unravel_in_shape shape (Z.of_nat k) Hax ltac:(lia)) as [Hin _].
    pose proof (Hb _ Hin) as Hloc. fold (loc k) in Hloc.
    destruct (walker_step shape k Hshape Hax) as (idx' & Hupd & Hlidx' & Hnext).
    exists idx'. eexists. split.
    + erewrite bind_Some; [|apply lift_Some, getLocation_location; lia].
      fold (loc k).
      erewrite bind_Some;
        [|eapply load_run; [by rewrite HI, lookup_insert_ne|by apply rd_lookup]].
      erewrite bind_Some; [|eapply store_run; simpl;
        [rewrite HI; apply lookup_insert_eq
        |apply vset_nat; rewrite length_app, length_take, length_drop; lia]].
      by apply lift_Some.
    + cbn [heap trace]. split; [|split; [done|split]].
      * rewrite HI, insert_insert_eq. f_equal. apply insert_take_drop; [lia|].
        unfold R. rewrite list_lookup_fmap, lookup_seq_lt by done. done.
      * intros HSk. apply Hnext. lia.
      * rewrite Htr, seq_S, fmap_app, join_app, <- !app_assoc. simpl. done.
  - exists st'. split; [by rewrite (bind_Some _ _ _ _ _ Hrun)|].
    split; [|done]. rewrite HI. f_equal.
    rewrite take_ge, drop_ge by lia. by rewrite app_nil_r.
Qed.


(** Where every exact location lies inside the buffer and no [int] product
    overflows, [getLocation] computes the exact location. *)
Lemma location_is_exact strides offset indices (len : nat) :
  0 ≤ offset < 2 ^ 64 → Z.of_nat len ≤ 2 ^ 64 →
  products_fit strides indices →
  0 ≤ location_exact strides offset indices < Z.of_nat len →
  location strides offset indices = location_exact strides offset indices.
Proof.
  intros Hoff Hlen Hfit Hb.
  rewrite location_exact_u64 by done. apply u64_id. lia.
Qed.

(** Claim C2, amended.  For a shape of rank at least 1 with positive axis
    sizes, strides of the same rank and an offset such that no product
    [strides[j] * idx[j]] leaves the range of [int] and every location
    [offset + strides[0] * idx[0] + ...] lies inside [a], and an [out] that
    is another array of as many elements as the shape has: [unravel] and
    [ravel] put the multi-indices of the shape in bijection with the
    row-major ranks, [getLocation] resolves each of them to
    [offset + strides[0] * idx[0] + ...], and [Compact] stores at every
    position [i] of [out] the element of [a] at that location for the
    multi-index of rank [i].  The array [a] keeps its contents and is only
    read. *)
Theorem Compact_gathers_in_row_major_order
    (a out : handle) (shape strides : list Z) (offset : Z)
    (A O : list scalar_t) (st : state) :
  a ≠ out → heap st !! a = Some A → heap st !! out = Some O →
  shape ≠ [] → Forall axis shape → length strides = length shape →
  Z.of_nat (length O) = product shape →
  0 ≤ offset < 2 ^ 64 → Z.of_nat (length A) ≤ 2 ^ 64 →
  (∀ indices, in_shape shape indices →
        products_fit strides indices
        ∧ 0 ≤ location_exact strides offset indices < Z.of_nat (length A)) →
  (∀ i, 0 ≤ i < product shape →
        in_shape shape (unravel shape i) ∧ ravel shape (unravel shape i) = i)
  ∧ (∀ indices, in_shape shape indices →
        0 ≤ ravel shape indices < product shape
        ∧ unravel shape (ravel shape indices) = indices)
  ∧ (∀ indices, in_shape shape indices →
        getLocation strides offset indices
        = Some (location_exact strides offset indices))
  ∧ ∃ st' O',
      Compact a out shape strides offset st = Some (tt, st')
      ∧ heap st' = <[out := O']> (heap st)
      ∧ heap st' !! a = Some A
      ∧ length O' = length O
      ∧ (∀ i, (i < length O)%nat →
           ∃ v, A !! Z.to_nat (location_exact strides offset
                                 (unravel shape (Z.of_nat i))) = Some v
                ∧ O' !! i = Some v)
      ∧ (∀ i, (i < length O)%nat →
           view_location shape strides offset i
           = location_exact strides offset (unravel shape (Z.of_nat i)))
      ∧ trace st' = trace st
                    ++ mjoin (Compact_events a out A shape strides offset
                              <$> seq 0 (length O)).
Proof.
  intros Hne Ha Ho Hshape Hax Hstr Hlen Hoff HlA Hex.
  assert (Hlocs : ∀ indices, in_shape shape indices →
            location strides offset indices
            = location_exact strides offset indices).
  { intros idx Hin. destruct (Hex _ Hin) as [Hfit Hb].
    by apply (location_is_exact _ _ _ (length A)). }
  assert (Hb : view_in_bounds shape strides offset (length A)).
  { intros idx Hin. rewrite Hlocs by done. by apply Hex. }
  split; [intros i Hi; by apply unravel_in_shape|].
  split; [intros idx Hin; by apply ravel_in_shape|].
  split.
  { intros idx Hin. rewrite getLocation_location, Hlocs; [done|done|].
    apply Forall2_length in Hin. lia. }
  destruct (Compact_run a out shape strides offset A O st) as (st' & Hrun & Hh & Htr);
    try done.
  eexists st', _. split; [done|]. split; [done|].
  split; [by rewrite Hh, lookup_insert_ne|].
  split; [by rewrite length_fmap, length_seq|].
  split; [|split; [|done]].
  - intros i Hi.
    destruct (unravel_in_shape shape (Z.of_nat i) Hax ltac:(lia)) as [Hin _].
    pose proof (rd_lookup A _ (Hb _ Hin)) as Hrd.
    exists (rd A (location strides offset (unravel shape (Z.of_nat i)))). split.
    + rewrite <- Hlocs by done.
      unfold vget in Hrd. rewrite bool_decide_true in Hrd; [done|].
      apply (Hb _ Hin).
    + by rewrite list_lookup_fmap, lookup_seq_lt.
  - intros i Hi.
    destruct (unravel_in_shape shape (Z.of_nat i) Hax ltac:(lia)) as [Hin _].
    unfold view_location. by apply Hlocs.
Qed.


Lemma transposed_view_in_bounds : view_in_bounds [2; 3] [1; 2] 0 6.
Proof.
  intros indices Hin.
  apply Forall2_cons_inv_r in Hin as (x & rest & Hx & Hin & ->).
  apply Forall2_cons_inv_r in Hin as (y & rest' & Hy & Hin & ->).
  apply Forall2_nil_inv_r in Hin as ->.
  assert (Hxs : x = 0 ∨ x = 1) by lia.
  assert (Hys : y = 0 ∨ y = 1 ∨ y = 2) by lia.
  destruct Hxs as [->| ->], Hys as [->|[->| ->]]; vm_compute; split; congruence.
Defined.

Lemma transposed_view_exact indices :
  in_shape [2; 3] indices →
  products_fit [1; 2] indices ∧ 0 ≤ location_exact [1; 2] 0 indices < Z.of_nat 6.
Proof.
  intros Hin.
  apply Forall2_cons_inv_r in Hin as (x & rest & Hx & Hin & ->).
  apply Forall2_cons_inv_r in Hin as (y & rest' & Hy & Hin & ->).
  apply Forall2_nil_inv_r in Hin as ->.
  assert (Hxs : x = 0 ∨ x = 1) by lia.
  assert (Hys : y = 0 ∨ y = 1 ∨ y = 2) by lia.
  destruct Hxs as [->| ->], Hys as [->|[->| ->]];
    (split; [repeat constructor; vm_compute; congruence
            |vm_compute; split; congruence]).
Defined.

Lemma Compact_gathers_in_row_major_order_witness :
  ∃ st' O',
    Compact 0%nat 1%nat [2; 3] [1; 2] 0
      (mem3 (f32 <$> [1; 2; 3; 4; 5; 6]) (f32 <$> [0; 0; 0; 0; 0; 0]) [])
    = Some (tt, st')
    ∧ heap st' = <[1%nat := O']>
        (heap (mem3 (f32 <$> [1; 2; 3; 4; 5; 6]) (f32 <$> [0; 0; 0; 0; 0; 0]) []))
    ∧ heap st' !! 0%nat = Some (f32 <$> [1; 2; 3; 4; 5; 6])
    ∧ length O' = 6%nat.
Proof.
  destruct (Compact_gathers_in_row_major_order 0%nat 1%nat [2; 3] [1; 2] 0
              (f32 <$> [1; 2; 3; 4; 5; 6]) (f32 <$> [0; 0; 0; 0; 0; 0])
              (mem3 (f32 <$> [1; 2; 3; 4; 5; 6]) (f32 <$> [0; 0; 0; 0; 0; 0]) []))
    as (_ & _ & _ & st' & O' & H1 & H2 & H3 & H4 & _).
  - discriminate.
  - reflexivity.
  - reflexivity.
  - discriminate.
  - repeat constructor; vm_compute; congruence.
  - reflexivity.
  - reflexivity.
  - lia.
  - vm_compute; congruence.
  - exact transposed_view_exact.
  - exists st', O'. repeat split; assumption.
Defined.


(** ** Compact beyond the range of int *)

(** A view of three elements with the stride [2^31 - 1] at offset 2 over a
    buffer of [2^32 + 1] elements: the product [stride * 2] does not fit an
    [int]. *)
Lemma Compact_int_product_wraps (N : nat) (O : list scalar_t) :
  Z.of_nat N = 2 ^ 32 - 1 → length O = 3%nat →
  [3] ≠ [] ∧ Forall axis [3] ∧ length [2147483647] = length [3]
  ∧ Z.of_nat (length O) = product [3]
  ∧ (∀ indices, in_shape [3] indices →
       0 ≤ location_exact [2147483647] 2 indices
         < Z.of_nat (length (f32 5 :: replicate N (f32 1) ++ [f32 2])))
  ∧ ∃ st' O',
      Compact 0%nat 1%nat [3] [2147483647] 2
        (mem3 (f32 5 :: replicate N (f32 1) ++ [f32 2]) O []) = Some (tt, st')
      ∧ heap st' !! 1%nat = Some O'
      ∧ O' !! 2%nat = Some (f32 5)
      ∧ (f32 5 :: replicate N (f32 1) ++ [f32 2])
          !! Z.to_nat (location_exact [2147483647] 2 (unravel [3] (Z.of_nat 2)))
        = Some (f32 2)
      ∧ f32 5 ≠ f32 2.
Proof.
  intros HN HlO.
  set (A := f32 5 :: replicate N (f32 1) ++ [f32 2]).
  assert (HlA : Z.of_nat (length A) = 2 ^ 32 + 1).
  { unfold A. cbn [length]. rewrite length_app, length_replicate. simpl. lia. }
  assert (HA0 : rd A 0 = f32 5) by reflexivity.
  assert (HAlast : A !! S N = Some (f32 2)).
  { unfold A. change ((replicate N (f32 1) ++ [f32 2]) !! N = Some (f32 2)).
    rewrite lookup_app_r by (rewrite length_replicate; lia).
    rewrite length_replicate, Nat.sub_diag. done. }
  clearbody A.
  assert (Hcases : ∀ indices, in_shape [3] indices →
            indices = [0] ∨ indices = [1] ∨ indices = [2]).
  { intros indices Hin.
    apply Forall2_cons_inv_r in Hin as (x & rest & Hx & Hin & ->).
    apply Forall2_nil_inv_r in Hin as ->.
    assert (x = 0 ∨ x = 1 ∨ x = 2) as [->|[->| ->]] by lia; auto. }
  split; [done|]. split; [repeat constructor; vm_compute; congruence|].
  split; [done|]. split; [by rewrite HlO|]. split.
  { intros indices Hin. rewrite HlA.
    destruct (Hcases _ Hin) as [->|[->| ->]]; vm_compute; split; congruence. }
  destruct (Compact_run 0%nat 1%nat [3] [2147483647] 2 A O (mem3 A O []))
    as (st' & Hrun & Hh & _).
  - discriminate.
  - unfold mem3. cbn [heap]. apply lookup_insert_eq.
  - unfold mem3. cbn [heap]. rewrite lookup_insert_ne by lia. apply lookup_insert_eq.
  - done.
  - repeat constructor; vm_compute; congruence.
  - done.
  - by rewrite HlO.
  - intros indices Hin. rewrite HlA.
    destruct (Hcases _ Hin) as [->|[->| ->]]; vm_compute; split; congruence.
  - eexists st', _. split; [exact Hrun|].
    split; [rewrite Hh; apply lookup_insert_eq|]. split; [|split].
    + rewrite HlO. cbn [seq fmap list_fmap lookup list_lookup].
      f_equal. exact HA0.
    + replace (Z.to_nat (location_exact [2147483647] 2 (unravel [3] (Z.of_nat 2))))
        with (S N); [exact HAlast|].
      change (location_exact [2147483647] 2 (unravel [3] (Z.of_nat 2)))
        with 4294967296. lia.
    + vm_compute. congruence.
Qed.

(** Claim C2 as stated fails where a product [strides[j] * idx[j]] leaves
    the range of [int]: for the shape [[3]], the stride [2^31 - 1], the
    offset 2 and an [a] of [2^32 + 1] elements, the locations
    [2], [2^31 + 1] and [2^32] all lie inside [a], and [Compact] stores in
    [out[2]] the element [a[0]], which is 5, where [a[2^32]] is 2. *)
Lemma Compact_reads_a_wrapped_location :
  let A := f32 5 :: replicate (Z.to_nat 4294967295) (f32 1) ++ [f32 2] in
  let O := replicate 3 (f32 0) in
  [3] ≠ [] ∧ Forall axis [3] ∧ length [2147483647] = length [3]
  ∧ Z.of_nat (length O) = product [3]
  ∧ (∀ indices, in_shape [3] indices →
       0 ≤ location_exact [2147483647] 2 indices < Z.of_nat (length A))
  ∧ ∃ st' O',
      Compact 0%nat 1%nat [3] [2147483647] 2 (mem3 A O []) = Some (tt, st')
      ∧ heap st' !! 1%nat = Some O'
      ∧ O' !! 2%nat = Some (f32 5)
      ∧ A !! Z.to_nat (location_exact [2147483647] 2 (unravel [3] (Z.of_nat 2)))
        = Some (f32 2)
      ∧ f32 5 ≠ f32 2.
Proof.
  exact (Compact_int_product_wraps (Z.to_nat 4294967295) (replicate 3 (f32 0))
           (Z2Nat.id 4294967295 ltac:(discriminate)) eq_refl).
Qed.

(** ** Reductions *)

(** The strided loop runs [N] times when [hi = N * step] fits a [size_t]. *)
Lemma for_step_inv {L} (I : nat → L → state → Prop) (N : nat) fuel hi step
    (body : Z → nat → L → M L) :
  0 < step → hi = Z.of_nat N * step → hi < 2 ^ 64 →
  (∀ c l st, (c < N)%nat → I c l st →
     ∃ l' st', body (Z.of_nat c * step) c l st = Some (l', st') ∧ I (S c) l' st') →
  ∀ k c l st, (c + k = N)%nat → (k ≤ fuel)%nat → I c l st →
  ∃ l' st', for_step fuel hi step body (Z.of_nat c * step) c l st = Some (l', st')
            ∧ I N l' st'.
Proof.
  intros Hstep Hhi Hfit Hbody k. revert fuel.
  induction k as [|k IH]; intros fuel c l st Hck Hfuel HI.
  - assert (c = N) by lia. subst c.
    exists l, st. split; [|done].
    destruct fuel; cbn [for_step]; rewrite bool_decide_false by lia; done.
  - destruct fuel as [|fuel]; [lia|].
    cbn [for_step]. rewrite bool_decide_true by nia.
    destruct (Hbody c l st) as (l1 & st1 & Hb & HI1); [lia|done|].
    rewrite (bind_Some _ _ _ _ _ Hb).
    replace (u64 (Z.of_nat c * step + step)) with (Z.of_nat (S c) * step)
      by (rewrite u64_id; nia).
    apply IH; [lia|lia|done].
Qed.

(** A loop that folds the elements [lo .. lo + n - 1] of an array. *)
Lemma fold_loads (g : scalar_t → scalar_t → scalar_t) a A (lo : Z) (n : nat) init st :
  heap st !! a = Some A → 0 ≤ lo → lo + Z.of_nat n ≤ Z.of_nat (length A) →
  ∃ st', for_range lo (lo + Z.of_nat n)
           (λ j acc, v ← load a j; mret (g acc v)) init st
         = Some (foldl g init (take n (drop (Z.to_nat lo) A)), st')
         ∧ heap st' = heap st.
Proof.
  intros Ha Hlo Hhi. unfold for_range.
  replace (Z.to_nat (lo + Z.of_nat n - lo)) with n by lia.
  destruct (for_inv
    (λ t acc st', heap st' = heap st
                  ∧ acc = foldl g init (take t (drop (Z.to_nat lo) A)))
    n (λ t acc, v ← load a (lo + Z.of_nat t); mret (g acc v)) init st)
    as (acc & st' & Hrun & Hh & ->).
  - by rewrite take_0.
  - intros t acc st1 Ht [Hh ->].
    destruct (lookup_lt_is_Some_2 A (Z.to_nat lo + t)) as [v Hv]; [lia|].
    exists (g (foldl g init (take t (drop (Z.to_nat lo) A))) v). eexists. split.
    + erewrite bind_Some; [done|].
      eapply load_run; [by rewrite Hh|].
      apply vget_Some; [lia|]. by replace (Z.to_nat (lo + Z.of_nat t))
        with (Z.to_nat lo + t)%nat by lia.
    + cbn [heap]. split; [done|].
      assert (Hd : drop (Z.to_nat lo) A !! t = Some v) by (by rewrite lookup_drop).
      by rewrite (take_S_r _ _ _ Hd), foldl_app.
  - by exists st'.
Qed.

Lemma run_cons A rs c x :
  A !! (c * rs)%nat = Some x → (0 < rs)%nat →
  run A rs c = x :: take (rs - 1) (drop (S (c * rs)) A).
Proof.
  intros Hx Hrs. unfold run.
  rewrite (drop_S _ _ _ Hx). destruct rs; [lia|]. simpl. by rewrite Nat.sub_0_r.
Qed.

Lemma reduce_loop_run (g : list scalar_t → scalar_t)
    (body : Z → nat → unit → M unit) a out rs A O st :
  a ≠ out → heap st !! a = Some A → heap st !! out = Some O →
  (0 < rs)%nat → length A = (length O * rs)%nat → Z.of_nat (length A) < 2 ^ 64 →
  (∀ c st1 (l : list scalar_t),
     (c < length O)%nat → heap st1 !! a = Some A → heap st1 !! out = Some l →
     length l = length O →
     ∃ st2, body (Z.of_nat c * Z.of_nat rs) c tt st1 = Some (tt, st2)
            ∧ heap st2 = <[out := <[c := g (run A rs c)]> l]> (heap st1)) →
  ∃ st', for_step (length A) (Z.of_nat (length A)) (Z.of_nat rs) body 0 0%nat tt st
         = Some (tt, st')
         ∧ heap st' = <[out := (λ c, g (run A rs c)) <$> seq 0 (length O)]> (heap st).
Proof.
  intros Hne Ha Ho Hrs Hlen Hfit Hbody.
  set (R := (λ c, g (run A rs c)) <$> seq 0 (length O)).
  assert (HlR : length R = length O) by (unfold R; by rewrite length_fmap, length_seq).
  destruct (for_step_inv
    (λ c (_ : unit) st', heap st' = <[out := take c R ++ drop c O]> (heap st))
    (length O) (length A) (Z.of_nat (length A)) (Z.of_nat rs) body)
    with (k := length O) (c := 0%nat) (l := tt) (st := st)
    as ([] & st' & Hrun & HI); try lia.
  - intros c [] st1 Hc HI.
    destruct (Hbody c st1 (take c R ++ drop c O)) as (st2 & Hb & Hh); try done.
    + by rewrite HI, lookup_insert_ne.
    + by rewrite HI, lookup_insert_eq.
    + rewrite length_app, length_take, length_drop. lia.
    + exists tt, st2. split; [done|].
      rewrite Hh, HI, insert_insert_eq. f_equal. apply insert_take_drop; [lia|].
      unfold R. by rewrite list_lookup_fmap, lookup_seq_lt.
  - nia.
  - simpl. by rewrite drop_0, insert_id.
  - exists st'. split; [done|]. rewrite HI. f_equal.
    rewrite take_ge, drop_ge by lia. by rewrite app_nil_r.
Qed.

Lemma ReduceMax_run a out rs A O st :
  a ≠ out → heap st !! a = Some A → heap st !! out = Some O →
  (0 < rs)%nat → length A = (length O * rs)%nat → Z.of_nat (length A) < 2 ^ 64 →
  ∃ st', ReduceMax a out (Z.of_nat rs) st = Some (tt, st')
         ∧ heap st' = <[out := (λ c, run_max (run A rs c)) <$> seq 0 (length O)]>
                        (heap st).
Proof.
  intros Hne Ha Ho Hrs Hlen Hfit. unfold ReduceMax.
  rewrite (bind_Some _ _ _ _ _ (size_run _ _ _ Ha)).
  apply (reduce_loop_run run_max _ a); try done.
  intros c st1 l Hc Ha1 Ho1 Hl.
  set (i := Z.of_nat c * Z.of_nat rs).
  assert (Hi : Z.to_nat i = (c * rs)%nat) by (unfold i; lia).
  destruct (lookup_lt_is_Some_2 A (c * rs)) as [x Hx]; [nia|].
  erewrite bind_Some;
    [|eapply load_run; [done|apply vget_Some; [unfold i; lia|by rewrite Hi]]].
  rewrite (u64_id (i + 1)), (u64_id (i + Z.of_nat rs)) by (unfold i; nia).
  replace (i + Z.of_nat rs) with (i + 1 + Z.of_nat (rs - 1)) by lia.
  edestruct (fold_loads std_max a A (i + 1) (rs - 1) x) as (st2 & Hfold & Hh2);
    [| |
     |erewrite bind_Some; [|exact Hfold]]; cbn [heap]; [done|unfold i; lia|unfold i; nia|].
  eexists. split.
  - eapply store_run; [by rewrite Hh2|]. apply vset_nat. lia.
  - cbn [heap]. rewrite Hh2. do 2 f_equal.
    rewrite (run_cons _ _ _ _ Hx Hrs). simpl.
    by replace (Z.to_nat (i + 1)) with (S (c * rs)) by lia.
Qed.

Lemma ReduceSum_run a out rs A O st :
  a ≠ out → heap st !! a = Some A → heap st !! out = Some O →
  (0 < rs)%nat → length A = (length O * rs)%nat → Z.of_nat (length A) < 2 ^ 64 →
  ∃ st', ReduceSum a out (Z.of_nat rs) st = Some (tt, st')
         ∧ heap st' = <[out := (λ c, run_sum (run A rs c)) <$> seq 0 (length O)]>
                        (heap st).
Proof.
  intros Hne Ha Ho Hrs Hlen Hfit. unfold ReduceSum.
  rewrite (bind_Some _ _ _ _ _ (size_run _ _ _ Ha)).
  apply (reduce_loop_run run_sum _ a); try done.
  intros c st1 l Hc Ha1 Ho1 Hl.
  set (i := Z.of_nat c * Z.of_nat rs).
  assert (Hi : Z.to_nat i = (c * rs)%nat) by (unfold i; lia).
  rewrite (u64_id (i + Z.of_nat rs)) by (unfold i; nia).
  edestruct (fold_loads fadd a A i rs (f32 0)) as (st2 & Hfold & Hh2);
    [| |
     |erewrite bind_Some; [|exact Hfold]]; [done|unfold i; lia|unfold i; nia|].
  eexists. split.
  - eapply store_run; [by rewrite Hh2|]. apply vset_nat. lia.
  - cbn [heap]. rewrite Hh2, Hi. done.
Qed.

(** Claim C6.  For [reduce_size >= 1] and [a.size = out.size * reduce_size],
    with [out] another array than [a]: [ReduceMax] stores at every position
    [i] of [out] the fold of [std::max] over run [i] of [a], started from the
    first element of the run, and [ReduceSum] stores the sum of the run, added
    from the left to 0.  On [1, 2, 3, 4, 5, 6] with runs of 3, [ReduceSum]
    gives [6, 15] and [ReduceMax] gives [3, 6]. *)
Theorem reductions_fold_the_runs
    (a out : handle) (reduce_size : Z) (A O : list scalar_t) (st : state) :
  a ≠ out → heap st !! a = Some A → heap st !! out = Some O →
  1 ≤ reduce_size →
  Z.of_nat (length A) = Z.of_nat (length O) * reduce_size →
  Z.of_nat (length A) < 2 ^ 64 →
  (∃ st', ReduceMax a out reduce_size st = Some (tt, st')
     ∧ heap st' = <[out := (λ i, run_max (run A (Z.to_nat reduce_size) i))
                            <$> seq 0 (length O)]> (heap st))
  ∧ (∃ st', ReduceSum a out reduce_size st = Some (tt, st')
     ∧ heap st' = <[out := (λ i, run_sum (run A (Z.to_nat reduce_size) i))
                            <$> seq 0 (length O)]> (heap st))
  ∧ (∃ st', ReduceSum 0%nat 1%nat 3
              (mem3 (f32 <$> [1; 2; 3; 4; 5; 6]) (f32 <$> [0; 0]) [])
            = Some (tt, st')
            ∧ heap st' !! 1%nat = Some (f32 <$> [6; 15]))
  ∧ (∃ st', ReduceMax 0%nat 1%nat 3
              (mem3 (f32 <$> [1; 2; 3; 4; 5; 6]) (f32 <$> [0; 0]) [])
            = Some (tt, st')
            ∧ heap st' !! 1%nat = Some (f32 <$> [3; 6])).
Proof.
  intros Hne Ha Ho Hrs Hlen Hfit.
  rewrite <- (Z2Nat.id reduce_size) by lia.
  rewrite Nat2Z.id.
  split; [apply ReduceMax_run; try done; nia|].
  split; [apply ReduceSum_run; try done; nia|].
  split; eexists; (split; vm_compute; reflexivity).
Qed.

Lemma reductions_fold_the_runs_witness :
  ∃ st', ReduceMax 0%nat 1%nat 3
           (mem3 (f32 <$> [1; 2; 3; 4; 5; 6]) (f32 <$> [0; 0]) [])
         = Some (tt, st')
    ∧ heap st' = <[1%nat := (λ i, run_max (run (f32 <$> [1; 2; 3; 4; 5; 6])
                                                 (Z.to_nat 3) i))
                            <$> seq 0 (length (f32 <$> [0; 0]))]>
                   (heap (mem3 (f32 <$> [1; 2; 3; 4; 5; 6]) (f32 <$> [0; 0]) [])).
Proof.
  destruct (reductions_fold_the_runs 0%nat 1%nat 3
              (f32 <$> [1; 2; 3; 4; 5; 6]) (f32 <$> [0; 0])
              (mem3 (f32 <$> [1; 2; 3; 4; 5; 6]) (f32 <$> [0; 0]) []))
    as (H & _).
  - discriminate.
  - reflexivity.
  - reflexivity.
  - lia.
  - reflexivity.
  - reflexivity.
  - exact H.
Defined.

(** ** The micro-kernel *)

Lemma fsum_S t n init : fsum t (S n) init = fadd (fsum t n init) (t n).
Proof. unfold fsum. by rewrite seq_S, foldl_app. Qed.

Lemma fsum_ext t t' n init :
  (∀ k, (k < n)%nat → t k = t' k) → fsum t n init = fsum t' n init.
Proof.
  intros H. induction n as [|n IH]; [done|].
  rewrite !fsum_S, IH, H by (intros; apply H || idtac; lia). done.
Qed.

Lemma rd_nat_lookup (l : list scalar_t) (i : nat) x :
  l !! i = Some x → rd l (Z.of_nat i) = x.
Proof. intros H. unfold rd. by rewrite vget_nat, H. Qed.

Lemma AlignedDot_cell a b out (i j : nat) :
  length a = 64%nat → length b = 64%nat → (i < 8)%nat → (j < 8)%nat →
  (i * 8 + j < length out)%nat →
  ofor (Z.to_nat TILE) (λ k out,
        x ← vget a (u32 (Z.of_nat i * TILE + Z.of_nat k));
        y ← vget b (u32 (Z.of_nat k * TILE + Z.of_nat j));
        o ← vget out (u32 (Z.of_nat i * TILE + Z.of_nat j));
        vset out (u32 (Z.of_nat i * TILE + Z.of_nat j)) (fadd o (fmul x y))) out
  = Some (<[(i * 8 + j)%nat :=
             fsum (tile_term a b i j) 8 (rd out (Z.of_nat (i * 8 + j)))]> out).
Proof.
  intros Hla Hlb Hi Hj Hq.
  set (q := (i * 8 + j)%nat) in *.
  assert (Hu : u32 (Z.of_nat i * TILE + Z.of_nat j) = Z.of_nat q).
  { unfold TILE, q. rewrite u32_id; lia. }
  rewrite Hu.
  destruct (ofor_inv
    (λ k out', out' = <[q := fsum (tile_term a b i j) k (rd out (Z.of_nat q))]> out)
    (Z.to_nat TILE)
    (λ k out,
        x ← vget a (u32 (Z.of_nat i * TILE + Z.of_nat k));
        y ← vget b (u32 (Z.of_nat k * TILE + Z.of_nat j));
        o ← vget out (Z.of_nat q);
        vset out (Z.of_nat q) (fadd o (fmul x y))) out) as (out' & Hrun & ->).
  - destruct (lookup_lt_is_Some_2 out q Hq) as [o Ho].
    unfold fsum. simpl. rewrite (rd_nat_lookup _ _ _ Ho). by rewrite list_insert_id.
  - intros k out1 Hk ->. change (Z.to_nat TILE) with 8%nat in Hk.
    assert (Hua : u32 (Z.of_nat i * TILE + Z.of_nat k) = Z.of_nat (i * 8 + k)).
    { unfold TILE. rewrite u32_id; lia. }
    assert (Hub : u32 (Z.of_nat k * TILE + Z.of_nat j) = Z.of_nat (k * 8 + j)).
    { unfold TILE. rewrite u32_id; lia. }
    rewrite Hua, Hub, !vget_nat.
    destruct (lookup_lt_is_Some_2 a (i * 8 + k)) as [x Hx]; [lia|].
    destruct (lookup_lt_is_Some_2 b (k * 8 + j)) as [y Hy]; [lia|].
    rewrite Hx, Hy. cbn [mbind option_bind].
    rewrite list_lookup_insert_eq by done. cbn [mbind option_bind].
    rewrite vset_nat by (by rewrite length_insert).
    eexists; split; [done|]. rewrite list_insert_insert_eq, fsum_S.
    do 3 f_equal. unfold tile_term.
    replace (Z.of_nat i * TILE + Z.of_nat k) with (Z.of_nat (i * 8 + k))
      by (unfold TILE; lia).
    replace (Z.of_nat k * TILE + Z.of_nat j) with (Z.of_nat (k * 8 + j))
      by (unfold TILE; lia).
    by rewrite (rd_nat_lookup _ _ _ Hx), (rd_nat_lookup _ _ _ Hy).
  - by rewrite Hrun.
Qed.

Lemma AlignedDot_run a b out :
  length a = 64%nat → length b = 64%nat → length out = 64%nat →
  AlignedDot a b out = Some (tile_cell a b out <$> seq 0 64).
Proof.
  intros Hla Hlb Hlo. unfold AlignedDot.
  set (R := tile_cell a b out <$> seq 0 64).
  assert (HlR : length R = length out) by (unfold R; by rewrite length_fmap, length_seq).
  destruct (ofor_inv
    (λ i out', out' = take (i * 8) R ++ drop (i * 8) out)
    (Z.to_nat TILE)
    (λ i out, ofor (Z.to_nat TILE) (λ j out,
       ofor (Z.to_nat TILE) (λ k out,
         x ← vget a (u32 (Z.of_nat i * TILE + Z.of_nat k));
         y ← vget b (u32 (Z.of_nat k * TILE + Z.of_nat j));
         o ← vget out (u32 (Z.of_nat i * TILE + Z.of_nat j));
         vset out (u32 (Z.of_nat i * TILE + Z.of_nat j)) (fadd o (fmul x y)))
       out) out) out) as (out' & Hrun & ->).
  - by rewrite take_0, drop_0.
  - intros i out1 Hi ->. change (Z.to_nat TILE) with 8%nat in Hi.
    destruct (ofor_inv
      (λ j out', out' = take (i * 8 + j) R ++ drop (i * 8 + j) out)
      (Z.to_nat TILE)
      (λ j out,
         ofor (Z.to_nat TILE) (λ k out,
           x ← vget a (u32 (Z.of_nat i * TILE + Z.of_nat k));
           y ← vget b (u32 (Z.of_nat k * TILE + Z.of_nat j));
           o ← vget out (u32 (Z.of_nat i * TILE + Z.of_nat j));
           vset out (u32 (Z.of_nat i * TILE + Z.of_nat j)) (fadd o (fmul x y)))
         out) (take (i * 8) R ++ drop (i * 8) out)) as (out' & Hrun & ->).
    + by rewrite Nat.add_0_r.
    + intros j out2 Hj ->. change (Z.to_nat TILE) with 8%nat in Hj.
      rewrite AlignedDot_cell; try done.
      2: { rewrite length_app, length_take, length_drop. lia. }
      eexists; split; [done|].
      replace (i * 8 + S j)%nat with (S (i * 8 + j)) by lia.
      apply insert_take_drop; [lia|].
      assert (Hcur : rd (take (i * 8 + j) R ++ drop (i * 8 + j) out)
                        (Z.of_nat (i * 8 + j)) = rd out (Z.of_nat (i * 8 + j))).
      { unfold rd. rewrite !vget_nat. by rewrite lookup_take_drop_ge by lia. }
      rewrite Hcur.
      unfold R at 1. rewrite list_lookup_fmap, lookup_seq_lt by lia.
      cbn [fmap option_fmap option_map]. f_equal. unfold tile_cell.
      replace ((0 + (i * 8 + j)) / 8)%nat with i
        by (apply Nat.div_unique with j; lia).
      replace ((0 + (i * 8 + j)) mod 8)%nat with j
        by (apply Nat.mod_unique with i; lia).
      done.
    + exists (take (i * 8 + Z.to_nat TILE) R ++ drop (i * 8 + Z.to_nat TILE) out).
      split; [done|]. change (Z.to_nat TILE) with 8%nat. by replace (S i * 8)%nat with (i * 8 + 8)%nat by lia.
  - rewrite Hrun. f_equal. change (Z.to_nat TILE) with 8%nat.
    rewrite take_ge, drop_ge by lia. by rewrite app_nil_r.
Qed.



(** ** The naive matrix product *)

Lemma length_patch (X : list scalar_t) region f : length (patch X region f) = length X.
Proof. apply length_imap. Qed.

Lemma lookup_patch (X : list scalar_t) region f (r : nat) :
  patch X region f !! r = (λ x, if region r then f r else x) <$> X !! r.
Proof. apply list_lookup_imap. Qed.

Lemma patch_ext (X : list scalar_t) (region region' : nat → bool) (f f' : nat → scalar_t) :
  (∀ (r : nat) x, X !! r = Some x →
     (if region r then f r else x) = (if region' r then f' r else x)) →
  patch X region f = patch X region' f'.
Proof.
  intros H. apply list_eq. intros r. rewrite !lookup_patch.
  destruct (X !! r) as [x|] eqn:E; [|done]. simpl. f_equal. by apply H.
Qed.

Lemma patch_none (X : list scalar_t) f : patch X (λ _, false) f = X.
Proof.
  apply list_eq. intros r. rewrite lookup_patch. by destruct (X !! r).
Qed.

Lemma patch_insert (X : list scalar_t) region f (q : nat) :
  (q < length X)%nat →
  <[q := f q]> (patch X region f) = patch X (λ r, region r || bool_decide (r = q)) f.
Proof.
  intros Hq. apply list_eq. intros r. rewrite lookup_patch.
  destruct (decide (r = q)) as [->|Hne].
  - rewrite list_lookup_insert_eq by (by rewrite length_patch).
    destruct (lookup_lt_is_Some_2 X q Hq) as [x ->]. simpl.
    rewrite bool_decide_true by done. by rewrite orb_true_r.
  - rewrite list_lookup_insert_ne by done. rewrite lookup_patch.
    rewrite bool_decide_false by done. by rewrite orb_false_r.
Qed.

Lemma patch_patch (X : list scalar_t) r1 f1 r2 f2 :
  patch (patch X r1 f1) r2 f2
  = patch X (λ r, r1 r || r2 r) (λ r, if r2 r then f2 r else f1 r).
Proof.
  apply list_eq. intros r. rewrite !lookup_patch.
  destruct (X !! r) as [x|]; [|done]. simpl. f_equal.
  by destruct (r1 r), (r2 r).
Qed.

(** One cell of [Matmul]: the store of 0 and the loop over [k]. *)
Lemma Matmul_cell a b out A B X st (n p : Z) (i j q : nat) :
  a ≠ out → b ≠ out →
  heap st !! a = Some A → heap st !! b = Some B → heap st !! out = Some X →
  u32 (Z.of_nat i * p + Z.of_nat j) = Z.of_nat q → (q < length X)%nat →
  (∀ k, (k < Z.to_nat n)%nat →
        u32 (Z.of_nat i * n + Z.of_nat k) < Z.of_nat (length A)
        ∧ u32 (Z.of_nat k * p + Z.of_nat j) < Z.of_nat (length B)) →
  ∃ st',
    (_ ← store out (u32 (Z.of_nat i * p + Z.of_nat j)) (f32 0);
     for_ (Z.to_nat n) (λ k _,
        x ← load a (u32 (Z.of_nat i * n + Z.of_nat k));
        y ← load b (u32 (Z.of_nat k * p + Z.of_nat j));
        o ← load out (u32 (Z.of_nat i * p + Z.of_nat j));
        store out (u32 (Z.of_nat i * p + Z.of_nat j)) (fadd o (fmul x y))) tt) st
    = Some (tt, st')
    ∧ heap st' = <[out := <[q := dot32 A B n p i j]> X]> (heap st).
Proof.
  intros Hao Hbo Ha Hb Ho Hq Hlt Hin. rewrite Hq.
  erewrite bind_Some; [|eapply store_run; [done|by apply vset_nat]].
  set (t := λ k, fmul (rd A (u32 (Z.of_nat i * n + Z.of_nat k)))
                      (rd B (u32 (Z.of_nat k * p + Z.of_nat j)))).
  destruct (for_inv
    (λ k (_ : unit) st', heap st' = <[out := <[q := fsum t k (f32 0)]> X]> (heap st))
    (Z.to_nat n)
    (λ k _,
        x ← load a (u32 (Z.of_nat i * n + Z.of_nat k));
        y ← load b (u32 (Z.of_nat k * p + Z.of_nat j));
        o ← load out (Z.of_nat q);
        store out (Z.of_nat q) (fadd o (fmul x y))) tt
    (State (<[out := <[q := f32 0]> X]> (heap st)) (trace st ++ [Wr out (Z.of_nat q) (f32 0)])))
    as ([] & st' & Hrun & HI).
  - done.
  - intros k [] st1 Hk HI. destruct (Hin k Hk) as [HkA HkB].
    pose proof (u32_range (Z.of_nat i * n + Z.of_nat k)) as HrA.
    pose proof (u32_range (Z.of_nat k * p + Z.of_nat j)) as HrB.
    exists tt. eexists. split.
    + erewrite bind_Some;
        [|eapply load_run; [by rewrite HI, lookup_insert_ne|apply rd_lookup; lia]].
      erewrite bind_Some;
        [|eapply load_run; cbn [heap]; [by rewrite HI, lookup_insert_ne|apply rd_lookup; lia]].
      erewrite bind_Some;
        [|eapply load_run; cbn [heap];
          [by rewrite HI, lookup_insert_eq
          |rewrite vget_nat; by apply list_lookup_insert_eq]].
      eapply store_run; cbn [heap]; [by rewrite HI, lookup_insert_eq|].
      apply vset_nat. by rewrite length_insert.
    + cbn [heap]. rewrite HI, insert_insert_eq, list_insert_insert_eq.
      by rewrite fsum_S.
  - by exists st'.
Qed.

(** One row of [Matmul] whose cells are the positions [β .. β + p - 1]. *)
Lemma Matmul_row a b out A B X st (n p : Z) (i β : nat) :
  a ≠ out → b ≠ out →
  heap st !! a = Some A → heap st !! b = Some B → heap st !! out = Some X →
  (∀ j, (j < Z.to_nat p)%nat →
        u32 (Z.of_nat i * p + Z.of_nat j) = Z.of_nat (β + j)) →
  (β + Z.to_nat p ≤ length X)%nat →
  (∀ j k, (j < Z.to_nat p)%nat → (k < Z.to_nat n)%nat →
        u32 (Z.of_nat i * n + Z.of_nat k) < Z.of_nat (length A)
        ∧ u32 (Z.of_nat k * p + Z.of_nat j) < Z.of_nat (length B)) →
  ∃ st',
    for_ (Z.to_nat p) (λ j _,
      _ ← store out (u32 (Z.of_nat i * p + Z.of_nat j)) (f32 0);
      for_ (Z.to_nat n) (λ k _,
        x ← load a (u32 (Z.of_nat i * n + Z.of_nat k));
        y ← load b (u32 (Z.of_nat k * p + Z.of_nat j));
        o ← load out (u32 (Z.of_nat i * p + Z.of_nat j));
        store out (u32 (Z.of_nat i * p + Z.of_nat j)) (fadd o (fmul x y))) tt) tt st
    = Some (tt, st')
    ∧ heap st' = <[out := patch X (λ r, bool_decide (β ≤ r < β + Z.to_nat p)%nat)
                                  (λ r, dot32 A B n p i (r - β))]> (heap st).
Proof.
  intros Hao Hbo Ha Hb Ho Hq Hlen Hin.
  set (f := λ r : nat, dot32 A B n p i (r - β)).
  destruct (for_inv
    (λ j (_ : unit) st',
       heap st' = <[out := patch X (λ r, bool_decide (β ≤ r < β + j)%nat) f]> (heap st))
    (Z.to_nat p)
    (λ j _,
      _ ← store out (u32 (Z.of_nat i * p + Z.of_nat j)) (f32 0);
      for_ (Z.to_nat n) (λ k _,
        x ← load a (u32 (Z.of_nat i * n + Z.of_nat k));
        y ← load b (u32 (Z.of_nat k * p + Z.of_nat j));
        o ← load out (u32 (Z.of_nat i * p + Z.of_nat j));
        store out (u32 (Z.of_nat i * p + Z.of_nat j)) (fadd o (fmul x y))) tt) tt st)
    as ([] & st' & Hrun & HI).
  - rewrite (patch_ext _ _ (λ _, false) _ f), patch_none, insert_id; [done|done|].
    intros r x _. rewrite bool_decide_false; [done|lia].
  - intros j [] st1 Hj HI.
    destruct (Matmul_cell a b out A B
                (patch X (λ r, bool_decide (β ≤ r < β + j)%nat) f) st1
                n p i j (β + j)) as (st2 & Hcell & Hh); try done.
    + by rewrite HI, lookup_insert_ne.
    + by rewrite HI, lookup_insert_ne.
    + by rewrite HI, lookup_insert_eq.
    + by apply Hq.
    + rewrite length_patch. lia.
    + intros k Hk. by apply Hin.
    + exists tt, st2. split; [done|].
      rewrite Hh, HI, insert_insert_eq. f_equal.
      replace (dot32 A B n p i j) with (f (β + j)%nat)
        by (unfold f; f_equal; lia).
      rewrite patch_insert by lia. apply patch_ext. intros r x _.
      destruct (decide (r = (β + j)%nat)) as [->|Hne].
      * rewrite (bool_decide_true (_ = _)) by done. rewrite orb_true_r.
        by rewrite bool_decide_true by lia.
      * rewrite (bool_decide_false (r = _)) by done. rewrite orb_false_r.
        destruct (decide (β ≤ r < β + j)%nat).
        -- by rewrite !bool_decide_true by lia.
        -- by rewrite !bool_decide_false by lia.
  - by exists st'.
Qed.

(** The first [m] rows of [Matmul] when no index of [out] wraps. *)
Lemma Matmul_run a b out A B O st (m n p : Z) :
  a ≠ out → b ≠ out →
  heap st !! a = Some A → heap st !! b = Some B → heap st !! out = Some O →
  0 ≤ m → 0 ≤ p → m * p ≤ 2 ^ 32 → m * p ≤ Z.of_nat (length O) →
  (∀ i j k, (i < Z.to_nat m)%nat → (j < Z.to_nat p)%nat → (k < Z.to_nat n)%nat →
        u32 (Z.of_nat i * n + Z.of_nat k) < Z.of_nat (length A)
        ∧ u32 (Z.of_nat k * p + Z.of_nat j) < Z.of_nat (length B)) →
  ∃ st', Matmul a b out m n p st = Some (tt, st')
    ∧ heap st' = <[out := patch O (λ r, bool_decide (r < Z.to_nat m * Z.to_nat p)%nat)
                             (λ r, dot32 A B n p (r / Z.to_nat p) (r mod Z.to_nat p))]>
                   (heap st).
Proof.
  intros Hao Hbo Ha Hb Ho Hm Hp Hfit Hlen Hin. unfold Matmul.
  set (P := Z.to_nat p).
  set (f := λ r : nat, dot32 A B n p (r / P) (r mod P)).
  destruct (for_inv
    (λ i (_ : unit) st',
       heap st' = <[out := patch O (λ r, bool_decide (r < i * P)%nat) f]> (heap st))
    (Z.to_nat m)
    (λ i _,
      for_ (Z.to_nat p) (λ j _,
        _ ← store out (u32 (Z.of_nat i * p + Z.of_nat j)) (f32 0);
        for_ (Z.to_nat n) (λ k _,
          x ← load a (u32 (Z.of_nat i * n + Z.of_nat k));
          y ← load b (u32 (Z.of_nat k * p + Z.of_nat j));
          o ← load out (u32 (Z.of_nat i * p + Z.of_nat j));
          store out (u32 (Z.of_nat i * p + Z.of_nat j)) (fadd o (fmul x y))) tt) tt)
    tt st) as ([] & st' & Hrun & HI).
  - rewrite (patch_ext _ _ (λ _, false) _ f), patch_none, insert_id; [done|done|].
    intros r x _. rewrite bool_decide_false; [done|lia].
  - intros i [] st1 Hi HI.
    destruct (Matmul_row a b out A B
                (patch O (λ r, bool_decide (r < i * P)%nat) f) st1 n p i (i * P))
      as (st2 & Hrow & Hh); try done.
    + by rewrite HI, lookup_insert_ne.
    + by rewrite HI, lookup_insert_ne.
    + by rewrite HI, lookup_insert_eq.
    + intros j Hj. fold P in Hj. rewrite u32_id; [lia|]. split; [lia|]. nia.
    + rewrite length_patch. fold P. nia.
    + intros j k Hj Hk. by apply Hin.
    + exists tt, st2. split; [done|].
      rewrite Hh, HI, insert_insert_eq. f_equal. fold P.
      rewrite patch_patch. apply patch_ext. intros r x _.
      destruct (decide (i * P ≤ r < i * P + P)%nat) as [Hr|Hr].
      * rewrite (bool_decide_true (_ ≤ r < _)%nat) by done.
        rewrite orb_true_r, bool_decide_true by lia.
        unfold f. f_equal.
        -- apply Nat.div_unique with (r - i * P)%nat; lia.
        -- apply Nat.mod_unique with i; lia.
      * rewrite (bool_decide_false (_ ≤ r < _)%nat) by done.
        rewrite orb_false_r.
        destruct (decide (r < i * P)%nat).
        -- by rewrite !bool_decide_true by lia.
        -- by rewrite !bool_decide_false by lia.
  - by exists st'.
Qed.

Lemma dot32_dot A B (n p : Z) (i j : nat) :
  (∀ k, (k < Z.to_nat n)%nat →
        0 ≤ Z.of_nat i * n + Z.of_nat k < 2 ^ 32
        ∧ 0 ≤ Z.of_nat k * p + Z.of_nat j < 2 ^ 32) →
  dot32 A B n p i j = dot A B n p i j.
Proof.
  intros H. unfold dot32, dot. apply fsum_ext. intros k Hk.
  destruct (H k Hk) as [H1 H2]. by rewrite !u32_id.
Qed.

Lemma Matmul_cells a b out (m n p : Z) A B O st :
  a ≠ out → b ≠ out →
  heap st !! a = Some A → heap st !! b = Some B → heap st !! out = Some O →
  1 ≤ m → 1 ≤ n → 1 ≤ p →
  Z.of_nat (length A) = m * n → Z.of_nat (length B) = n * p →
  Z.of_nat (length O) = m * p →
  m * n ≤ 2 ^ 32 → n * p ≤ 2 ^ 32 → m * p ≤ 2 ^ 32 →
  ∃ st' O',
      Matmul a b out m n p st = Some (tt, st')
      ∧ heap st' = <[out := O']> (heap st)
      ∧ length O' = length O
      ∧ ∀ i j, (Z.of_nat i < m) → (Z.of_nat j < p) →
          O' !! Z.to_nat (Z.of_nat i * p + Z.of_nat j) = Some (dot A B n p i j).
Proof.
  intros Hao Hbo Ha Hb Ho Hm Hn Hp HlA HlB HlO Hmn Hnp Hmp.
  destruct (Matmul_run a b out A B O st m n p) as (st' & Hrun & Hh); try done; try lia.
  { intros i j k Hi Hj Hk. rewrite !u32_id; nia. }
  eexists st', _. split; [done|]. split; [done|].
  split; [by rewrite length_patch|].
  intros i j Hi Hj. rewrite lookup_patch.
  destruct (lookup_lt_is_Some_2 O (Z.to_nat (Z.of_nat i * p + Z.of_nat j)))
    as [x ->]; [nia|].
  cbn [fmap option_fmap option_map]. f_equal.
  rewrite bool_decide_true by nia.
  replace (Z.to_nat (Z.of_nat i * p + Z.of_nat j))
    with (Z.to_nat p * i + j)%nat by nia.
  replace ((Z.to_nat p * i + j) / Z.to_nat p)%nat with i
    by (apply Nat.div_unique with j; lia).
  replace ((Z.to_nat p * i + j) mod Z.to_nat p)%nat with j
    by (apply Nat.mod_unique with i; lia).
  apply dot32_dot. intros k Hk. nia.
Qed.

(** Claim C5, amended.  For [m, n, p >= 1] whose products [m * n], [n * p]
    and [m * p] do not exceed 2^32, a row-major [m x n] array [a], a
    row-major [n x p] array [b] and another array [out] of [m * p] elements,
    [Matmul] stores in every cell [out[i * p + j]] the products
    [a[i * n + k] * b[k * p + j]] added to 0 from left to right for
    [k = 0 .. n - 1]; nothing of the old contents of [out] remains.  The
    product of [[1, 2], [3, 4]] and [[5, 6], [7, 8]] is
    [[19, 22], [43, 50]]. *)
Theorem Matmul_computes_the_product
    (a b out : handle) (m n p : Z) (A B O : list scalar_t) (st : state) :
  a ≠ out → b ≠ out →
  heap st !! a = Some A → heap st !! b = Some B → heap st !! out = Some O →
  1 ≤ m → 1 ≤ n → 1 ≤ p →
  Z.of_nat (length A) = m * n → Z.of_nat (length B) = n * p →
  Z.of_nat (length O) = m * p →
  m * n ≤ 2 ^ 32 → n * p ≤ 2 ^ 32 → m * p ≤ 2 ^ 32 →
  (∃ st' O',
      Matmul a b out m n p st = Some (tt, st')
      ∧ heap st' = <[out := O']> (heap st)
      ∧ length O' = length O
      ∧ ∀ i j, (Z.of_nat i < m) → (Z.of_nat j < p) →
          O' !! Z.to_nat (Z.of_nat i * p + Z.of_nat j) = Some (dot A B n p i j))
  ∧ (∃ st', Matmul 0%nat 1%nat 2%nat 2 2 2
              (mem3 (f32 <$> [1; 2; 3; 4]) (f32 <$> [5; 6; 7; 8]) (f32 <$> [9; 9; 9; 9]))
            = Some (tt, st')
            ∧ heap st' !! 2%nat = Some (f32 <$> [19; 22; 43; 50])).
Proof.
  intros Hao Hbo Ha Hb Ho Hm Hn Hp HlA HlB HlO Hmn Hnp Hmp. split.
  - by apply Matmul_cells.
  - eexists. split; vm_compute; reflexivity.
Qed.

Lemma Matmul_computes_the_product_witness :
  ∃ st' O',
    Matmul 0%nat 1%nat 2%nat 2 2 2
      (mem3 (f32 <$> [1; 2; 3; 4]) (f32 <$> [5; 6; 7; 8]) (f32 <$> [9; 9; 9; 9]))
    = Some (tt, st')
    ∧ heap st' = <[2%nat := O']>
        (heap (mem3 (f32 <$> [1; 2; 3; 4]) (f32 <$> [5; 6; 7; 8]) (f32 <$> [9; 9; 9; 9])))
    ∧ length O' = length (f32 <$> [9; 9; 9; 9])
    ∧ ∀ i j, (Z.of_nat i < 2) → (Z.of_nat j < 2) →
        O' !! Z.to_nat (Z.of_nat i * 2 + Z.of_nat j)
        = Some (dot (f32 <$> [1; 2; 3; 4]) (f32 <$> [5; 6; 7; 8]) 2 2 i j).
Proof.
  destruct (Matmul_computes_the_product 0%nat 1%nat 2%nat 2 2 2
              (f32 <$> [1; 2; 3; 4]) (f32 <$> [5; 6; 7; 8]) (f32 <$> [9; 9; 9; 9])
              (mem3 (f32 <$> [1; 2; 3; 4]) (f32 <$> [5; 6; 7; 8]) (f32 <$> [9; 9; 9; 9])))
    as (H & _); [discriminate|discriminate|reflexivity|reflexivity|reflexivity
                |lia|lia|lia|reflexivity|reflexivity|reflexivity|lia|lia|lia|exact H].
Defined.

(** ** The naive product beyond 32-bit indices *)

Lemma for_S {L} n (body : nat → L → M L) l st :
  for_ (S n) body l st
  = match for_ n body l st with
    | Some (l', st') => body n l' st'
    | None => None
    end.
Proof. reflexivity. Qed.

(** When [N * p = 2^32], row [N] of [Matmul] is written over row 0. *)
Lemma Matmul_last_row_wraps a b out A B O st (N : nat) (p : Z) :
  a ≠ out → b ≠ out →
  heap st !! a = Some A → heap st !! b = Some B → heap st !! out = Some O →
  1 < p → Z.of_nat N * p = 2 ^ 32 →
  Z.of_nat (length A) = Z.of_nat N + 1 → Z.of_nat (length B) = p →
  Z.of_nat (length O) = (Z.of_nat N + 1) * p →
  ∃ st' O', Matmul a b out (Z.of_nat N + 1) 1 p st = Some (tt, st')
    ∧ heap st' !! out = Some O'
    ∧ ∀ j, (j < Z.to_nat p)%nat → O' !! j = Some (dot32 A B 1 p N j).
Proof.
  intros Hao Hbo Ha Hb Ho Hp HNp HlA HlB HlO.
  assert (HN : 0 < Z.of_nat N < 2 ^ 32) by nia.
  assert (Hp' : p ≤ 2 ^ 32) by nia.
  assert (Hbound : ∀ i j k : nat, (i < S N)%nat → (j < Z.to_nat p)%nat →
            (k < Z.to_nat 1)%nat →
            u32 (Z.of_nat i * 1 + Z.of_nat k) < Z.of_nat (length A)
            ∧ u32 (Z.of_nat k * p + Z.of_nat j) < Z.of_nat (length B)).
  { intros i j k Hi Hj Hk. change (Z.to_nat 1) with 1%nat in Hk.
    assert (k = 0%nat) by lia. subst k. rewrite !u32_id; lia. }
  destruct (Matmul_run a b out A B O st (Z.of_nat N) 1 p)
    as (st1 & Hrun1 & Hh1); try done; try lia.
  { intros i j k Hi Hj Hk. apply Hbound; lia. }
  set (X := patch O (λ r, bool_decide (r < Z.to_nat (Z.of_nat N) * Z.to_nat p)%nat)
              (λ r, dot32 A B 1 p (r / Z.to_nat p) (r mod Z.to_nat p))) in *.
  destruct (Matmul_row a b out A B X st1 1 p N 0)
    as (st2 & Hrun2 & Hh2); try done.
  - by rewrite Hh1, lookup_insert_ne.
  - by rewrite Hh1, lookup_insert_ne.
  - by rewrite Hh1, lookup_insert_eq.
  - intros j Hj. unfold u32. rewrite HNp.
    rewrite <- (Z.mul_1_l (2 ^ 32)) at 1.
    rewrite Z.add_comm, Z.mod_add by lia. rewrite Z.mod_small; lia.
  - unfold X. rewrite length_patch. nia.
  - intros j k Hj Hk. apply Hbound; lia.
  - exists st2. eexists. split; [|split].
    + unfold Matmul in *. replace (Z.to_nat (Z.of_nat N + 1)) with (S N) by lia.
      rewrite for_S. rewrite Nat2Z.id in Hrun1. rewrite Hrun1. exact Hrun2.
    + rewrite Hh2. apply lookup_insert_eq.
    + intros j Hj. rewrite lookup_patch.
      destruct (lookup_lt_is_Some_2 X j) as [x ->];
        [unfold X; rewrite length_patch; nia|].
      cbn [fmap option_fmap option_map]. rewrite bool_decide_true by lia.
      by rewrite Nat.sub_0_r.
Qed.

(** An [(N + 1) x 1] matrix of ones that ends with a 2, times a [1 x p]
    matrix of ones, for [N * p = 2^32]. *)
Lemma Matmul_wraps (N M : nat) (O : list scalar_t) :
  Z.of_nat N = 65536 → Z.of_nat M = 65536 →
  Z.of_nat (length O) = 65537 * 65536 →
  Z.of_nat (length (replicate N (f32 1) ++ [f32 2])) = 65537 * 1
  ∧ Z.of_nat (length (replicate M (f32 1))) = 1 * 65536
  ∧ Z.of_nat (length O) = 65537 * 65536
  ∧ dot (replicate N (f32 1) ++ [f32 2]) (replicate M (f32 1)) 1 65536 0 0 = f32 1
  ∧ ∃ st' O',
      Matmul 0%nat 1%nat 2%nat 65537 1 65536
        (mem3 (replicate N (f32 1) ++ [f32 2]) (replicate M (f32 1)) O) = Some (tt, st')
      ∧ heap st' !! 2%nat = Some O'
      ∧ O' !! Z.to_nat (0 * 65536 + 0) = Some (f32 2)
      ∧ f32 2 ≠ f32 1.
Proof.
  intros HN HM HlO.
  set (A := replicate N (f32 1) ++ [f32 2]). set (B := replicate M (f32 1)).
  assert (HlA : Z.of_nat (length A) = 65536 + 1).
  { unfold A. rewrite length_app, length_replicate. cbn [length]. lia. }
  assert (HlB : Z.of_nat (length B) = 65536).
  { unfold B. rewrite length_replicate. lia. }
  assert (HA0 : rd A 0 = f32 1).
  { unfold A, rd, vget. rewrite bool_decide_true by lia.
    rewrite lookup_app_l by (rewrite length_replicate; lia).
    rewrite lookup_replicate_2 by lia. done. }
  assert (HAN : rd A 65536 = f32 2).
  { unfold A, rd, vget. rewrite bool_decide_true by lia.
    replace (Z.to_nat 65536) with N by lia.
    rewrite lookup_app_r by (rewrite length_replicate; lia).
    rewrite length_replicate, Nat.sub_diag. done. }
  assert (HB0 : rd B 0 = f32 1).
  { unfold B, rd, vget. rewrite bool_decide_true by lia.
    rewrite lookup_replicate_2 by lia. done. }
  clearbody A B.
  split; [lia|]. split; [lia|]. split; [lia|]. split.
  { unfold dot, fsum. change (Z.to_nat 1) with 1%nat. cbn [seq foldl].
    change (Z.of_nat 0) with 0. rewrite !Z.mul_0_l, !Z.add_0_l.
    rewrite HA0, HB0. vm_compute. reflexivity. }
  destruct (Matmul_last_row_wraps 0%nat 1%nat 2%nat A B O (mem3 A B O) N 65536)
    as (st' & O' & Hrun & Hh & Hcells).
  { lia. }
  { lia. }
  { unfold mem3. cbn [heap]. apply lookup_insert_eq. }
  { unfold mem3. cbn [heap]. rewrite lookup_insert_ne by lia. apply lookup_insert_eq. }
  { unfold mem3. cbn [heap]. rewrite !lookup_insert_ne by lia. apply lookup_insert_eq. }
  { lia. }
  { lia. }
  { lia. }
  { exact HlB. }
  { lia. }
  exists st', O'. rewrite HN in Hrun.
  split; [exact Hrun|]. split; [exact Hh|]. split; [|vm_compute; congruence].
  change (Z.to_nat (0 * 65536 + 0)) with 0%nat.
  rewrite Hcells by (apply Nat2Z.inj_lt; rewrite Z2Nat.id; lia). f_equal.
  unfold dot32, fsum. change (Z.to_nat 1) with 1%nat. cbn [seq foldl].
  change (Z.of_nat 0) with 0. rewrite Z.mul_1_r, Z.add_0_r, Z.mul_0_l, Z.add_0_l.
  rewrite HN, !u32_id by lia. rewrite HAN, HB0. vm_compute. reflexivity.
Qed.

(** Claim C5 as stated fails for matrices of more than 2^32 cells: for
    [m = 65537], [n = 1] and [p = 65536] the index [65536 * p] of cell
    [(65536, 0)] is 0 in [uint32_t] arithmetic, and [out[0]] ends with
    [a[65536] * b[0] = 2] instead of [a[0] * b[0] = 1]. *)
Lemma Matmul_wraps_beyond_uint32 :
  let A := replicate (Z.to_nat 65536) (f32 1) ++ [f32 2] in
  let B := replicate (Z.to_nat 65536) (f32 1) in
  let O := replicate (Z.to_nat (65537 * 65536)) (f32 0) in
  Z.of_nat (length A) = 65537 * 1
  ∧ Z.of_nat (length B) = 1 * 65536
  ∧ Z.of_nat (length O) = 65537 * 65536
  ∧ dot A B 1 65536 0 0 = f32 1
  ∧ ∃ st' O', Matmul 0%nat 1%nat 2%nat 65537 1 65536 (mem3 A B O) = Some (tt, st')
      ∧ heap st' !! 2%nat = Some O'
      ∧ O' !! Z.to_nat (0 * 65536 + 0) = Some (f32 2)
      ∧ f32 2 ≠ f32 1.
Proof.
  exact (Matmul_wraps (Z.to_nat 65536) (Z.to_nat 65536)
           (replicate (Z.to_nat (65537 * 65536)) (f32 0))
           (Z2Nat.id 65536 ltac:(discriminate))
           (Z2Nat.id 65536 ltac:(discriminate))
           (eq_trans (f_equal Z.of_nat (length_replicate _ _))
                     (Z2Nat.id (65537 * 65536) ltac:(discriminate)))).
Qed.

(** ** The tiled matrix product *)

Lemma length_tile_at A base : length (tile_at A base) = 64%nat.
Proof. unfold tile_at. by rewrite length_fmap, length_seq. Qed.

Lemma length_block_acc A B n p i j K : length (block_acc A B n p i j K) = 64%nat.
Proof.
  destruct K; cbn [block_acc]; [by rewrite length_replicate|].
  by rewrite length_fmap, length_seq.
Qed.

(** The two copy loops of [MatmulTiled] fill [tile_a] and [tile_b]. *)
Lemma load_tiles a b A B st (abase bbase : Z) (ta tb : list scalar_t) :
  heap st !! a = Some A → heap st !! b = Some B →
  length ta = 64%nat → length tb = 64%nat →
  (∀ q, (q < 64)%nat →
        u32 (abase + Z.of_nat q) < Z.of_nat (length A)
        ∧ u32 (bbase + Z.of_nat q) < Z.of_nat (length B)) →
  ∃ st',
    for_ (Z.to_nat TILE) (λ ii tiles,
      for_ (Z.to_nat TILE) (λ jj '(tile_a, tile_b),
        x ← load a (u32 (abase + Z.of_nat ii * TILE + Z.of_nat jj));
        tile_a ← lift (vset tile_a (u32 (Z.of_nat ii * TILE + Z.of_nat jj)) x);
        y ← load b (u32 (bbase + Z.of_nat ii * TILE + Z.of_nat jj));
        tile_b ← lift (vset tile_b (u32 (Z.of_nat ii * TILE + Z.of_nat jj)) y);
        mret (tile_a, tile_b)) tiles) (ta, tb) st
    = Some ((tile_at A abase, tile_at B bbase), st')
    ∧ heap st' = heap st.
Proof.
  intros Ha Hb Hla Hlb Hin.
  set (RA := tile_at A abase). set (RB := tile_at B bbase).
  assert (HlRA : length RA = 64%nat) by apply length_tile_at.
  assert (HlRB : length RB = 64%nat) by apply length_tile_at.
  set (body := λ (ii jj : nat) (tiles : list scalar_t * list scalar_t),
        let '(tile_a, tile_b) := tiles in
        x ← load a (u32 (abase + Z.of_nat ii * TILE + Z.of_nat jj));
        tile_a ← lift (vset tile_a (u32 (Z.of_nat ii * TILE + Z.of_nat jj)) x);
        y ← load b (u32 (bbase + Z.of_nat ii * TILE + Z.of_nat jj));
        tile_b ← lift (vset tile_b (u32 (Z.of_nat ii * TILE + Z.of_nat jj)) y);
        mret (tile_a, tile_b)).
  set (I := λ (c : nat) (tiles : list scalar_t * list scalar_t) (st' : state),
         heap st' = heap st
         ∧ tiles = (take c RA ++ drop c ta, take c RB ++ drop c tb)).
  destruct (for_inv (λ ii, I (ii * 8)%nat) (Z.to_nat TILE)
              (λ ii tiles, for_ (Z.to_nat TILE) (body ii) tiles) (ta, tb) st)
    as (tiles & st' & Hrun & Hh & ->).
  - split; [done|]. by rewrite !take_0, !drop_0.
  - intros ii tiles st1 Hii (Hh1 & ->). change (Z.to_nat TILE) with 8%nat in Hii.
    destruct (for_inv (λ jj, I (ii * 8 + jj)%nat) (Z.to_nat TILE) (body ii)
                (take (ii * 8) RA ++ drop (ii * 8) ta,
                 take (ii * 8) RB ++ drop (ii * 8) tb) st1)
      as (tiles & st2 & Hrun2 & Hh2 & ->).
    + split; [done|]. by rewrite Nat.add_0_r.
    + intros jj tiles st2 Hjj (Hh2 & ->). change (Z.to_nat TILE) with 8%nat in Hjj.
      set (q := (ii * 8 + jj)%nat).
      destruct (Hin q ltac:(lia)) as [HqA HqB].
      pose proof (u32_range (abase + Z.of_nat q)) as HrA.
      pose proof (u32_range (bbase + Z.of_nat q)) as HrB.
      assert (Hu : u32 (Z.of_nat ii * TILE + Z.of_nat jj) = Z.of_nat q).
      { unfold TILE, q. rewrite u32_id; lia. }
      assert (Hia : abase + Z.of_nat ii * TILE + Z.of_nat jj = abase + Z.of_nat q)
        by (unfold TILE, q; lia).
      assert (Hib : bbase + Z.of_nat ii * TILE + Z.of_nat jj = bbase + Z.of_nat q)
        by (unfold TILE, q; lia).
      eexists (_, _), _. split.
      * unfold body. rewrite Hu, Hia, Hib.
        erewrite bind_Some;
          [|eapply load_run; [by rewrite Hh2|apply rd_lookup; lia]].
        erewrite bind_Some;
          [|apply lift_Some, vset_nat;
            rewrite length_app, length_take, length_drop; lia].
        erewrite bind_Some;
          [|eapply load_run; cbn [heap]; [by rewrite Hh2|apply rd_lookup; lia]].
        erewrite bind_Some;
          [|apply lift_Some, vset_nat;
            rewrite length_app, length_take, length_drop; lia].
        reflexivity.
      * split; [done|]. unfold q.
        replace (ii * 8 + S jj)%nat with (S (ii * 8 + jj)) by lia.
        f_equal; (apply insert_take_drop; [lia|]);
          unfold RA, RB, tile_at; by rewrite list_lookup_fmap, lookup_seq_lt by lia.
    + eexists _, st2. split; [exact Hrun2|]. split; [done|].
      change (Z.to_nat TILE) with 8%nat.
      by replace (S ii * 8)%nat with (ii * 8 + 8)%nat by lia.
  - exists st'. split; [|done].
    change (Z.to_nat TILE * 8)%nat with 64%nat in Hrun.
    rewrite !take_ge, !drop_ge, !app_nil_r in Hrun by lia. exact Hrun.
Qed.

Lemma AlignedDot_ptr_aligned pa pb pout a b out :
  aligned pa → aligned pb → aligned pout →
  AlignedDot_ptr pa pb pout a b out = AlignedDot a b out.
Proof.
  unfold aligned, AlignedDot_ptr, assume_aligned. intros Ha Hb Ho.
  by rewrite !bool_decide_true by done.
Qed.

(** The reduction loop of one output block. *)
Lemma reduce_blocks pa pb pout a b A B st (n p : Z) (i j KB : nat)
    (ta tb : list scalar_t) :
  ((0 < KB)%nat → aligned pa ∧ aligned pb ∧ aligned pout) →
  heap st !! a = Some A → heap st !! b = Some B →
  length ta = 64%nat → length tb = 64%nat →
  (∀ K q, (K < KB)%nat → (q < 64)%nat →
        u32 (Z.of_nat i * n * TILE + Z.of_nat K * TILE * TILE + Z.of_nat q)
          < Z.of_nat (length A)
        ∧ u32 (Z.of_nat K * p * TILE + Z.of_nat j * TILE * TILE + Z.of_nat q)
          < Z.of_nat (length B)) →
  ∃ st' ta' tb',
    for_ KB (λ k '(tile_a, tile_b, tmp_res),
      '(tile_a, tile_b) ←
        for_ (Z.to_nat TILE) (λ ii tiles,
          for_ (Z.to_nat TILE) (λ jj '(tile_a, tile_b),
            x ← load a (u32 (Z.of_nat i * n * TILE + Z.of_nat k * TILE * TILE
                             + Z.of_nat ii * TILE + Z.of_nat jj));
            tile_a ← lift (vset tile_a (u32 (Z.of_nat ii * TILE + Z.of_nat jj)) x);
            y ← load b (u32 (Z.of_nat k * p * TILE + Z.of_nat j * TILE * TILE
                             + Z.of_nat ii * TILE + Z.of_nat jj));
            tile_b ← lift (vset tile_b (u32 (Z.of_nat ii * TILE + Z.of_nat jj)) y);
            mret (tile_a, tile_b)) tiles) (tile_a, tile_b);
      tmp_res ← lift (AlignedDot_ptr pa pb pout tile_a tile_b tmp_res);
      mret (tile_a, tile_b, tmp_res))
      (ta, tb, replicate (Z.to_nat (TILE * TILE)) (f32 0)) st
    = Some ((ta', tb', block_acc A B n p i j KB), st')
    ∧ heap st' = heap st ∧ length ta' = 64%nat ∧ length tb' = 64%nat.
Proof.
  intros Hal Ha Hb Hla Hlb Hin.
  match goal with |- ∃ st' ta' tb', for_ _ ?body _ _ = _ ∧ _ =>
    destruct (for_inv
      (λ K (l : list scalar_t * list scalar_t * list scalar_t) st',
         heap st' = heap st ∧ length l.1.1 = 64%nat ∧ length l.1.2 = 64%nat
         ∧ l.2 = block_acc A B n p i j K)
      KB body (ta, tb, replicate (Z.to_nat (TILE * TILE)) (f32 0)) st)
      as ([[ta' tb'] tmp] & st' & Hrun & Hh & Hla' & Hlb' & Htmp)
  end.
  - done.
  - intros K [[ta1 tb1] tmp1] st1 HK (Hh1 & Hla1 & Hlb1 & Htmp1).
    destruct (Hal ltac:(lia)) as (Hpa & Hpb & Hpout).
    cbn [fst snd] in *. subst tmp1.
    destruct (load_tiles a b A B st1
                (Z.of_nat i * n * TILE + Z.of_nat K * TILE * TILE)
                (Z.of_nat K * p * TILE + Z.of_nat j * TILE * TILE) ta1 tb1)
      as (st2 & Hload & Hh2); try done.
    + by rewrite Hh1.
    + by rewrite Hh1.
    + intros q Hq. by apply Hin.
    + eexists (_, _, _), st2. split.
      * cbv beta iota. erewrite bind_Some; [|exact Hload]. cbv beta iota.
        erewrite bind_Some;
          [|apply lift_Some; rewrite AlignedDot_ptr_aligned by done;
            apply AlignedDot_run;
            [apply length_tile_at|apply length_tile_at|apply length_block_acc]].
        reflexivity.
      * cbn [fst snd]. split; [by rewrite Hh2|].
        split; [apply length_tile_at|]. split; [apply length_tile_at|done].
  - cbn [fst snd] in *. subst tmp. by exists st', ta', tb'.
Qed.

(** The loops that copy [tmp_res] to the output block at the positions
    [β .. β + 63]. *)
Lemma write_block out X (tmp : list scalar_t) st (base : Z) (β : nat) :
  heap st !! out = Some X → length tmp = 64%nat →
  (∀ q, (q < 64)%nat → u32 (base + Z.of_nat q) = Z.of_nat (β + q)) →
  (β + 64 ≤ length X)%nat →
  ∃ st',
    for_ (Z.to_nat TILE) (λ ii _,
      for_ (Z.to_nat TILE) (λ jj _,
        v ← lift (vget tmp (u32 (Z.of_nat ii * TILE + Z.of_nat jj)));
        store out (u32 (base + Z.of_nat ii * TILE + Z.of_nat jj)) v) tt) tt st
    = Some (tt, st')
    ∧ heap st' = <[out := patch X (λ r, bool_decide (β ≤ r < β + 64)%nat)
                                  (λ r, rd tmp (Z.of_nat (r - β)))]> (heap st).
Proof.
  intros Ho Hlt Hq Hlen.
  set (f := λ r : nat, rd tmp (Z.of_nat (r - β))).
  set (I := λ (c : nat) (_ : unit) (st' : state),
         heap st' = <[out := patch X (λ r, bool_decide (β ≤ r < β + c)%nat) f]> (heap st)).
  destruct (for_inv (λ ii, I (ii * 8)%nat) (Z.to_nat TILE)
    (λ ii _,
      for_ (Z.to_nat TILE) (λ jj _,
        v ← lift (vget tmp (u32 (Z.of_nat ii * TILE + Z.of_nat jj)));
        store out (u32 (base + Z.of_nat ii * TILE + Z.of_nat jj)) v) tt) tt st)
    as ([] & st' & Hrun & HI).
  - unfold I.
    rewrite (patch_ext _ _ (λ _, false) _ f), patch_none, insert_id; [done|done|].
    intros r x _. rewrite bool_decide_false; [done|lia].
  - intros ii [] st1 Hii HI1. change (Z.to_nat TILE) with 8%nat in Hii.
    destruct (for_inv (λ jj, I (ii * 8 + jj)%nat) (Z.to_nat TILE)
      (λ jj _,
        v ← lift (vget tmp (u32 (Z.of_nat ii * TILE + Z.of_nat jj)));
        store out (u32 (base + Z.of_nat ii * TILE + Z.of_nat jj)) v) tt st1)
      as ([] & st2 & Hrun2 & HI2).
    + by rewrite Nat.add_0_r.
    + intros jj [] st2 Hjj HI2. change (Z.to_nat TILE) with 8%nat in Hjj.
      set (q := (ii * 8 + jj)%nat).
      assert (Hu : u32 (Z.of_nat ii * TILE + Z.of_nat jj) = Z.of_nat q).
      { unfold TILE, q. rewrite u32_id; lia. }
      assert (Hio : base + Z.of_nat ii * TILE + Z.of_nat jj = base + Z.of_nat q)
        by (unfold TILE, q; lia).
      exists tt. eexists. split.
      * rewrite Hu, Hio, (Hq q) by lia.
        erewrite bind_Some; [|apply lift_Some, rd_lookup; lia].
        eapply store_run; [rewrite HI2; apply lookup_insert_eq|].
        apply vset_nat. rewrite length_patch. lia.
      * unfold I in *. cbn [heap]. rewrite HI2, insert_insert_eq. f_equal.
        replace (rd tmp (Z.of_nat q)) with (f (β + q)%nat)
          by (unfold f; do 2 f_equal; lia).
        rewrite patch_insert by lia. apply patch_ext. intros r x _.
        destruct (decide (r = (β + q)%nat)) as [->|Hne].
        -- rewrite (bool_decide_true (_ = _)) by done. rewrite orb_true_r.
           by rewrite bool_decide_true by lia.
        -- rewrite (bool_decide_false (r = _)) by done. rewrite orb_false_r.
           destruct (decide (β ≤ r < β + q)%nat).
           ++ by rewrite !bool_decide_true by lia.
           ++ by rewrite !bool_decide_false by lia.
    + exists tt, st2. split; [done|]. unfold I in *. rewrite HI2.
      change (Z.to_nat TILE) with 8%nat.
      by replace (S ii * 8)%nat with (ii * 8 + 8)%nat by lia.
  - exists st'. split; [done|]. unfold I in HI.
    by change (Z.to_nat TILE * 8)%nat with 64%nat in HI.
Qed.

(** [MatmulTiled] when no index of [out] wraps. *)
Lemma MatmulTiled_run v a b out A B O st (m n p : Z) :
  (TILE ≤ n → vectors_aligned v (Z.to_nat (m / TILE)) (Z.to_nat (p / TILE))) →
  a ≠ out → b ≠ out →
  heap st !! a = Some A → heap st !! b = Some B → heap st !! out = Some O →
  0 ≤ m → 0 ≤ n → 0 ≤ p → p mod TILE = 0 →
  (m / TILE) * p * TILE ≤ 2 ^ 32 →
  (m / TILE) * p * TILE ≤ Z.of_nat (length O) →
  (∀ i j K q, (i < Z.to_nat (m / TILE))%nat → (j < Z.to_nat (p / TILE))%nat →
        (K < Z.to_nat (n / TILE))%nat → (q < 64)%nat →
        u32 (Z.of_nat i * n * TILE + Z.of_nat K * TILE * TILE + Z.of_nat q)
          < Z.of_nat (length A)
        ∧ u32 (Z.of_nat K * p * TILE + Z.of_nat j * TILE * TILE + Z.of_nat q)
          < Z.of_nat (length B)) →
  ∃ st', MatmulTiled v a b out m n p st = Some (tt, st')
    ∧ heap st' = <[out := patch O
                     (λ r, bool_decide
                             (r < Z.to_nat (m / TILE) * Z.to_nat (p / TILE) * 64)%nat)
                     (tiled_cell A B n p)]> (heap st).
Proof.
  intros Hal Hao Hbo Ha Hb Ho Hm Hn Hp Hpmod Hfit Hlen Hin.
  unfold MatmulTiled.
  set (MB := Z.to_nat (m / TILE)). set (PB := Z.to_nat (p / TILE)).
  set (KB := Z.to_nat (n / TILE)).
  assert (HpPB : p = Z.of_nat PB * 8).
  { unfold PB, TILE in *. pose proof (Z.div_mod p 8 ltac:(lia)).
    pose proof (Z.div_pos p 8 ltac:(lia) ltac:(lia)). lia. }
  assert (HmMB : Z.of_nat MB = m / TILE).
  { unfold MB, TILE. pose proof (Z.div_pos m 8 ltac:(lia) ltac:(lia)). lia. }
  rewrite <- HmMB in Hfit, Hlen. unfold TILE in Hfit, Hlen.
  set (I := λ (c : nat) (tiles : list scalar_t * list scalar_t) (st' : state),
         heap st' = <[out := patch O (λ r, bool_decide (r < c * 64)%nat)
                                     (tiled_cell A B n p)]> (heap st)
         ∧ length tiles.1 = 64%nat ∧ length tiles.2 = 64%nat).
  match goal with |- ∃ st', (for_ _ ?body _ ≫= _) _ = _ ∧ _ =>
    destruct (for_inv (λ i, I (i * PB)%nat) MB body
                (replicate (Z.to_nat (TILE * TILE)) (f32 0),
                 replicate (Z.to_nat (TILE * TILE)) (f32 0)) st)
      as ([ta' tb'] & st' & Hrun & HI & _)
  end.
  - unfold I. cbn [fst snd]. split; [|by rewrite !length_replicate].
    rewrite (patch_ext _ _ (λ _, false) _ (tiled_cell A B n p)), patch_none, insert_id;
      [done|done|].
    intros r x _. rewrite bool_decide_false; [done|lia].
  - intros i tiles st1 Hi HI1.
    match goal with |- ∃ l' st', for_ _ ?body _ _ = _ ∧ _ =>
      destruct (for_inv (λ j, I (i * PB + j)%nat) PB body tiles st1)
        as (tiles2 & st2 & Hrun2 & HI2)
    end.
    + by rewrite Nat.add_0_r.
    + intros j [ta1 tb1] st2 Hj (Hh2 & Hla1 & Hlb1). cbn [fst snd] in *.
      destruct (reduce_blocks (tile_a_data v) (tile_b_data v) (tmp_res_data v i j)
                  a b A B st2 n p i j KB ta1 tb1)
        as (st3 & ta3 & tb3 & Hred & Hh3 & Hla3 & Hlb3); try done.
      { intros HKB. destruct Hal as (Hva & Hvb & Hvc).
        - unfold KB, TILE in *.
          destruct (decide (8 ≤ n)) as [|Hlt]; [done|].
          rewrite Z.div_small in HKB by lia. simpl in HKB. lia.
        - split; [done|]. split; [done|]. by apply Hvc. }
      { by rewrite Hh2, lookup_insert_ne. }
      { by rewrite Hh2, lookup_insert_ne. }
      { intros K q HK Hq. by apply Hin. }
      destruct (write_block out
                  (patch O (λ r, bool_decide (r < (i * PB + j) * 64)%nat)
                         (tiled_cell A B n p))
                  (block_acc A B n p i j KB) st3
                  (Z.of_nat i * p * TILE + Z.of_nat j * TILE * TILE)
                  ((i * PB + j) * 64)%nat)
        as (st4 & Hwr & Hh4).
      { by rewrite Hh3, Hh2, lookup_insert_eq. }
      { apply length_block_acc. }
      { intros q Hq. unfold TILE. rewrite u32_id; [nia|]. split; [nia|]. nia. }
      { rewrite length_patch. nia. }
      exists (ta3, tb3), st4. split.
      * erewrite bind_Some; [|exact Hred]. cbv beta iota.
        erewrite bind_Some; [|exact Hwr]. reflexivity.
      * split; [|done]. rewrite Hh4, Hh3, Hh2, insert_insert_eq. f_equal.
        rewrite patch_patch. apply patch_ext. intros r x _.
        destruct (decide ((i * PB + j) * 64 ≤ r < (i * PB + j) * 64 + 64)%nat)
          as [Hr|Hr].
        -- rewrite (bool_decide_true (_ ≤ r < _)%nat) by done.
           rewrite orb_true_r, bool_decide_true by lia.
           unfold tiled_cell. fold PB KB.
           replace (r / 64)%nat with (i * PB + j)%nat
             by (apply Nat.div_unique with (r - (i * PB + j) * 64)%nat; lia).
           replace ((i * PB + j) / PB)%nat with i
             by (apply Nat.div_unique with j; lia).
           replace ((i * PB + j) mod PB)%nat with j
             by (apply Nat.mod_unique with i; lia).
           do 2 f_equal. apply Nat.mod_unique with (i * PB + j)%nat; lia.
        -- rewrite (bool_decide_false (_ ≤ r < _)%nat) by done.
           rewrite orb_false_r.
           destruct (decide (r < (i * PB + j) * 64)%nat).
           ++ by rewrite !bool_decide_true by lia.
           ++ by rewrite !bool_decide_false by lia.
    + exists tiles2, st2. split; [done|].
      by replace (S i * PB)%nat with (i * PB + PB)%nat by lia.
  - exists st'. split; [by rewrite (bind_Some _ _ _ _ _ Hrun)|done].
Qed.

Lemma fsum_add t (a b : nat) init :
  fsum t (a + b) init = fsum (λ k, t (a + k)%nat) b (fsum t a init).
Proof.
  induction b as [|b IH]; [by rewrite Nat.add_0_r|].
  replace (a + S b)%nat with (S (a + b)) by lia. by rewrite !fsum_S, IH.
Qed.

Lemma rd_tile_at A base (x : nat) :
  (x < 64)%nat → rd (tile_at A base) (Z.of_nat x) = rd A (u32 (base + Z.of_nat x)).
Proof.
  intros Hx. apply rd_nat_lookup. unfold tile_at.
  by rewrite list_lookup_fmap, lookup_seq_lt.
Qed.

Lemma block_acc_fsum A B n p (i j ii jj K : nat) :
  (ii < 8)%nat → (jj < 8)%nat →
  rd (block_acc A B n p i j K) (Z.of_nat (ii * 8 + jj))
  = fsum (tiled_term A B n p i j ii jj) (K * 8) (f32 0).
Proof.
  intros Hii Hjj. induction K as [|K IH].
  - cbn [block_acc]. apply rd_nat_lookup. apply lookup_replicate_2. lia.
  - cbn [block_acc]. erewrite rd_nat_lookup;
      [|by rewrite list_lookup_fmap, lookup_seq_lt by lia].
    rewrite Nat.add_0_l. unfold tile_cell. rewrite IH.
    replace ((ii * 8 + jj) / 8)%nat with ii
      by (apply Nat.div_unique with jj; lia).
    replace ((ii * 8 + jj) mod 8)%nat with jj
      by (apply Nat.mod_unique with ii; lia).
    replace (S K * 8)%nat with (K * 8 + 8)%nat by lia.
    rewrite fsum_add. apply fsum_ext. intros kk Hkk.
    unfold tile_term, tiled_term.
    replace ((K * 8 + kk) / 8)%nat with K by (apply Nat.div_unique with kk; lia).
    replace ((K * 8 + kk) mod 8)%nat with kk by (apply Nat.mod_unique with K; lia).
    replace (Z.of_nat ii * TILE + Z.of_nat kk) with (Z.of_nat (ii * 8 + kk))
      by (unfold TILE; lia).
    replace (Z.of_nat kk * TILE + Z.of_nat jj) with (Z.of_nat (kk * 8 + jj))
      by (unfold TILE; lia).
    by rewrite !rd_tile_at by lia.
Qed.

Lemma tiled_index_bound (rows cols i k : Z) :
  0 ≤ i < rows → 0 ≤ k < cols → rows mod TILE = 0 → cols mod TILE = 0 →
  0 ≤ tiled_index cols i k < rows * cols.
Proof.
  unfold tiled_index, TILE. intros Hi Hk Hr Hc.
  pose proof (Z.div_mod i 8 ltac:(lia)). pose proof (Z.mod_pos_bound i 8 ltac:(lia)).
  pose proof (Z.div_mod k 8 ltac:(lia)). pose proof (Z.mod_pos_bound k 8 ltac:(lia)).
  pose proof (Z.div_mod rows 8 ltac:(lia)). pose proof (Z.div_mod cols 8 ltac:(lia)).
  assert (0 ≤ i / 8) by (apply Z.div_pos; lia).
  assert (0 ≤ k / 8) by (apply Z.div_pos; lia).
  assert (i / 8 + 1 ≤ rows / 8) by lia.
  assert (k / 8 + 1 ≤ cols / 8) by lia.
  split; [nia|]. nia.
Qed.

Lemma nat_div8 (x : nat) :
  Z.of_nat x / 8 = Z.of_nat (x / 8) ∧ Z.of_nat x mod 8 = Z.of_nat (x mod 8)
  ∧ (x mod 8 < 8)%nat ∧ x = (8 * (x / 8) + x mod 8)%nat.
Proof.
  split; [by rewrite Nat2Z.inj_div|]. split; [by rewrite Nat2Z.inj_mod|].
  split; [apply Nat.mod_upper_bound; lia|apply Nat.div_mod_eq].
Qed.

(** The cell of [MatmulTiled] at the position of the logical cell [(i, j)]. *)
Lemma tiled_cell_at A B (n p : Z) (i j : nat) :
  0 ≤ n → n mod TILE = 0 → p mod TILE = 0 → Z.of_nat j < p →
  tiled_cell A B n p (Z.to_nat (tiled_index p (Z.of_nat i) (Z.of_nat j)))
  = fsum (λ k, fmul (rd A (u32 (tiled_index n (Z.of_nat i) (Z.of_nat k))))
                    (rd B (u32 (tiled_index p (Z.of_nat k) (Z.of_nat j)))))
         (Z.to_nat n) (f32 0).
Proof.
  intros Hn Hnmod Hpmod Hj. unfold TILE in *.
  destruct (nat_div8 i) as (Hdi & Hmi & Hii & Hi).
  destruct (nat_div8 j) as (Hdj & Hmj & Hjj & Hj').
  set (PB := Z.to_nat (p / 8)).
  set (ib := (i / 8)%nat) in *. set (ii := (i mod 8)%nat) in *.
  set (jb := (j / 8)%nat) in *. set (jj := (j mod 8)%nat) in *.
  pose proof (Z.div_mod p 8 ltac:(lia)) as Hpdm.
  pose proof (Z.div_pos p 8 ltac:(lia) ltac:(lia)) as Hpd.
  pose proof (Z.div_mod n 8 ltac:(lia)) as Hndm.
  pose proof (Z.div_pos n 8 ltac:(lia) ltac:(lia)) as Hnd.
  assert (HpPB : p = Z.of_nat PB * 8) by (unfold PB; lia).
  assert (Hjb : (jb < PB)%nat) by lia.
  assert (Hr : Z.to_nat (tiled_index p (Z.of_nat i) (Z.of_nat j))
               = ((ib * PB + jb) * 64 + (ii * 8 + jj))%nat).
  { unfold tiled_index, TILE. rewrite Hdi, Hmi, Hdj, Hmj, HpPB. nia. }
  rewrite Hr. unfold tiled_cell, TILE. fold PB.
  replace (((ib * PB + jb) * 64 + (ii * 8 + jj)) / 64)%nat with (ib * PB + jb)%nat
    by (apply Nat.div_unique with (ii * 8 + jj)%nat; lia).
  replace (((ib * PB + jb) * 64 + (ii * 8 + jj)) mod 64)%nat with (ii * 8 + jj)%nat
    by (apply Nat.mod_unique with (ib * PB + jb)%nat; lia).
  replace ((ib * PB + jb) / PB)%nat with ib by (apply Nat.div_unique with jb; lia).
  replace ((ib * PB + jb) mod PB)%nat with jb by (apply Nat.mod_unique with ib; lia).
  rewrite block_acc_fsum by done.
  replace (Z.to_nat (n / 8) * 8)%nat with (Z.to_nat n) by lia.
  apply fsum_ext. intros k Hk. unfold tiled_term, tiled_index, TILE.
  destruct (nat_div8 k) as (Hdk & Hmk & Hkk & Hk').
  rewrite Hdi, Hmi, Hdj, Hmj, Hdk, Hmk.
  f_equal; do 2 f_equal; lia.
Qed.

(** ** Tiled against naive *)

Lemma rel_close_refl x : rel_close x x.
Proof. by left. Qed.

Lemma MatmulTiled_cells v a b out A B O st (m n p : Z) :
  vectors_aligned v (Z.to_nat (m / TILE)) (Z.to_nat (p / TILE)) →
  a ≠ out → b ≠ out →
  heap st !! a = Some A → heap st !! b = Some B → heap st !! out = Some O →
  0 < m → 0 < n → 0 < p →
  m mod TILE = 0 → n mod TILE = 0 → p mod TILE = 0 →
  Z.of_nat (length A) = m * n → Z.of_nat (length B) = n * p →
  Z.of_nat (length O) = m * p →
  m * n ≤ 2 ^ 32 → n * p ≤ 2 ^ 32 → m * p ≤ 2 ^ 32 →
  ∃ st' O', MatmulTiled v a b out m n p st = Some (tt, st')
    ∧ heap st' = <[out := O']> (heap st)
    ∧ length O' = length O
    ∧ ∀ i j, Z.of_nat i < m → Z.of_nat j < p →
        O' !! Z.to_nat (tiled_index p (Z.of_nat i) (Z.of_nat j))
        = Some (dot_tiled A B n p i j).
Proof.
  intros Hal Hao Hbo Ha Hb Ho Hm Hn Hp Hmmod Hnmod Hpmod HlA HlB HlO Hmn Hnp Hmp.
  pose proof (Z.div_mod m 8 ltac:(lia)) as Hmdm.
  pose proof (Z.div_pos m 8 ltac:(lia) ltac:(lia)) as Hmd.
  pose proof (Z.div_mod n 8 ltac:(lia)) as Hndm.
  pose proof (Z.div_pos n 8 ltac:(lia) ltac:(lia)) as Hnd.
  pose proof (Z.div_mod p 8 ltac:(lia)) as Hpdm.
  pose proof (Z.div_pos p 8 ltac:(lia) ltac:(lia)) as Hpd.
  unfold TILE in Hmmod, Hnmod, Hpmod.
  destruct (MatmulTiled_run v a b out A B O st m n p) as (st' & Hrun & Hh);
    try done; try lia.
  { unfold TILE. nia. }
  { unfold TILE. nia. }
  { unfold TILE. intros i j K q Hi Hj HK Hq. rewrite !u32_id; nia. }
  eexists st', _. split; [done|]. split; [done|].
  split; [by rewrite length_patch|].
  intros i j Hi Hj.
  pose proof (tiled_index_bound m p (Z.of_nat i) (Z.of_nat j)
                ltac:(lia) ltac:(lia) Hmmod Hpmod) as Hb1.
  rewrite lookup_patch.
  destruct (lookup_lt_is_Some_2 O
              (Z.to_nat (tiled_index p (Z.of_nat i) (Z.of_nat j)))) as [x ->]; [lia|].
  cbn [fmap option_fmap option_map]. f_equal.
  rewrite bool_decide_true by (unfold TILE; nia).
  rewrite tiled_cell_at by (done || lia).
  unfold dot_tiled. apply fsum_ext. intros k Hk.
  pose proof (tiled_index_bound m n (Z.of_nat i) (Z.of_nat k)
                ltac:(lia) ltac:(lia) Hmmod Hnmod).
  pose proof (tiled_index_bound n p (Z.of_nat k) (Z.of_nat j)
                ltac:(lia) ltac:(lia) Hnmod Hpmod).
  by rewrite !u32_id by lia.
Qed.

(** The tiled product against the naive one, on aligned vectors.  For [m],
    [n] and [p] positive multiples of [TILE] whose products [m * n], [n * p]
    and [m * p] do not exceed 2^32, for arrays that hold the same two
    matrices in the block layout and in the row-major layout, and on a run
    in which the allocator places [tile_a], [tile_b] and every [tmp_res] at
    a multiple of [TILE * ELEM_SIZE] bytes: [MatmulTiled] and [Matmul] both
    return, and for every logical cell [(i, j)] the value that [MatmulTiled]
    stores at its place in the block layout is the very value that [Matmul]
    stores at [i * p + j], the same bits, for every [n]; the two are then
    equal up to a relative error below [1e-5] as well. *)
Theorem MatmulTiled_agrees_with_Matmul_on_aligned_vectors
    (v : vectors) (ta tb tout ra rb rout : handle) (m n p : Z)
    (AT BT OT AR BR OR : list scalar_t) (st : state) :
  vectors_aligned v (Z.to_nat (m / TILE)) (Z.to_nat (p / TILE)) →
  ta ≠ tout → tb ≠ tout → ra ≠ rout → rb ≠ rout →
  heap st !! ta = Some AT → heap st !! tb = Some BT → heap st !! tout = Some OT →
  heap st !! ra = Some AR → heap st !! rb = Some BR → heap st !! rout = Some OR →
  0 < m → 0 < n → 0 < p →
  m mod TILE = 0 → n mod TILE = 0 → p mod TILE = 0 →
  Z.of_nat (length AT) = m * n → Z.of_nat (length BT) = n * p →
  Z.of_nat (length OT) = m * p →
  Z.of_nat (length AR) = m * n → Z.of_nat (length BR) = n * p →
  Z.of_nat (length OR) = m * p →
  m * n ≤ 2 ^ 32 → n * p ≤ 2 ^ 32 → m * p ≤ 2 ^ 32 →
  (∀ i k : nat, Z.of_nat i < m → Z.of_nat k < n →
     AR !! Z.to_nat (Z.of_nat i * n + Z.of_nat k)
     = AT !! Z.to_nat (tiled_index n (Z.of_nat i) (Z.of_nat k))) →
  (∀ k j : nat, Z.of_nat k < n → Z.of_nat j < p →
     BR !! Z.to_nat (Z.of_nat k * p + Z.of_nat j)
     = BT !! Z.to_nat (tiled_index p (Z.of_nat k) (Z.of_nat j))) →
  ∃ stT stN OT' OR',
    MatmulTiled v ta tb tout m n p st = Some (tt, stT)
    ∧ Matmul ra rb rout m n p st = Some (tt, stN)
    ∧ heap stT !! tout = Some OT'
    ∧ heap stN !! rout = Some OR'
    ∧ ∀ i j : nat, Z.of_nat i < m → Z.of_nat j < p →
        ∃ x y,
          OT' !! Z.to_nat (tiled_index p (Z.of_nat i) (Z.of_nat j)) = Some x
          ∧ OR' !! Z.to_nat (Z.of_nat i * p + Z.of_nat j) = Some y
          ∧ x = y ∧ rel_close x y.
Proof.
  intros Hal Hta Htb Hra Hrb HAT HBT HOT HAR HBR HOR Hm Hn Hp Hmmod Hnmod Hpmod
    HlAT HlBT HlOT HlAR HlBR HlOR Hmn Hnp Hmp HA HB.
  destruct (MatmulTiled_cells v ta tb tout AT BT OT st m n p)
    as (stT & OT' & HrunT & HhT & _ & HcT); try done.
  destruct (Matmul_cells ra rb rout m n p AR BR OR st)
    as (stN & OR' & HrunN & HhN & _ & HcN); try done; try lia.
  exists stT, stN, OT', OR'. split; [done|]. split; [done|].
  split; [by rewrite HhT, lookup_insert_eq|].
  split; [by rewrite HhN, lookup_insert_eq|].
  intros i j Hi Hj. exists (dot_tiled AT BT n p i j), (dot AR BR n p i j).
  split; [by apply HcT|]. split; [by apply HcN|].
  assert (E : dot_tiled AT BT n p i j = dot AR BR n p i j).
  { unfold dot_tiled, dot. apply fsum_ext. intros k Hk. unfold rd, vget.
    pose proof (tiled_index_bound m n (Z.of_nat i) (Z.of_nat k)
                  ltac:(lia) ltac:(lia) Hmmod Hnmod).
    pose proof (tiled_index_bound n p (Z.of_nat k) (Z.of_nat j)
                  ltac:(lia) ltac:(lia) Hnmod Hpmod).
    rewrite !bool_decide_true by lia.
    by rewrite HA, HB by lia. }
  split; [done|]. rewrite E. apply rel_close_refl.
Qed.

Lemma single_tile_layout (i k : nat) :
  Z.of_nat i < 8 → Z.of_nat k < 8 →
  Z.to_nat (Z.of_nat i * 8 + Z.of_nat k)
  = Z.to_nat (tiled_index 8 (Z.of_nat i) (Z.of_nat k)).
Proof.
  intros Hi Hk. unfold tiled_index, TILE.
  rewrite !Z.div_small, !Z.mod_small by lia. lia.
Defined.

Lemma MatmulTiled_agrees_with_Matmul_on_aligned_vectors_witness :
  ∃ stT stN OT' OR',
    MatmulTiled (Vectors 4096 4384 (λ _ _, 4672)) 0%nat 1%nat 2%nat 8 8 8
      (mem3 (f32 <$> seqZ 1 64) (f32 <$> seqZ 65 64) (replicate 64 (f32 0)))
    = Some (tt, stT)
    ∧ Matmul 0%nat 1%nat 2%nat 8 8 8
        (mem3 (f32 <$> seqZ 1 64) (f32 <$> seqZ 65 64) (replicate 64 (f32 0)))
      = Some (tt, stN)
    ∧ heap stT !! 2%nat = Some OT'
    ∧ heap stN !! 2%nat = Some OR'
    ∧ ∀ i j : nat, Z.of_nat i < 8 → Z.of_nat j < 8 →
        ∃ x y,
          OT' !! Z.to_nat (tiled_index 8 (Z.of_nat i) (Z.of_nat j)) = Some x
          ∧ OR' !! Z.to_nat (Z.of_nat i * 8 + Z.of_nat j) = Some y
          ∧ x = y ∧ rel_close x y.
Proof.
  apply (MatmulTiled_agrees_with_Matmul_on_aligned_vectors
           (Vectors 4096 4384 (λ _ _, 4672))
           0%nat 1%nat 2%nat 0%nat 1%nat 2%nat 8 8 8
           (f32 <$> seqZ 1 64) (f32 <$> seqZ 65 64) (replicate 64 (f32 0))
           (f32 <$> seqZ 1 64) (f32 <$> seqZ 65 64) (replicate 64 (f32 0))).
  - split; [reflexivity|]. split; [reflexivity|]. intros i j _ _. reflexivity.
  - discriminate.
  - discriminate.
  - discriminate.
  - discriminate.
  - reflexivity.
  - reflexivity.
  - reflexivity.
  - reflexivity.
  - reflexivity.
  - reflexivity.
  - lia.
  - lia.
  - lia.
  - reflexivity.
  - reflexivity.
  - reflexivity.
  - reflexivity.
  - reflexivity.
  - reflexivity.
  - reflexivity.
  - reflexivity.
  - reflexivity.
  - lia.
  - lia.
  - lia.
  - intros i k Hi Hk. f_equal. by apply single_tile_layout.
  - intros k j Hk Hj. f_equal. by apply single_tile_layout.
Defined.

(** ** The tiled product beyond 32-bit indices *)

Lemma fsum_zero_terms t n init :
  (∀ k, (k < n)%nat → t k = fzero) → fadd init fzero = init → fsum t n init = init.
Proof.
  intros Ht Hinit. induction n as [|n IH]; [done|].
  rewrite fsum_S, IH, Ht by (intros; apply Ht || idtac; lia). done.
Qed.

Lemma fsum_1 t init : fsum t 1 init = fadd init (t 0%nat).
Proof. reflexivity. Qed.

(** The position of the logical cell [(0, k)] in the block layout is a
    multiple of 2^32 only for [k = 0] and [k = 2^29]. *)
Lemma first_row_index (n k : Z) :
  0 ≤ k < 2 ^ 29 + 8 →
  u32 (tiled_index n 0 k) = (if bool_decide (k < 2 ^ 29) then 0 else - 2 ^ 32)
                            + (k / 8) * 64 + k mod 8.
Proof.
  intros Hk. unfold tiled_index, TILE, u32.
  change (0 / 8) with 0. change (0 mod 8) with 0.
  pose proof (Z.div_mod k 8 ltac:(lia)). pose proof (Z.mod_pos_bound k 8 ltac:(lia)).
  assert (0 ≤ k / 8) by (apply Z.div_pos; lia).
  case_bool_decide.
  - rewrite Z.mod_small; lia.
  - symmetry. apply (Z.mod_unique_pos _ _ 1); lia.
Qed.

Lemma first_column_index (k : Z) :
  0 ≤ k < 2 ^ 29 + 8 → 0 ≤ u32 (tiled_index 8 k 0) < 2 ^ 32.
Proof. intros _. apply u32_range. Qed.

(** The two kernels on an [8 x n] matrix with a single 1, in its first cell,
    and an [n x 8] matrix of ones, for [n = 2^29 + 8]. *)
Lemma wrapped_tiled_sum (A B : list scalar_t) (n : Z) :
  n = 2 ^ 29 + 8 →
  rd A 0 = f32 1 → (∀ z, 0 < z < 2 ^ 32 → rd A z = f32 0) →
  (∀ z, 0 ≤ z < 2 ^ 32 → rd B z = f32 1) →
  fsum (λ k, fmul (rd A (u32 (tiled_index n 0 (Z.of_nat k))))
                  (rd B (u32 (tiled_index 8 (Z.of_nat k) 0))))
       (Z.to_nat n) (f32 0) = f32 2.
Proof.
  intros Hn HA0 HAz HB.
  assert (∃ N1 : nat, Z.of_nat N1 = 2 ^ 29 - 1) as [N1 HN1]
    by (exists (Z.to_nat (2 ^ 29 - 1)); lia).
  replace (Z.to_nat n) with (1 + N1 + 1 + 7)%nat by lia.
  assert (Hterm : ∀ k : nat, Z.of_nat k < 2 ^ 29 + 8 →
            fmul (rd A (u32 (tiled_index n 0 (Z.of_nat k))))
                 (rd B (u32 (tiled_index 8 (Z.of_nat k) 0)))
            = if bool_decide (Z.of_nat k = 0 ∨ Z.of_nat k = 2 ^ 29)
              then f32 1 else fzero).
  { intros k Hk.
    rewrite (HB _ (first_column_index (Z.of_nat k) ltac:(lia))).
    rewrite first_row_index by lia.
    pose proof (Z.div_mod (Z.of_nat k) 8 ltac:(lia)).
    pose proof (Z.mod_pos_bound (Z.of_nat k) 8 ltac:(lia)).
    assert (0 ≤ Z.of_nat k / 8) by (apply Z.div_pos; lia).
    case_bool_decide as Hlt; case_bool_decide as Hspecial.
    - replace (0 + Z.of_nat k / 8 * 64 + Z.of_nat k mod 8) with 0 by lia.
      rewrite HA0. vm_compute. reflexivity.
    - rewrite HAz by lia. vm_compute. reflexivity.
    - replace (- 2 ^ 32 + Z.of_nat k / 8 * 64 + Z.of_nat k mod 8) with 0 by lia.
      rewrite HA0. vm_compute. reflexivity.
    - rewrite HAz by lia. vm_compute. reflexivity. }
  rewrite !fsum_add, !fsum_1.
  rewrite (fsum_zero_terms _ 7).
  - rewrite (fsum_zero_terms _ N1).
    + rewrite !Hterm by lia.
      rewrite bool_decide_true by lia. rewrite bool_decide_true by lia.
      vm_compute. reflexivity.
    + intros k Hk. rewrite Hterm by lia. by rewrite bool_decide_false by lia.
    + rewrite Hterm by lia. vm_compute. reflexivity.
  - intros k Hk. rewrite Hterm by lia. by rewrite bool_decide_false by lia.
  - rewrite (fsum_zero_terms _ N1).
    + rewrite !Hterm by lia.
      rewrite bool_decide_true by lia. rewrite bool_decide_true by lia.
      vm_compute. reflexivity.
    + intros k Hk. rewrite Hterm by lia. by rewrite bool_decide_false by lia.
    + rewrite Hterm by lia. vm_compute. reflexivity.
Qed.

Lemma wrapped_naive_sum (A B : list scalar_t) (n : Z) :
  n = 2 ^ 29 + 8 →
  rd A 0 = f32 1 → (∀ z, 0 < z < 2 ^ 32 → rd A z = f32 0) →
  (∀ z, 0 ≤ z < 2 ^ 32 → rd B z = f32 1) →
  dot32 A B n 8 0 0 = f32 1.
Proof.
  intros Hn HA0 HAz HB. unfold dot32.
  assert (∃ N1 : nat, Z.of_nat N1 = 2 ^ 29 + 7) as [N1 HN1]
    by (exists (Z.to_nat (2 ^ 29 + 7)); lia).
  replace (Z.to_nat n) with (1 + N1)%nat by lia.
  rewrite fsum_add, fsum_1. rewrite fsum_zero_terms.
  - change (Z.of_nat 0) with 0. rewrite Z.mul_0_l, !Z.add_0_l.
    rewrite (HB _ (u32_range _)). change (u32 0) with 0. rewrite HA0.
    vm_compute. reflexivity.
  - intros k Hk. rewrite (HB _ (u32_range _)).
    change (Z.of_nat 0) with 0. rewrite Z.mul_0_l, !Z.add_0_l.
    rewrite u32_id by lia. rewrite HAz by lia. vm_compute. reflexivity.
  - change (Z.of_nat 0) with 0. rewrite Z.mul_0_l, !Z.add_0_l.
    rewrite (HB _ (u32_range _)). change (u32 0) with 0. rewrite HA0.
    vm_compute. reflexivity.
Qed.

Lemma not_close_2_1 : ¬ rel_close (f32 2) (f32 1).
Proof.
  intros [H|(zx & zy & Hx & Hy & Hlt)]; [vm_compute in H; discriminate|].
  vm_compute in Hx, Hy. injection Hx as <-. injection Hy as <-.
  vm_compute in Hlt. discriminate.
Qed.

(** The two kernels far from the range of [uint32_t] indices. *)
Lemma tiled_and_naive_wrap v a b out (A B O : list scalar_t) (n : Z) st :
  vectors_aligned v 1 1 →
  a ≠ out → b ≠ out →
  heap st !! a = Some A → heap st !! b = Some B → heap st !! out = Some O →
  n = 2 ^ 29 + 8 →
  Z.of_nat (length A) = 8 * n → Z.of_nat (length B) = n * 8 →
  Z.of_nat (length O) = 8 * 8 →
  rd A 0 = f32 1 → (∀ z, 0 < z < 2 ^ 32 → rd A z = f32 0) →
  (∀ z, 0 ≤ z < 2 ^ 32 → rd B z = f32 1) →
  ∃ stT stN OT' OR',
    MatmulTiled v a b out 8 n 8 st = Some (tt, stT)
    ∧ Matmul a b out 8 n 8 st = Some (tt, stN)
    ∧ heap stT !! out = Some OT'
    ∧ heap stN !! out = Some OR'
    ∧ OT' !! Z.to_nat (tiled_index 8 0 0) = Some (f32 2)
    ∧ OR' !! Z.to_nat (0 * 8 + 0) = Some (f32 1).
Proof.
  intros Hal Hao Hbo Ha Hb Ho Hn HlA HlB HlO HA0 HAz HB.
  destruct (MatmulTiled_run v a b out A B O st 8 n 8) as (stT & HrunT & HhT);
    try done; try lia.
  { change (8 / TILE * 8 * TILE) with 64. lia. }
  { intros i j K q _ _ _ _. split.
    - pose proof (u32_range (Z.of_nat i * n * TILE + Z.of_nat K * TILE * TILE
                             + Z.of_nat q)). lia.
    - pose proof (u32_range (Z.of_nat K * 8 * TILE + Z.of_nat j * TILE * TILE
                             + Z.of_nat q)). lia. }
  destruct (Matmul_run a b out A B O st 8 n 8) as (stN & HrunN & HhN);
    try done; try lia.
  { intros i j k _ _ _. split.
    - pose proof (u32_range (Z.of_nat i * n + Z.of_nat k)). lia.
    - pose proof (u32_range (Z.of_nat k * 8 + Z.of_nat j)). lia. }
  destruct (lookup_lt_is_Some_2 O 0%nat ltac:(lia)) as [o Ho0].
  eexists stT, stN, _, _. split; [exact HrunT|]. split; [exact HrunN|].
  split; [rewrite HhT; apply lookup_insert_eq|].
  split; [rewrite HhN; apply lookup_insert_eq|].
  change (Z.to_nat (tiled_index 8 0 0)) with 0%nat.
  change (Z.to_nat (0 * 8 + 0)) with 0%nat.
  rewrite !lookup_patch, Ho0. cbn [fmap option_fmap option_map].
  change (Z.to_nat (8 / TILE)) with 1%nat. change (Z.to_nat 8) with 8%nat.
  rewrite !bool_decide_true by lia. split; f_equal.
  - pose proof (tiled_cell_at A B n 8 0 0 ltac:(lia)) as Hcell.
    change (Z.to_nat (tiled_index 8 (Z.of_nat 0) (Z.of_nat 0))) with 0%nat in Hcell.
    rewrite Hcell; [|subst n; reflexivity|reflexivity|lia].
    by apply wrapped_tiled_sum.
  - change (0 / 8)%nat with 0%nat. change (0 mod 8)%nat with 0%nat.
    by apply wrapped_naive_sum.
Qed.

(** The two layouts of a matrix with a single 1 in its first cell and of a
    matrix of ones coincide, and the two kernels differ on them. *)
Lemma tiled_and_naive_differ v (n : Z) (M N : nat) (O : list scalar_t) :
  vectors_aligned v 1 1 →
  n = 2 ^ 29 + 8 → Z.of_nat M = 8 * n - 1 → Z.of_nat N = n * 8 →
  Z.of_nat (length O) = 8 * 8 →
  n mod TILE = 0
  ∧ Z.of_nat (length (f32 1 :: replicate M (f32 0))) = 8 * n
  ∧ Z.of_nat (length (replicate N (f32 1))) = n * 8
  ∧ Z.of_nat (length O) = 8 * 8
  ∧ (∀ i k : nat, Z.of_nat i < 8 → Z.of_nat k < n →
       (f32 1 :: replicate M (f32 0)) !! Z.to_nat (Z.of_nat i * n + Z.of_nat k)
       = (f32 1 :: replicate M (f32 0))
           !! Z.to_nat (tiled_index n (Z.of_nat i) (Z.of_nat k)))
  ∧ (∀ k j : nat, Z.of_nat k < n → Z.of_nat j < 8 →
       replicate N (f32 1) !! Z.to_nat (Z.of_nat k * 8 + Z.of_nat j)
       = replicate N (f32 1) !! Z.to_nat (tiled_index 8 (Z.of_nat k) (Z.of_nat j)))
  ∧ ∃ stT stN OT' OR',
      MatmulTiled v 0%nat 1%nat 2%nat 8 n 8
        (mem3 (f32 1 :: replicate M (f32 0)) (replicate N (f32 1)) O) = Some (tt, stT)
      ∧ Matmul 0%nat 1%nat 2%nat 8 n 8
          (mem3 (f32 1 :: replicate M (f32 0)) (replicate N (f32 1)) O) = Some (tt, stN)
      ∧ heap stT !! 2%nat = Some OT'
      ∧ heap stN !! 2%nat = Some OR'
      ∧ OT' !! Z.to_nat (tiled_index 8 0 0) = Some (f32 2)
      ∧ OR' !! Z.to_nat (0 * 8 + 0) = Some (f32 1)
      ∧ ¬ rel_close (f32 2) (f32 1).
Proof.
  intros Hal Hn HM HN HlO.
  set (A := f32 1 :: replicate M (f32 0)). set (B := replicate N (f32 1)).
  assert (Hnmod : n mod TILE = 0) by (subst n; reflexivity).
  assert (HlA : Z.of_nat (length A) = 8 * n).
  { unfold A. cbn [length]. rewrite length_replicate. lia. }
  assert (HlB : Z.of_nat (length B) = n * 8).
  { unfold B. rewrite length_replicate. lia. }
  assert (HA0 : A !! 0%nat = Some (f32 1)) by reflexivity.
  assert (HAz : ∀ z : nat, 0 < Z.of_nat z < 8 * n → A !! z = Some (f32 0)).
  { intros z Hz. unfold A. destruct z as [|z]; [lia|].
    cbn [lookup list_lookup]. apply lookup_replicate_2. lia. }
  assert (HBz : ∀ z : nat, Z.of_nat z < n * 8 → B !! z = Some (f32 1)).
  { intros z Hz. unfold B. apply lookup_replicate_2. lia. }
  clearbody A B.
  split; [done|]. split; [done|]. split; [done|]. split; [done|].
  split; [|split].
  - intros i k Hi Hk.
    pose proof (tiled_index_bound 8 n (Z.of_nat i) (Z.of_nat k)
                  ltac:(lia) ltac:(lia) ltac:(reflexivity) Hnmod) as Hb.
    destruct (decide (i = 0%nat ∧ k = 0%nat)) as [[-> ->]|Hne].
    + change (Z.of_nat 0) with 0. rewrite Z.mul_0_l, Z.add_0_l.
      unfold tiled_index, TILE. change (0 / 8) with 0. change (0 mod 8) with 0.
      by rewrite !Z.mul_0_l.
    + rewrite !HAz; [done| |nia].
      unfold tiled_index, TILE in *.
      pose proof (Z.div_mod (Z.of_nat k) 8 ltac:(lia)).
      pose proof (Z.mod_pos_bound (Z.of_nat k) 8 ltac:(lia)).
      assert (0 ≤ Z.of_nat k / 8) by (apply Z.div_pos; lia).
      rewrite (Z.div_small (Z.of_nat i)), (Z.mod_small (Z.of_nat i)) in * by lia.
      lia.
  - intros k j Hk Hj.
    pose proof (tiled_index_bound n 8 (Z.of_nat k) (Z.of_nat j)
                  ltac:(lia) ltac:(lia) Hnmod ltac:(reflexivity)) as Hb.
    rewrite !HBz; [done|lia|lia].
  - destruct (tiled_and_naive_wrap v 0%nat 1%nat 2%nat A B O n (mem3 A B O))
      as (stT & stN & OT' & OR' & H1 & H2 & H3 & H4 & H5 & H6).
    + exact Hal.
    + lia.
    + lia.
    + unfold mem3. cbn [heap]. apply lookup_insert_eq.
    + unfold mem3. cbn [heap]. rewrite lookup_insert_ne by lia. apply lookup_insert_eq.
    + unfold mem3. cbn [heap]. rewrite !lookup_insert_ne by lia. apply lookup_insert_eq.
    + exact Hn.
    + exact HlA.
    + exact HlB.
    + exact HlO.
    + unfold rd, vget. rewrite bool_decide_true by lia.
      change (Z.to_nat 0) with 0%nat. by rewrite HA0.
    + intros z Hz. unfold rd, vget. rewrite bool_decide_true by lia.
      rewrite HAz by lia. done.
    + intros z Hz. unfold rd, vget. rewrite bool_decide_true by lia.
      rewrite HBz by lia. done.
    + exists stT, stN, OT', OR'. repeat (split; [assumption|]).
      exact not_close_2_1.
Qed.

(** Beyond 2^32 cells the two kernels differ, aligned vectors or not: for
    [m = p = 8] and [n = 2^29 + 8], with a single 1 in the first cell of the
    first matrix and ones in the second, the [uint32_t] index of
    [MatmulTiled] for the reduction block [2^26] is that of block 0, so that
    cell [(0, 0)] ends with 2, while [Matmul] stores 1. *)
Lemma MatmulTiled_differs_beyond_uint32 :
  let n := 536870920 in
  let A := f32 1 :: replicate (Z.to_nat (8 * n - 1)) (f32 0) in
  let B := replicate (Z.to_nat (n * 8)) (f32 1) in
  let O := replicate 64 (f32 0) in
  n mod TILE = 0
  ∧ Z.of_nat (length A) = 8 * n ∧ Z.of_nat (length B) = n * 8
  ∧ Z.of_nat (length O) = 8 * 8
  ∧ (∀ i k : nat, Z.of_nat i < 8 → Z.of_nat k < n →
       A !! Z.to_nat (Z.of_nat i * n + Z.of_nat k)
       = A !! Z.to_nat (tiled_index n (Z.of_nat i) (Z.of_nat k)))
  ∧ (∀ k j : nat, Z.of_nat k < n → Z.of_nat j < 8 →
       B !! Z.to_nat (Z.of_nat k * 8 + Z.of_nat j)
       = B !! Z.to_nat (tiled_index 8 (Z.of_nat k) (Z.of_nat j)))
  ∧ ∃ stT stN OT' OR',
      MatmulTiled (Vectors 4096 4384 (λ _ _, 4672)) 0%nat 1%nat 2%nat 8 n 8
        (mem3 A B O) = Some (tt, stT)
      ∧ Matmul 0%nat 1%nat 2%nat 8 n 8 (mem3 A B O) = Some (tt, stN)
      ∧ heap stT !! 2%nat = Some OT'
      ∧ heap stN !! 2%nat = Some OR'
      ∧ OT' !! Z.to_nat (tiled_index 8 0 0) = Some (f32 2)
      ∧ OR' !! Z.to_nat (0 * 8 + 0) = Some (f32 1)
      ∧ ¬ rel_close (f32 2) (f32 1).
Proof.
  exact (tiled_and_naive_differ (Vectors 4096 4384 (λ _ _, 4672)) 536870920
           (Z.to_nat (8 * 536870920 - 1)) (Z.to_nat (536870920 * 8))
           (replicate 64 (f32 0))
           (conj eq_refl (conj eq_refl (λ _ _ _ _, eq_refl)))
           eq_refl
           (Z2Nat.id (8 * 536870920 - 1) ltac:(discriminate))
           (Z2Nat.id (536870920 * 8) ltac:(discriminate))
           eq_refl).
Qed.

(** ** The index walker enumerates the shape *)

Lemma walk_S shape n :
  walk shape (S n) = walk shape n ≫= updateIndices shape.
Proof. done. Qed.

Lemma walk_unravel shape (n : nat) :
  shape ≠ [] → Forall axis shape → Z.of_nat n < product shape →
  walk shape n = Some (unravel shape (Z.of_nat n)).
Proof.
  intros Hne Hax. induction n as [|n IH]; intros Hn.
  - unfold walk. simpl. by rewrite unravel_0.
  - rewrite walk_S, IH by lia. simpl.
    rewrite Nat2Z.inj_succ, <- Z.add_1_r.
    apply updateIndices_unravel; try done; lia.
Qed.

(** The index walker enumerates the shape in row-major order.  For a shape
    of rank at least 1 with positive axis sizes, [n] calls of
    [updateIndices] from the zero tuple give the multi-index of row-major
    rank [n], for every [n] below the number of elements; so every
    multi-index of the shape is reached, after as many calls as its rank
    says, and no multi-index is reached twice. *)
Theorem walker_enumerates_row_major (shape : list Z) :
  shape ≠ [] → Forall axis shape →
  (∀ n : nat, Z.of_nat n < product shape →
      walk shape n = Some (unravel shape (Z.of_nat n))
      ∧ in_shape shape (unravel shape (Z.of_nat n))
      ∧ ravel shape (unravel shape (Z.of_nat n)) = Z.of_nat n)
  ∧ (∀ indices, in_shape shape indices →
      walk shape (Z.to_nat (ravel shape indices)) = Some indices)
  ∧ (∀ n n' : nat, Z.of_nat n < product shape → Z.of_nat n' < product shape →
      walk shape n = walk shape n' → n = n').
Proof.
  intros Hne Hax. split; [|split].
  - intros n Hn. split; [by apply walk_unravel|].
    apply unravel_in_shape; [done|lia].
  - intros indices Hin.
    destruct (ravel_in_shape shape indices Hin) as [Hr Hu].
    rewrite walk_unravel; [|done|done|lia].
    by rewrite Z2Nat.id, Hu by lia.
  - intros n n' Hn Hn' Heq.
    rewrite !walk_unravel in Heq by done.
    injection Heq as Heq.
    destruct (unravel_in_shape shape (Z.of_nat n) Hax ltac:(lia)) as [_ H1].
    destruct (unravel_in_shape shape (Z.of_nat n') Hax ltac:(lia)) as [_ H2].
    rewrite Heq in H1. lia.
Qed.

Lemma walker_enumerates_row_major_witness :
  walk [2; 3] 4 = Some [1; 1]
  ∧ walk [2; 3] (Z.to_nat (ravel [2; 3] [1; 2])) = Some [1; 2].
Proof.
  destruct (walker_enumerates_row_major [2; 3]) as (H1 & H2 & _).
  - discriminate.
  - repeat constructor; vm_compute; congruence.
  - split.
    + destruct (H1 4%nat) as (H & _); [reflexivity|exact H].
    + apply H2. repeat constructor; vm_compute; congruence.
Defined.

(** ** Scattered writes *)

Lemma scatter_S X loc val n :
  scatter X loc val (S n) = <[Z.to_nat (loc n) := val n]> (scatter X loc val n).
Proof. unfold scatter. by rewrite seq_S, foldl_app. Qed.

Lemma length_scatter X loc val n : length (scatter X loc val n) = length X.
Proof.
  induction n as [|n IH]; [done|]. by rewrite scatter_S, length_insert.
Qed.

(** A position keeps what the last write to it stored. *)
Lemma scatter_lookup_last X loc val n (i : nat) :
  (i < n)%nat → (Z.to_nat (loc i) < length X)%nat →
  (∀ j, (i < j < n)%nat → Z.to_nat (loc j) ≠ Z.to_nat (loc i)) →
  scatter X loc val n !! Z.to_nat (loc i) = Some (val i).
Proof.
  induction n as [|n IH]; intros Hi Hb Hlast; [lia|].
  rewrite scatter_S.
  destruct (decide (i = n)) as [->|Hne].
  - apply list_lookup_insert_eq. by rewrite length_scatter.
  - rewrite list_lookup_insert_ne by (apply Hlast; lia).
    apply IH; [lia|done|]. intros j Hj. apply Hlast. lia.
Qed.

(** A position that no write goes to keeps its element. *)
Lemma scatter_lookup_frame X loc val n (r : nat) :
  (∀ i, (i < n)%nat → Z.to_nat (loc i) ≠ r) →
  scatter X loc val n !! r = X !! r.
Proof.
  induction n as [|n IH]; intros Hr; [done|].
  rewrite scatter_S, list_lookup_insert_ne by (apply Hr; lia).
  apply IH. intros i Hi. apply Hr. lia.
Qed.

Lemma scatter_lookup_const X loc v n (i : nat) :
  (i < n)%nat → (Z.to_nat (loc i) < length X)%nat →
  scatter X loc (λ _, v) n !! Z.to_nat (loc i) = Some v.
Proof.
  induction n as [|n IH]; intros Hi Hb; [lia|].
  rewrite scatter_S.
  destruct (decide (Z.to_nat (loc n) = Z.to_nat (loc i))) as [->|Hne].
  - apply list_lookup_insert_eq. by rewrite length_scatter.
  - rewrite list_lookup_insert_ne by done.
    apply IH; [|done]. destruct (decide (i = n)) as [->|]; [done|lia].
Qed.

Lemma EwiseSetitem_run a out shape strides offset Cv Bv st :
  a ≠ out → heap st !! a = Some Cv → heap st !! out = Some Bv →
  shape ≠ [] → Forall axis shape → length strides = length shape →
  Z.of_nat (length Cv) = product shape →
  view_in_bounds shape strides offset (length Bv) →
  ∃ st', EwiseSetitem a out shape strides offset st = Some (tt, st')
    ∧ heap st' = <[out := scatter Bv (view_location shape strides offset)
                            (λ i, rd Cv (Z.of_nat i)) (length Cv)]> (heap st).
Proof.
  intros Hne Ha Ho Hshape Hax Hstr Hlen Hb.
  unfold EwiseSetitem. rewrite (bind_Some _ _ _ _ _ (size_run _ _ _ Ha)).
  destruct (for_inv
    (λ k indices st',
       heap st' = <[out := scatter Bv (view_location shape strides offset)
                             (λ i, rd Cv (Z.of_nat i)) k]> (heap st)
       ∧ length indices = length shape
       ∧ ((k < length Cv)%nat → indices = unravel shape (Z.of_nat k)))
    (length Cv)
    (λ i indices_vector,
       loc ← lift (getLocation strides offset indices_vector);
       v ← load a (Z.of_nat i);
       _ ← store out loc v;
       lift (updateIndices shape indices_vector))
    (replicate (length shape) 0) st) as (idx & st' & Hrun & HI & _ & _).
  - split; [by rewrite insert_id|]. split; [by rewrite length_replicate|].
    intros _; by rewrite unravel_0.
  - intros k idx st1 Hk (HI & Hlidx & Hidx).
    specialize (Hidx Hk). subst idx.
    destruct (unravel_in_shape shape (Z.of_nat k) Hax ltac:(lia)) as [Hin _].
    pose proof (Hb _ Hin) as Hloc.
    destruct (walker_step shape k Hshape Hax) as (idx' & Hupd & Hlidx' & Hnext).
    exists idx'. eexists. split.
    + erewrite bind_Some; [|apply lift_Some, getLocation_location; lia].
      erewrite bind_Some;
        [|eapply load_run; [by rewrite HI, lookup_insert_ne|apply rd_lookup; lia]].
      erewrite bind_Some; [|eapply store_run; cbn [heap trace];
        [rewrite HI; apply lookup_insert_eq
        |apply vset_Some; rewrite length_scatter; lia]].
      by apply lift_Some.
    + cbn [heap trace]. split; [|split; [done|]].
      * by rewrite HI, insert_insert_eq, scatter_S.
      * intros HSk. apply Hnext. lia.
  - exists st'. by rewrite (bind_Some _ _ _ _ _ Hrun).
Qed.

Lemma ScalarSetitem_run val out shape strides offset Bv st :
  heap st !! out = Some Bv →
  shape ≠ [] → Forall axis shape → length strides = length shape →
  view_in_bounds shape strides offset (length Bv) →
  ∃ st', ScalarSetitem (product shape) val out shape strides offset st = Some (tt, st')
    ∧ heap st' = <[out := scatter Bv (view_location shape strides offset)
                            (λ _, val) (Z.to_nat (product shape))]> (heap st).
Proof.
  intros Ho Hshape Hax Hstr Hb.
  pose proof (product_pos _ Hax) as Hpos.
  unfold ScalarSetitem.
  destruct (for_inv
    (λ k indices st',
       heap st' = <[out := scatter Bv (view_location shape strides offset)
                             (λ _, val) k]> (heap st)
       ∧ length indices = length shape
       ∧ ((k < Z.to_nat (product shape))%nat → indices = unravel shape (Z.of_nat k)))
    (Z.to_nat (product shape))
    (λ i indices_vector,
       loc ← lift (getLocation strides offset indices_vector);
       _ ← store out loc val;
       lift (updateIndices shape indices_vector))
    (replicate (length shape) 0) st) as (idx & st' & Hrun & HI & _ & _).
  - split; [by rewrite insert_id|]. split; [by rewrite length_replicate|].
    intros _; by rewrite unravel_0.
  - intros k idx st1 Hk (HI & Hlidx & Hidx).
    specialize (Hidx Hk). subst idx.
    destruct (unravel_in_shape shape (Z.of_nat k) Hax ltac:(lia)) as [Hin _].
    pose proof (Hb _ Hin) as Hloc.
    destruct (walker_step shape k Hshape Hax) as (idx' & Hupd & Hlidx' & Hnext).
    exists idx'. eexists. split.
    + erewrite bind_Some; [|apply lift_Some, getLocation_location; lia].
      erewrite bind_Some; [|eapply store_run; cbn [heap trace];
        [rewrite HI; apply lookup_insert_eq
        |apply vset_Some; rewrite length_scatter; lia]].
      by apply lift_Some.
    + cbn [heap trace]. split; [|split; [done|]].
      * by rewrite HI, insert_insert_eq, scatter_S.
      * intros HSk. apply Hnext. lia.
  - exists st'. by rewrite (bind_Some _ _ _ _ _ Hrun).
Qed.

(** ** ScalarSetitem and EwiseSetitem *)

Lemma view_location_ravel shape strides offset indices :
  in_shape shape indices →
  view_location shape strides offset (Z.to_nat (ravel shape indices))
  = location strides offset indices.
Proof.
  intros Hin. destruct (ravel_in_shape shape indices Hin) as [Hr Hu].
  unfold view_location. by rewrite Z2Nat.id, Hu by lia.
Qed.

Lemma view_location_in_bounds shape strides offset len (i : nat) :
  Forall axis shape → view_in_bounds shape strides offset len →
  Z.of_nat i < product shape →
  0 ≤ view_location shape strides offset i < Z.of_nat len.
Proof.
  intros Hax Hb Hi. apply Hb.
  by apply unravel_in_shape; [|lia].
Qed.

Lemma rd_nat (l : list scalar_t) (i : nat) :
  (i < length l)%nat → l !! i = Some (rd l (Z.of_nat i)).
Proof.
  intros Hi. destruct (lookup_lt_is_Some_2 l i Hi) as [x Hx].
  by rewrite (rd_nat_lookup _ _ _ Hx).
Qed.

(** An injective view gives distinct locations to distinct ranks. *)
Lemma injective_view_ranks shape strides offset (i j : nat) :
  Forall axis shape → injective_view shape strides offset →
  Z.of_nat i < product shape → Z.of_nat j < product shape →
  view_location shape strides offset i = view_location shape strides offset j →
  i = j.
Proof.
  intros Hax Hinj Hi Hj Heq.
  destruct (unravel_in_shape shape (Z.of_nat i) Hax ltac:(lia)) as [Hin1 Hr1].
  destruct (unravel_in_shape shape (Z.of_nat j) Hax ltac:(lia)) as [Hin2 Hr2].
  pose proof (Hinj _ _ Hin1 Hin2 Heq) as Hu.
  rewrite Hu in Hr1. lia.
Qed.

Lemma strided_view_in_bounds : view_in_bounds [2] [2] 1 4.
Proof.
  intros indices Hin.
  apply Forall2_cons_inv_r in Hin as (x & rest & Hx & Hin & ->).
  apply Forall2_nil_inv_r in Hin as ->.
  assert (Hxs : x = 0 ∨ x = 1) by lia.
  destruct Hxs as [->| ->]; vm_compute; split; congruence.
Defined.

Lemma strided_view_injective : injective_view [2] [2] 1.
Proof.
  intros i1 i2 Hin1 Hin2.
  apply Forall2_cons_inv_r in Hin1 as (x & rest & Hx & Hin1 & ->).
  apply Forall2_nil_inv_r in Hin1 as ->.
  apply Forall2_cons_inv_r in Hin2 as (y & rest & Hy & Hin2 & ->).
  apply Forall2_nil_inv_r in Hin2 as ->.
  assert (Hxs : x = 0 ∨ x = 1) by lia.
  assert (Hys : y = 0 ∨ y = 1) by lia.
  destruct Hxs as [->| ->], Hys as [->| ->]; vm_compute; congruence.
Defined.

(** [ScalarSetitem] fills a view and nothing else.  For a view of rank at
    least 1 with positive axis sizes whose locations all lie inside [out],
    called with [size] the number of elements of the shape: afterwards the
    location of every multi-index of the shape holds [val], every position
    of [out] that is the location of no multi-index keeps its element, [out]
    keeps its size and no other array changes. *)
Theorem ScalarSetitem_fills_the_view
    (val : scalar_t) (out : handle) (shape strides : list Z) (offset : Z)
    (Bv : list scalar_t) (st : state) :
  heap st !! out = Some Bv →
  shape ≠ [] → Forall axis shape → length strides = length shape →
  view_in_bounds shape strides offset (length Bv) →
  ∃ st' B',
    ScalarSetitem (product shape) val out shape strides offset st = Some (tt, st')
    ∧ heap st' = <[out := B']> (heap st)
    ∧ length B' = length Bv
    ∧ (∀ indices, in_shape shape indices →
         B' !! Z.to_nat (location strides offset indices) = Some val)
    ∧ (∀ r : nat,
         (∀ indices, in_shape shape indices →
                     Z.to_nat (location strides offset indices) ≠ r) →
         B' !! r = Bv !! r).
Proof.
  intros Ho Hshape Hax Hstr Hb.
  destruct (ScalarSetitem_run val out shape strides offset Bv st)
    as (st' & Hrun & Hh); try done.
  eexists st', _. split; [done|]. split; [done|].
  split; [apply length_scatter|]. split.
  - intros indices Hin.
    destruct (ravel_in_shape shape indices Hin) as [Hr _].
    rewrite <- (view_location_ravel shape strides offset indices Hin).
    apply scatter_lookup_const; [lia|].
    rewrite view_location_ravel by done. pose proof (Hb _ Hin). lia.
  - intros r Hr. apply scatter_lookup_frame. intros i Hi.
    apply Hr. apply unravel_in_shape; [done|lia].
Qed.

Lemma ScalarSetitem_fills_the_view_witness :
  ∃ st' B',
    ScalarSetitem (product [2]) (f32 7) 0%nat [2] [2] 1
      (mem3 (f32 <$> [1; 2; 3; 4]) [] []) = Some (tt, st')
    ∧ heap st' = <[0%nat := B']> (heap (mem3 (f32 <$> [1; 2; 3; 4]) [] []))
    ∧ B' !! 3%nat = Some (f32 7).
Proof.
  destruct (ScalarSetitem_fills_the_view (f32 7) 0%nat [2] [2] 1
              (f32 <$> [1; 2; 3; 4]) (mem3 (f32 <$> [1; 2; 3; 4]) [] []))
    as (st' & B' & H1 & H2 & _ & H4 & _).
  - reflexivity.
  - discriminate.
  - repeat constructor; vm_compute; congruence.
  - reflexivity.
  - exact strided_view_in_bounds.
  - exists st', B'. split; [exact H1|]. split; [exact H2|].
    apply (H4 [1]). repeat constructor; vm_compute; congruence.
Defined.

(** [EwiseSetitem] scatters [a] over a view, the last write winning.  For a
    view of rank at least 1 with positive axis sizes whose locations all lie
    inside [out], and a distinct array [a] of as many elements as the shape
    has: afterwards the location of a multi-index holds the element of [a]
    at the row-major rank of that multi-index, provided no multi-index of
    higher rank resolves to the same location (none does when the view is
    injective); every position of [out] that is the location of no
    multi-index keeps its element. *)
Theorem EwiseSetitem_scatters_in_row_major_order
    (a out : handle) (shape strides : list Z) (offset : Z)
    (Cv Bv : list scalar_t) (st : state) :
  a ≠ out → heap st !! a = Some Cv → heap st !! out = Some Bv →
  shape ≠ [] → Forall axis shape → length strides = length shape →
  Z.of_nat (length Cv) = product shape →
  view_in_bounds shape strides offset (length Bv) →
  ∃ st' B',
    EwiseSetitem a out shape strides offset st = Some (tt, st')
    ∧ heap st' = <[out := B']> (heap st)
    ∧ length B' = length Bv
    ∧ (∀ indices, in_shape shape indices →
         (∀ later, in_shape shape later →
                   ravel shape indices < ravel shape later →
                   location strides offset later ≠ location strides offset indices) →
         B' !! Z.to_nat (location strides offset indices)
         = Cv !! Z.to_nat (ravel shape indices))
    ∧ (injective_view shape strides offset →
       ∀ indices, in_shape shape indices →
         B' !! Z.to_nat (location strides offset indices)
         = Cv !! Z.to_nat (ravel shape indices))
    ∧ (∀ r : nat,
         (∀ indices, in_shape shape indices →
                     Z.to_nat (location strides offset indices) ≠ r) →
         B' !! r = Bv !! r).
Proof.
  intros Hne Ha Ho Hshape Hax Hstr Hlen Hb.
  destruct (EwiseSetitem_run a out shape strides offset Cv Bv st)
    as (st' & Hrun & Hh); try done.
  assert (Hlast : ∀ indices, in_shape shape indices →
    (∀ later, in_shape shape later →
              ravel shape indices < ravel shape later →
              location strides offset later ≠ location strides offset indices) →
    scatter Bv (view_location shape strides offset) (λ i, rd Cv (Z.of_nat i))
            (length Cv) !! Z.to_nat (location strides offset indices)
    = Cv !! Z.to_nat (ravel shape indices)).
  { intros indices Hin Hl.
    destruct (ravel_in_shape shape indices Hin) as [Hr _].
    rewrite <- (view_location_ravel shape strides offset indices Hin).
    rewrite scatter_lookup_last.
    - symmetry. apply rd_nat. lia.
    - lia.
    - rewrite view_location_ravel by done. pose proof (Hb _ Hin). lia.
    - intros j Hj.
      destruct (unravel_in_shape shape (Z.of_nat j) Hax ltac:(lia)) as [Hinj Hrj].
      rewrite view_location_ravel by done.
      pose proof (Hb _ Hin). pose proof (Hb _ Hinj).
      specialize (Hl _ Hinj ltac:(lia)). unfold view_location. lia. }
  eexists st', _. split; [done|]. split; [done|].
  split; [apply length_scatter|]. split; [exact Hlast|]. split.
  - intros Hinj indices Hin. apply Hlast; [done|].
    intros later Hlater Hlt Heq.
    rewrite (Hinj _ _ Hlater Hin Heq) in Hlt. lia.
  - intros r Hr. apply scatter_lookup_frame. intros i Hi.
    apply Hr. apply unravel_in_shape; [done|lia].
Qed.

Lemma EwiseSetitem_scatters_in_row_major_order_witness :
  ∃ st' B',
    EwiseSetitem 1%nat 0%nat [2] [2] 1
      (mem3 (f32 <$> [1; 2; 3; 4]) (f32 <$> [8; 9]) []) = Some (tt, st')
    ∧ heap st' = <[0%nat := B']>
                   (heap (mem3 (f32 <$> [1; 2; 3; 4]) (f32 <$> [8; 9]) []))
    ∧ B' !! 3%nat = Some (f32 9)
    ∧ B' !! 2%nat = Some (f32 3).
Proof.
  destruct (EwiseSetitem_scatters_in_row_major_order 1%nat 0%nat [2] [2] 1
              (f32 <$> [8; 9]) (f32 <$> [1; 2; 3; 4])
              (mem3 (f32 <$> [1; 2; 3; 4]) (f32 <$> [8; 9]) []))
    as (st' & B' & H1 & H2 & _ & _ & H5 & H6).
  - discriminate.
  - reflexivity.
  - reflexivity.
  - discriminate.
  - repeat constructor; vm_compute; congruence.
  - reflexivity.
  - reflexivity.
  - exact strided_view_in_bounds.
  - exists st', B'. split; [exact H1|]. split; [exact H2|]. split.
    + apply (H5 strided_view_injective [1]).
      repeat constructor; vm_compute; congruence.
    + rewrite (H6 2%nat); [reflexivity|].
      intros indices Hin.
      apply Forall2_cons_inv_r in Hin as (x & rest & Hx & Hin & ->).
      apply Forall2_nil_inv_r in Hin as ->.
      assert (Hxs : x = 0 ∨ x = 1) by lia.
      destruct Hxs as [->| ->]; vm_compute; congruence.
Defined.

(** ** Writing a view and reading it back *)

Lemma rd_vget (l : list scalar_t) (z : Z) x :
  0 ≤ z → l !! Z.to_nat z = Some x → rd l z = x.
Proof. intros Hz Hx. unfold rd. by rewrite (vget_Some _ _ _ Hz Hx). Qed.

(** Writing a compact array into an injective view and reading the view
    back returns the array.  For a view of rank at least 1 with positive
    axis sizes, all locations inside [b] and distinct for distinct
    multi-indices, an array [c] of as many elements as the shape has and a
    destination [d] of the same size ([c] itself is allowed):
    [EwiseSetitem] from [c] into the view followed by [Compact] of the view
    into [d] leaves [d] with the contents of [c]. *)
Theorem EwiseSetitem_Compact_round_trip
    (c b d : handle) (shape strides : list Z) (offset : Z)
    (Cv Bv Dv : list scalar_t) (st : state) :
  c ≠ b → b ≠ d →
  heap st !! c = Some Cv → heap st !! b = Some Bv → heap st !! d = Some Dv →
  shape ≠ [] → Forall axis shape → length strides = length shape →
  Z.of_nat (length Cv) = product shape → Z.of_nat (length Dv) = product shape →
  view_in_bounds shape strides offset (length Bv) →
  injective_view shape strides offset →
  ∃ st1 st2,
    EwiseSetitem c b shape strides offset st = Some (tt, st1)
    ∧ Compact b d shape strides offset st1 = Some (tt, st2)
    ∧ heap st2 !! d = Some Cv.
Proof.
  intros Hcb Hbd Hc Hb Hd Hshape Hax Hstr HlC HlD Hbounds Hinj.
  destruct (EwiseSetitem_run c b shape strides offset Cv Bv st)
    as (st1 & Hrun1 & Hh1); try done.
  set (loc := view_location shape strides offset) in *.
  set (B' := scatter Bv loc (λ i, rd Cv (Z.of_nat i)) (length Cv)) in *.
  destruct (Compact_run b d shape strides offset B' Dv st1)
    as (st2 & Hrun2 & Hh2 & _); try done.
  { rewrite Hh1. apply lookup_insert_eq. }
  { by rewrite Hh1, lookup_insert_ne. }
  { unfold B'. by rewrite length_scatter. }
  exists st1, st2. split; [done|]. split; [done|].
  rewrite Hh2, lookup_insert_eq. f_equal.
  apply list_eq. intros i. fold loc.
  rewrite list_lookup_fmap.
  destruct (decide (i < length Cv)%nat) as [Hi|Hi].
  - rewrite lookup_seq_lt by lia. simpl.
    pose proof (view_location_in_bounds shape strides offset _ i Hax Hbounds
                  ltac:(lia)) as Hloc. fold loc in Hloc.
    rewrite (rd_nat Cv i Hi). f_equal.
    apply rd_vget; [lia|]. unfold B'.
    apply (scatter_lookup_last Bv loc (λ i, rd Cv (Z.of_nat i))); [done|lia|].
    intros j Hj Heq.
    pose proof (view_location_in_bounds shape strides offset _ j Hax Hbounds
                  ltac:(lia)) as Hlocj. fold loc in Hlocj.
    assert (i = j); [|lia].
    apply (injective_view_ranks shape strides offset); try done; try lia.
    fold loc. lia.
  - rewrite lookup_seq_ge by lia. simpl. symmetry.
    apply lookup_ge_None. lia.
Qed.

Lemma EwiseSetitem_Compact_round_trip_witness :
  ∃ st1 st2,
    EwiseSetitem 1%nat 0%nat [2] [2] 1
      (mem3 (f32 <$> [1; 2; 3; 4]) (f32 <$> [8; 9]) (f32 <$> [0; 0]))
    = Some (tt, st1)
    ∧ Compact 0%nat 2%nat [2] [2] 1 st1 = Some (tt, st2)
    ∧ heap st2 !! 2%nat = Some (f32 <$> [8; 9]).
Proof.
  apply (EwiseSetitem_Compact_round_trip 1%nat 0%nat 2%nat [2] [2] 1
           (f32 <$> [8; 9]) (f32 <$> [1; 2; 3; 4]) (f32 <$> [0; 0])).
  - discriminate.
  - discriminate.
  - reflexivity.
  - reflexivity.
  - reflexivity.
  - discriminate.
  - repeat constructor; vm_compute; congruence.
  - reflexivity.
  - reflexivity.
  - reflexivity.
  - exact strided_view_in_bounds.
  - exact strided_view_injective.
Defined.

(** Reading back a view that [ScalarSetitem] filled gives [val] everywhere.
    For a view of rank at least 1 with positive axis sizes and all locations
    inside [b], and another array [d] of as many elements as the shape has:
    [ScalarSetitem] of [val] into the view followed by [Compact] of the view
    into [d] leaves [d] with [val] at every position. *)
Theorem ScalarSetitem_then_Compact
    (val : scalar_t) (b d : handle) (shape strides : list Z) (offset : Z)
    (Bv Dv : list scalar_t) (st : state) :
  b ≠ d → heap st !! b = Some Bv → heap st !! d = Some Dv →
  shape ≠ [] → Forall axis shape → length strides = length shape →
  Z.of_nat (length Dv) = product shape →
  view_in_bounds shape strides offset (length Bv) →
  ∃ st1 st2,
    ScalarSetitem (product shape) val b shape strides offset st = Some (tt, st1)
    ∧ Compact b d shape strides offset st1 = Some (tt, st2)
    ∧ heap st2 !! d = Some (replicate (length Dv) val).
Proof.
  intros Hbd Hb Hd Hshape Hax Hstr HlD Hbounds.
  destruct (ScalarSetitem_run val b shape strides offset Bv st)
    as (st1 & Hrun1 & Hh1); try done.
  set (loc := view_location shape strides offset) in *.
  set (B' := scatter Bv loc (λ _, val) (Z.to_nat (product shape))) in *.
  destruct (Compact_run b d shape strides offset B' Dv st1)
    as (st2 & Hrun2 & Hh2 & _); try done.
  { rewrite Hh1. apply lookup_insert_eq. }
  { by rewrite Hh1, lookup_insert_ne. }
  { unfold B'. by rewrite length_scatter. }
  exists st1, st2. split; [done|]. split; [done|].
  rewrite Hh2, lookup_insert_eq. f_equal.
  apply list_eq. intros i. fold loc.
  rewrite list_lookup_fmap.
  destruct (decide (i < length Dv)%nat) as [Hi|Hi].
  - rewrite lookup_seq_lt, lookup_replicate_2 by lia. simpl.
    pose proof (view_location_in_bounds shape strides offset _ i Hax Hbounds
                  ltac:(lia)) as Hloc. fold loc in Hloc.
    f_equal. apply rd_vget; [lia|]. unfold B'.
    apply scatter_lookup_const; lia.
  - rewrite lookup_seq_ge by lia. simpl. symmetry.
    apply lookup_ge_None. rewrite length_replicate. lia.
Qed.

Lemma ScalarSetitem_then_Compact_witness :
  ∃ st1 st2,
    ScalarSetitem (product [2; 3]) (f32 7) 0%nat [2; 3] [1; 2] 0
      (mem3 (f32 <$> [1; 2; 3; 4; 5; 6]) (f32 <$> [0; 0; 0; 0; 0; 0]) [])
    = Some (tt, st1)
    ∧ Compact 0%nat 1%nat [2; 3] [1; 2] 0 st1 = Some (tt, st2)
    ∧ heap st2 !! 1%nat = Some (replicate 6 (f32 7)).
Proof.
  destruct (ScalarSetitem_then_Compact (f32 7) 0%nat 1%nat [2; 3] [1; 2] 0
           (f32 <$> [1; 2; 3; 4; 5; 6]) (f32 <$> [0; 0; 0; 0; 0; 0])
           (mem3 (f32 <$> [1; 2; 3; 4; 5; 6]) (f32 <$> [0; 0; 0; 0; 0; 0]) []))
    as (st1 & st2 & H1 & H2 & H3).
  - discriminate.
  - reflexivity.
  - reflexivity.
  - discriminate.
  - repeat constructor; vm_compute; congruence.
  - reflexivity.
  - reflexivity.
  - exact transposed_view_in_bounds.
  - exists st1, st2. split; [exact H1|]. split; [exact H2|exact H3].
Defined.

(** ** Compact strides *)

Lemma length_compact_strides shape : length (compact_strides shape) = length shape.
Proof. induction shape as [|s shape IH]; simpl; [done|by rewrite IH]. Qed.

Lemma ravel_acc shape : ∀ indices acc,
  length indices = length shape →
  foldl (λ acc sx, acc * sx.1 + sx.2) acc (zip shape indices)
  = acc * product shape + ravel shape indices.
Proof.
  unfold ravel.
  induction shape as [|s shape IH]; intros [|x indices] acc Hlen; try done.
  - simpl. lia.
  - cbn [zip zip_with foldl fst snd product foldr].
    rewrite (IH indices (acc * s + x)), (IH indices (0 * s + x)) by (simpl in Hlen; lia).
    fold (product shape). ring.
Qed.

Lemma location_exact_acc strides indices : ∀ offset,
  location_exact strides offset indices
  = offset + location_exact strides 0 indices.
Proof.
  unfold location_exact.
  induction (zip strides indices) as [|[s x] l IH]; intros offset.
  - simpl. lia.
  - cbn [foldl fst snd]. rewrite (IH (offset + s * x)), (IH (0 + s * x)). lia.
Qed.

(** With compact strides the exact location is the offset plus the
    row-major rank. *)
Lemma location_exact_compact shape : ∀ indices offset,
  length indices = length shape →
  location_exact (compact_strides shape) offset indices
  = offset + ravel shape indices.
Proof.
  induction shape as [|s shape IH]; intros [|x indices] offset Hlen; try done.
  - unfold location_exact, ravel. simpl. lia.
  - rewrite location_exact_acc.
    unfold location_exact, ravel.
    cbn [compact_strides zip zip_with foldl fst snd].
    fold (location_exact (compact_strides shape) (0 + product shape * x) indices).
    rewrite IH by (simpl in Hlen; lia).
    rewrite (ravel_acc shape indices (0 * s + x)) by (simpl in Hlen; lia).
    ring.
Qed.

Lemma products_fit_compact shape indices :
  Forall axis shape → product shape ≤ 2 ^ 31 → in_shape shape indices →
  products_fit (compact_strides shape) indices.
Proof.
  intros Hax Hp Hin. unfold products_fit.
  revert Hax Hp. induction Hin as [|x s indices shape Hx Hin IH]; intros Hax Hp.
  - constructor.
  - apply Forall_cons in Hax as [Hs Hax].
    pose proof (product_pos _ Hax) as Hpos.
    change (product (s :: shape)) with (s * product shape) in Hp.
    unfold axis in Hs.
    cbn [compact_strides zip zip_with]. constructor.
    + unfold int32. cbn [fst snd]. nia.
    + apply IH; [done|nia].
Qed.

Lemma location_compact shape offset indices :
  Forall axis shape → product shape ≤ 2 ^ 31 → in_shape shape indices →
  0 ≤ offset → offset + product shape ≤ 2 ^ 64 →
  location (compact_strides shape) offset indices = offset + ravel shape indices.
Proof.
  intros Hax Hp Hin Hoff Hfit.
  destruct (ravel_in_shape shape indices Hin) as [Hr _].
  rewrite location_exact_u64;
    [|lia|by apply products_fit_compact].
  rewrite location_exact_compact by (by apply Forall2_length in Hin).
  apply u64_id. lia.
Qed.

Lemma view_location_compact shape offset (i : nat) :
  Forall axis shape → product shape ≤ 2 ^ 31 →
  0 ≤ offset → offset + product shape ≤ 2 ^ 64 →
  Z.of_nat i < product shape →
  view_location shape (compact_strides shape) offset i = offset + Z.of_nat i.
Proof.
  intros Hax Hp Hoff Hfit Hi.
  destruct (unravel_in_shape shape (Z.of_nat i) Hax ltac:(lia)) as [Hin Hr].
  unfold view_location. rewrite location_compact by done. lia.
Qed.

Lemma compact_view_in_bounds shape offset len :
  Forall axis shape → product shape ≤ 2 ^ 31 →
  0 ≤ offset → offset + product shape ≤ 2 ^ 64 →
  offset + product shape ≤ Z.of_nat len →
  view_in_bounds shape (compact_strides shape) offset len.
Proof.
  intros Hax Hp Hoff Hfit Hlen indices Hin.
  destruct (ravel_in_shape shape indices Hin) as [Hr _].
  rewrite location_compact by done. lia.
Qed.

(** [Compact] of a compact view is a block copy.  For a shape of rank at
    least 1 with positive axis sizes and at most 2^31 elements, viewed with
    its compact row-major strides at an offset so that the view ends inside
    [a], and another array [out] of as many elements as the shape has:
    [Compact] stores in [out] the contiguous elements of [a] from the offset
    on.  With offset 0 and [a] of the size of the shape, [out] becomes a copy
    of [a]: compacting what is compact changes nothing. *)
Theorem Compact_of_a_compact_view_copies
    (a out : handle) (shape : list Z) (offset : Z)
    (A O : list scalar_t) (st : state) :
  a ≠ out → heap st !! a = Some A → heap st !! out = Some O →
  shape ≠ [] → Forall axis shape → product shape ≤ 2 ^ 31 →
  Z.of_nat (length O) = product shape →
  0 ≤ offset → offset + product shape ≤ Z.of_nat (length A) →
  Z.of_nat (length A) ≤ 2 ^ 64 →
  ∃ st',
    Compact a out shape (compact_strides shape) offset st = Some (tt, st')
    ∧ heap st' = <[out := take (length O) (drop (Z.to_nat offset) A)]> (heap st)
    ∧ (offset = 0 → length A = length O → heap st' !! out = Some A).
Proof.
  intros Hne Ha Ho Hshape Hax Hp HlO Hoff Hend HlA.
  destruct (Compact_run a out shape (compact_strides shape) offset A O st)
    as (st' & Hrun & Hh & _); try done.
  { apply length_compact_strides. }
  { apply compact_view_in_bounds; try done; lia. }
  assert (Heq : (λ i, rd A (view_location shape (compact_strides shape) offset i))
                <$> seq 0 (length O)
                = take (length O) (drop (Z.to_nat offset) A)).
  { apply list_eq. intros i. rewrite list_lookup_fmap.
    destruct (decide (i < length O)%nat) as [Hi|Hi].
    - rewrite lookup_seq_lt, lookup_take_lt, lookup_drop by lia. simpl.
      rewrite view_location_compact by (try done; lia).
      replace (Z.to_nat offset + i)%nat with (Z.to_nat (offset + Z.of_nat i)) by lia.
      unfold rd, vget. rewrite bool_decide_true by lia.
      destruct (lookup_lt_is_Some_2 A (Z.to_nat (offset + Z.of_nat i)) ltac:(lia))
        as [x Hx].
      by rewrite Hx.
    - rewrite lookup_seq_ge, lookup_take_ge by lia. done. }
  exists st'. split; [done|]. split; [by rewrite Hh, Heq|].
  intros -> HlAO. rewrite Hh, lookup_insert_eq, Heq. f_equal.
  simpl. rewrite drop_0, take_ge; [done|lia].
Qed.

Lemma Compact_of_a_compact_view_copies_witness :
  ∃ st',
    Compact 0%nat 1%nat [2; 3] (compact_strides [2; 3]) 0
      (mem3 (f32 <$> [1; 2; 3; 4; 5; 6]) (f32 <$> [0; 0; 0; 0; 0; 0]) [])
    = Some (tt, st')
    ∧ heap st' !! 1%nat = Some (f32 <$> [1; 2; 3; 4; 5; 6]).
Proof.
  destruct (Compact_of_a_compact_view_copies 0%nat 1%nat [2; 3] 0
              (f32 <$> [1; 2; 3; 4; 5; 6]) (f32 <$> [0; 0; 0; 0; 0; 0])
              (mem3 (f32 <$> [1; 2; 3; 4; 5; 6]) (f32 <$> [0; 0; 0; 0; 0; 0]) []))
    as (st' & H1 & _ & H3).
  - discriminate.
  - reflexivity.
  - reflexivity.
  - discriminate.
  - repeat constructor; vm_compute; congruence.
  - vm_compute; congruence.
  - reflexivity.
  - lia.
  - vm_compute; congruence.
  - vm_compute; congruence.
  - exists st'. split; [exact H1|]. apply H3; reflexivity.
Defined.

(** [EwiseSetitem] into a compact view is a block write.  For a shape of
    rank at least 1 with positive axis sizes and at most 2^31 elements,
    viewed with its compact row-major strides at an offset so that the view
    ends inside [out], and another array [a] of as many elements as the
    shape has: [EwiseSetitem] replaces the contiguous elements of [out] from
    the offset on by the elements of [a], and keeps the elements before and
    after them. *)
Theorem EwiseSetitem_into_a_compact_view
    (a out : handle) (shape : list Z) (offset : Z)
    (Cv Bv : list scalar_t) (st : state) :
  a ≠ out → heap st !! a = Some Cv → heap st !! out = Some Bv →
  shape ≠ [] → Forall axis shape → product shape ≤ 2 ^ 31 →
  Z.of_nat (length Cv) = product shape →
  0 ≤ offset → offset + product shape ≤ Z.of_nat (length Bv) →
  Z.of_nat (length Bv) ≤ 2 ^ 64 →
  ∃ st',
    EwiseSetitem a out shape (compact_strides shape) offset st = Some (tt, st')
    ∧ heap st' = <[out := take (Z.to_nat offset) Bv ++ Cv
                          ++ drop (Z.to_nat offset + length Cv) Bv]> (heap st).
Proof.
  intros Hne Ha Ho Hshape Hax Hp HlC Hoff Hend HlB.
  destruct (EwiseSetitem_run a out shape (compact_strides shape) offset Cv Bv st)
    as (st' & Hrun & Hh); try done.
  { apply length_compact_strides. }
  { apply compact_view_in_bounds; try done; lia. }
  exists st'. split; [done|]. rewrite Hh. f_equal.
  set (loc := view_location shape (compact_strides shape) offset).
  assert (Hloc : ∀ i : nat, (i < length Cv)%nat → loc i = offset + Z.of_nat i).
  { intros i Hi. apply view_location_compact; try done; lia. }
  apply list_eq. intros r.
  destruct (decide (r < Z.to_nat offset)%nat) as [Hlo|Hlo].
  - rewrite lookup_app_l by (rewrite length_take; lia).
    rewrite lookup_take_lt by done.
    apply scatter_lookup_frame. intros i Hi. rewrite Hloc by done. lia.
  - rewrite lookup_app_r by (rewrite length_take; lia).
    rewrite length_take, Nat.min_l by lia.
    destruct (decide (r - Z.to_nat offset < length Cv)%nat) as [Hmid|Hhi].
    + rewrite lookup_app_l by done.
      rewrite (rd_nat Cv _ Hmid).
      replace r with (Z.to_nat (loc (r - Z.to_nat offset)%nat))
        by (rewrite Hloc by done; lia).
      rewrite Hloc at 2 by done.
      replace (Z.to_nat (offset + Z.of_nat (r - Z.to_nat offset)) - Z.to_nat offset)%nat
        with (r - Z.to_nat offset)%nat by lia.
      apply (scatter_lookup_last Bv loc (λ i, rd Cv (Z.of_nat i))); [done| |].
      * rewrite Hloc by done. lia.
      * intros j Hj. rewrite !Hloc by lia. lia.
    + rewrite lookup_app_r by lia. rewrite lookup_drop.
      replace (Z.to_nat offset + length Cv + (r - Z.to_nat offset - length Cv))%nat
        with r by lia.
      apply scatter_lookup_frame. intros i Hi. rewrite Hloc by done. lia.
Qed.

Lemma EwiseSetitem_into_a_compact_view_witness :
  ∃ st',
    EwiseSetitem 1%nat 0%nat [2] (compact_strides [2]) 1
      (mem3 (f32 <$> [1; 2; 3; 4]) (f32 <$> [8; 9]) []) = Some (tt, st')
    ∧ heap st' !! 0%nat = Some (f32 <$> [1; 8; 9; 4]).
Proof.
  destruct (EwiseSetitem_into_a_compact_view 1%nat 0%nat [2] 1
              (f32 <$> [8; 9]) (f32 <$> [1; 2; 3; 4])
              (mem3 (f32 <$> [1; 2; 3; 4]) (f32 <$> [8; 9]) []))
    as (st' & H1 & H2).
  - discriminate.
  - reflexivity.
  - reflexivity.
  - discriminate.
  - repeat constructor; vm_compute; congruence.
  - vm_compute; congruence.
  - reflexivity.
  - lia.
  - vm_compute; congruence.
  - vm_compute; congruence.
  - exists st'. split; [exact H1|]. rewrite H2. reflexivity.
Defined.

(** ** Fill *)

Lemma Fill_loop_run out val (O : list scalar_t) :
  Z.of_nat (length O) < 2 ^ 31 →
  ∀ k c fuel st,
    (c + k = length O)%nat → (k ≤ fuel)%nat →
    heap st !! out = Some (take c (replicate (length O) val) ++ drop c O) →
    ∃ st', Fill_loop fuel out val (Z.of_nat (length O)) (Z.of_nat c) st
           = Some (tt, st')
      ∧ heap st' = <[out := replicate (length O) val]> (heap st)
      ∧ trace st' = trace st ++ ((λ i, Wr out (Z.of_nat i) val) <$> seq c k).
Proof.
  intros Hlen. induction k as [|k IH]; intros c fuel st Hck Hfuel Hh.
  - assert (c = length O) as -> by lia.
    destruct fuel; simpl;
      (rewrite bool_decide_false by (rewrite u64_id; lia));
      (exists st; split; [done|]; split; [|by rewrite app_nil_r]);
      symmetry; apply insert_id; rewrite Hh; f_equal;
      rewrite take_ge, drop_ge by (rewrite ?length_replicate; lia);
      by rewrite app_nil_r.
  - destruct fuel as [|fuel]; [lia|]. simpl.
    rewrite bool_decide_true by (rewrite u64_id; lia).
    erewrite bind_Some; [|eapply store_run;
      [exact Hh
      |apply vset_nat; rewrite length_app, length_take, length_replicate, length_drop; lia]].
    rewrite s32_id by lia.
    replace (Z.of_nat c + 1) with (Z.of_nat (S c)) by lia.
    destruct (IH (S c) fuel
                (State (<[out := <[c := val]>
                                   (take c (replicate (length O) val) ++ drop c O)]>
                          (heap st))
                       (trace st ++ [Wr out (Z.of_nat c) val])))
      as (st' & Hrun & Hh' & Htr); [lia|lia| |].
    + cbn [heap]. rewrite lookup_insert_eq. f_equal.
      apply insert_take_drop; [lia|]. apply lookup_replicate_2. lia.
    + exists st'. split; [done|]. cbn [heap trace] in *. split.
      * by rewrite Hh', insert_insert_eq.
      * rewrite Htr, <- app_assoc. done.
Qed.

(** [Fill] sets every element.  For an array of fewer than 2^31 elements
    (the loop counter is an [int]), [Fill] ends with [val] at every position
    of [out]; its accesses are the writes of [val] to the positions
    [0, 1, ...] in this order, and no other array changes. *)
Theorem Fill_sets_every_element
    (out : handle) (val : scalar_t) (O : list scalar_t) (st : state) :
  heap st !! out = Some O → Z.of_nat (length O) < 2 ^ 31 →
  ∃ st',
    Fill out val st = Some (tt, st')
    ∧ heap st' = <[out := replicate (length O) val]> (heap st)
    ∧ trace st' = trace st
                  ++ ((λ i, Wr out (Z.of_nat i) val) <$> seq 0 (length O)).
Proof.
  intros Ho Hlen. unfold Fill.
  rewrite (bind_Some _ _ _ _ _ (size_run _ _ _ Ho)).
  apply (Fill_loop_run out val O Hlen (length O) 0%nat (length O) st); [lia|lia|].
  by rewrite take_0, drop_0.
Qed.

Lemma Fill_sets_every_element_witness :
  ∃ st',
    Fill 0%nat (f32 7) (mem3 (f32 <$> [1; 2; 3]) [] []) = Some (tt, st')
    ∧ heap st' = <[0%nat := replicate 3 (f32 7)]>
                   (heap (mem3 (f32 <$> [1; 2; 3]) [] [])).
Proof.
  destruct (Fill_sets_every_element 0%nat (f32 7) (f32 <$> [1; 2; 3])
              (mem3 (f32 <$> [1; 2; 3]) [] [])) as (st' & H1 & H2 & _).
  - reflexivity.
  - vm_compute; congruence.
  - exists st'. split; [exact H1|exact H2].
Defined.

(** ** Reductions at their edges *)

(** With a step of 0 the strided loop stays at its first index. *)
Lemma for_step_zero_step {L} hi (body : Z → nat → L → M L) :
  0 < hi → ∀ fuel cnt l st, for_step fuel hi 0 body 0 cnt l st = None.
Proof.
  intros Hhi. induction fuel as [|fuel IH]; intros cnt l st; simpl.
  - by rewrite bool_decide_true.
  - rewrite bool_decide_true by done. rewrite bind_run.
    destruct (body 0 cnt l st) as [[l' st']|]; [|done].
    change (u64 0) with 0. apply IH.
Qed.

Lemma for_step_empty {L} fuel step (body : Z → nat → L → M L) cnt l st :
  for_step fuel 0 step body 0 cnt l st = Some (l, st).
Proof. by destruct fuel. Qed.

(** The reductions at their edges.  On an empty [a] both reductions return
    at once, whatever [reduce_size] is, without an access.  On a non-empty
    [a] with [reduce_size = 0] the loop index never advances: the call has
    no result, and no number of rounds of such a loop gives one. *)
Theorem reductions_at_empty_input_and_zero_reduce_size
    (a out : handle) (A : list scalar_t) (st : state) :
  heap st !! a = Some A →
  (A = [] → ∀ reduce_size,
     ReduceMax a out reduce_size st = Some (tt, st)
     ∧ ReduceSum a out reduce_size st = Some (tt, st))
  ∧ (A ≠ [] →
     ReduceMax a out 0 st = None
     ∧ ReduceSum a out 0 st = None
     ∧ ∀ fuel (body : Z → nat → unit → M unit) cnt st',
         for_step fuel (Z.of_nat (length A)) 0 body 0 cnt tt st' = None).
Proof.
  intros Ha. split.
  - intros -> rs. unfold ReduceMax, ReduceSum.
    rewrite !(bind_Some _ _ _ _ _ (size_run _ _ _ Ha)).
    split; apply for_step_empty.
  - intros Hne.
    assert (Hpos : 0 < Z.of_nat (length A)) by (destruct A; [done|simpl; lia]).
    unfold ReduceMax, ReduceSum.
    rewrite !(bind_Some _ _ _ _ _ (size_run _ _ _ Ha)).
    split; [by apply for_step_zero_step|].
    split; [by apply for_step_zero_step|].
    intros fuel body cnt st'. by apply for_step_zero_step.
Qed.

Lemma reductions_at_empty_input_and_zero_reduce_size_witness :
  ReduceMax 0%nat 1%nat 0 (mem3 [f32 1; f32 2] [f32 0] []) = None
  ∧ ReduceSum 0%nat 1%nat 0 (mem3 [f32 1; f32 2] [f32 0] []) = None.
Proof.
  destruct (reductions_at_empty_input_and_zero_reduce_size 0%nat 1%nat
              [f32 1; f32 2] (mem3 [f32 1; f32 2] [f32 0] [])) as [_ H].
  - reflexivity.
  - destruct H as (H1 & H2 & _); [discriminate|]. split; [exact H1|exact H2].
Defined.

(** ** Not-a-number and the maximum *)

Lemma flt_true_not_nan x y : flt x y = true → is_nan x = false ∧ is_nan y = false.
Proof. destruct x, y; simpl; try done. Qed.

Lemma flt_nan_r x : flt x fnan = false.
Proof. by destruct x. Qed.

Lemma flt_nan_l y : flt fnan y = false.
Proof. done. Qed.

(** [std::max] is a not-a-number exactly when its first argument is. *)
Lemma is_nan_std_max x y : is_nan (std_max x y) = is_nan x.
Proof.
  unfold std_max. destruct (flt x y) eqn:Hlt; [|done].
  destruct (flt_true_not_nan _ _ Hlt) as [-> ->]. done.
Qed.

Lemma std_max_nan_r x : std_max x fnan = x.
Proof. unfold std_max. by rewrite flt_nan_r. Qed.

Lemma is_nan_foldl_std_max r : ∀ x, is_nan (foldl std_max x r) = is_nan x.
Proof.
  induction r as [|v r IH]; intros x; [done|].
  simpl. by rewrite IH, is_nan_std_max.
Qed.

Lemma foldl_std_max_skips_nan r : ∀ x,
  foldl std_max x r = foldl std_max x (filter (λ v, is_nan v = false) r).
Proof.
  induction r as [|v r IH]; intros x; [done|].
  destruct v; simpl; rewrite ?filter_cons_True by done;
    rewrite ?filter_cons_False by done; simpl; try apply IH.
  rewrite std_max_nan_r. apply IH.
Qed.

Lemma run_lookup_first (A : list scalar_t) (rs c : nat) :
  (0 < rs)%nat → (c * rs < length A)%nat →
  ∃ x, A !! (c * rs)%nat = Some x
       ∧ run A rs c = x :: take (rs - 1) (drop (S (c * rs)) A).
Proof.
  intros Hrs Hc.
  destruct (lookup_lt_is_Some_2 A (c * rs) Hc) as [x Hx].
  exists x. split; [done|]. unfold run.
  rewrite (drop_S _ _ _ Hx).
  destruct rs as [|rs]; [lia|]. simpl. by rewrite Nat.sub_0_r.
Qed.

(** [ReduceMax] and not-a-number.  With [a] of [length out * reduce_size]
    elements and [out] another array: the maximum stored for a run is a
    not-a-number exactly when the first element of the run is one; a
    not-a-number at a later position of the run is skipped, the result being
    that of the run without it. *)
Theorem ReduceMax_keeps_a_leading_NaN_only
    (a out : handle) (rs : nat) (A O : list scalar_t) (st : state) :
  a ≠ out → heap st !! a = Some A → heap st !! out = Some O →
  (0 < rs)%nat → length A = (length O * rs)%nat → Z.of_nat (length A) < 2 ^ 64 →
  ∃ st' O',
    ReduceMax a out (Z.of_nat rs) st = Some (tt, st')
    ∧ heap st' = <[out := O']> (heap st)
    ∧ ∀ c, (c < length O)%nat →
        ∃ x v, A !! (c * rs)%nat = Some x ∧ O' !! c = Some v
               ∧ is_nan v = is_nan x
               ∧ v = foldl std_max x
                       (filter (λ y, is_nan y = false)
                               (take (rs - 1) (drop (S (c * rs)) A))).
Proof.
  intros Hne Ha Ho Hrs Hlen Hfit.
  destruct (ReduceMax_run a out rs A O st) as (st' & Hrun & Hh); try done.
  eexists st', _. split; [done|]. split; [done|].
  intros c Hc.
  destruct (run_lookup_first A rs c Hrs) as (x & Hx & Hr); [nia|].
  exists x, (run_max (run A rs c)). split; [done|]. split.
  - by rewrite list_lookup_fmap, lookup_seq_lt.
  - rewrite Hr. simpl. split; [apply is_nan_foldl_std_max|].
    apply foldl_std_max_skips_nan.
Qed.

Lemma ReduceMax_keeps_a_leading_NaN_only_witness :
  ∃ st' O',
    ReduceMax 0%nat 1%nat (Z.of_nat 2)
      (mem3 [fnan; f32 1; f32 2; fnan] [f32 0; f32 0] []) = Some (tt, st')
    ∧ heap st' = <[1%nat := O']>
                   (heap (mem3 [fnan; f32 1; f32 2; fnan] [f32 0; f32 0] []))
    ∧ ∃ v, O' !! 1%nat = Some v ∧ v = f32 2.
Proof.
  destruct (ReduceMax_keeps_a_leading_NaN_only 0%nat 1%nat 2%nat
              [fnan; f32 1; f32 2; fnan] [f32 0; f32 0]
              (mem3 [fnan; f32 1; f32 2; fnan] [f32 0; f32 0] []))
    as (st' & O' & H1 & H2 & H3).
  - discriminate.
  - reflexivity.
  - reflexivity.
  - lia.
  - reflexivity.
  - vm_compute; congruence.
  - exists st', O'. split; [exact H1|]. split; [exact H2|].
    destruct (H3 1%nat) as (x & v & Hx & Hv & _ & Hval); [simpl; lia|].
    exists v. split; [exact Hv|].
    injection Hx as <-. exact Hval.
Defined.

(** The elementwise maximum and not-a-number.  [EwiseMaximum] and
    [ScalarMaximum] store a not-a-number exactly at the positions where [a]
    holds one, whatever the second operand is; with a not-a-number as the
    scalar, [ScalarMaximum] copies [a]. *)
Theorem maximum_keeps_the_NaNs_of_a
    (a b out : handle) (val : scalar_t) (A B O : list scalar_t) (st : state) :
  heap st !! a = Some A → heap st !! b = Some B → heap st !! out = Some O →
  length B = length A → length O = length A →
  (∃ st' O', EwiseMaximum a b out st = Some (tt, st')
     ∧ heap st' = <[out := O']> (heap st)
     ∧ is_nan <$> O' = is_nan <$> A)
  ∧ (∃ st' O', ScalarMaximum a val out st = Some (tt, st')
     ∧ heap st' = <[out := O']> (heap st)
     ∧ is_nan <$> O' = is_nan <$> A)
  ∧ (∃ st', ScalarMaximum a fnan out st = Some (tt, st')
     ∧ heap st' = <[out := A]> (heap st)).
Proof.
  intros Ha Hb Ho HlB HlO. split; [|split].
  - destruct (ewise_binary_run std_max a b out A B O st) as (st' & Hrun & Hh);
      try done.
    eexists st', _. split; [done|]. split; [done|].
    clear -HlB. revert B HlB.
    induction A as [|x A IH]; intros [|y B] HlB; try done.
    simpl. rewrite is_nan_std_max. f_equal. apply IH. simpl in HlB. lia.
  - destruct (ewise_scalar_run std_max a val out A O st) as (st' & Hrun & Hh);
      try done.
    eexists st', _. split; [done|]. split; [done|].
    rewrite <- list_fmap_compose. apply list_fmap_ext.
    intros i x _. simpl. apply is_nan_std_max.
  - destruct (ewise_scalar_run std_max a fnan out A O st) as (st' & Hrun & Hh);
      try done.
    exists st'. split; [done|]. rewrite Hh. f_equal.
    rewrite <- (list_fmap_id A) at 2. apply list_fmap_ext.
    intros i x _. apply std_max_nan_r.
Qed.

Lemma maximum_keeps_the_NaNs_of_a_witness :
  ∃ st', ScalarMaximum 0%nat fnan 2%nat
           (mem3 [f32 1; fnan] [f32 3; f32 4] [f32 0; f32 0]) = Some (tt, st')
    ∧ heap st' = <[2%nat := [f32 1; fnan]]>
                   (heap (mem3 [f32 1; fnan] [f32 3; f32 4] [f32 0; f32 0])).
Proof.
  destruct (maximum_keeps_the_NaNs_of_a 0%nat 1%nat 2%nat (f32 5)
              [f32 1; fnan] [f32 3; f32 4] [f32 0; f32 0]
              (mem3 [f32 1; fnan] [f32 3; f32 4] [f32 0; f32 0]))
    as (_ & _ & H); try reflexivity.
  exact H.
Defined.

(** ** Arguments of different sizes *)

Lemma bind_Some_inv {A B} (c : M A) (f : A → M B) st r :
  (c ≫= f) st = Some r → ∃ x st', c st = Some (x, st') ∧ f x st' = Some r.
Proof.
  rewrite bind_run. destruct (c st) as [[x st']|]; [|done].
  intros H. by exists x, st'.
Qed.

Lemma load_Some_inv h i st v st' :
  load h i st = Some (v, st') →
  heap st' = heap st
  ∧ ∃ l, heap st !! h = Some l ∧ 0 ≤ i < Z.of_nat (length l).
Proof.
  unfold load. destruct (heap st !! h) as [l|] eqn:Hl; [|done]. simpl.
  destruct (vget l i) as [x|] eqn:Hx; [|done]. simpl.
  intros [= <- <-]. split; [done|]. exists l. split; [done|].
  unfold vget in Hx. case_bool_decide; [|done].
  apply lookup_lt_Some in Hx. lia.
Qed.

Lemma store_Some_inv h i v st u st' :
  store h i v st = Some (u, st') →
  same_sizes st st'
  ∧ ∃ l, heap st !! h = Some l ∧ 0 ≤ i < Z.of_nat (length l).
Proof.
  unfold store. destruct (heap st !! h) as [l|] eqn:Hl; [|done]. simpl.
  unfold vset. case_bool_decide as Hi; [|done]. simpl.
  intros [= <- <-]. split; [|by exists l].
  intros h'. cbn [heap]. destruct (decide (h' = h)) as [->|Hne].
  - by rewrite lookup_insert_eq, Hl; simpl; rewrite length_insert.
  - by rewrite lookup_insert_ne.
Qed.

Lemma same_sizes_refl st : same_sizes st st.
Proof. done. Qed.

Lemma same_sizes_trans st0 st1 st2 :
  same_sizes st0 st1 → same_sizes st1 st2 → same_sizes st0 st2.
Proof. intros H1 H2 h. by rewrite H2, H1. Qed.

Lemma same_sizes_heap st0 st st' :
  heap st' = heap st → same_sizes st0 st → same_sizes st0 st'.
Proof. intros Hh H h. by rewrite Hh. Qed.

Lemma same_sizes_lookup st0 st h l0 l :
  same_sizes st0 st → heap st0 !! h = Some l0 → heap st !! h = Some l →
  length l = length l0.
Proof. intros H H0 H1. specialize (H h). rewrite H0, H1 in H. by injection H. Qed.

(** A loop that returns has run each of its rounds to its end. *)
Lemma for_Some_inv {L} (P : state → Prop) (body : nat → L → M L) l st :
  (∀ i l st l' st', P st → body i l st = Some (l', st') → P st') →
  P st →
  ∀ n l' st', for_ n body l st = Some (l', st') →
    P st'
    ∧ ∀ k, (k < n)%nat →
        ∃ lk stk r, P stk ∧ body k lk stk = Some r.
Proof.
  intros Hpres HP. induction n as [|n IH]; intros l' st' Hrun.
  - injection Hrun as <- <-. split; [done|]. intros k Hk. lia.
  - simpl in Hrun. apply bind_Some_inv in Hrun as (l1 & st1 & Hn & Hb).
    destruct (IH _ _ Hn) as [HP1 Hk]. split; [by eapply Hpres|].
    intros k Hlt. destruct (decide (k = n)) as [->|Hne].
    + by exists l1, st1, (l', st').
    + apply Hk. lia.
Qed.

(** The elementwise kernels do not compare the sizes of their arguments.
    Each of them runs over the positions of [a]; when [b] or [out] has fewer
    elements than [a], it accesses the shorter array past its end and has no
    result.  This holds for every operation of the three loop shapes, so for
    every elementwise and scalar kernel of the backend. *)
Theorem elementwise_kernels_fail_on_shorter_arguments
    (a b out : handle) (A B O : list scalar_t) (st : state) :
  heap st !! a = Some A → heap st !! b = Some B → heap st !! out = Some O →
  ((length B < length A)%nat ∨ (length O < length A)%nat →
   ∀ f, ewise_binary f a b out st = None)
  ∧ ((length O < length A)%nat →
     (∀ f val, ewise_scalar f a val out st = None)
     ∧ (∀ f, ewise_unary f a out st = None)).
Proof.
  intros Ha Hb Ho. split.
  - intros Hshort f.
    destruct (ewise_binary f a b out st) as [[[] st']|] eqn:Hrun; [exfalso|done].
    unfold ewise_binary in Hrun.
    rewrite (bind_Some _ _ _ _ _ (size_run _ _ _ Ha)) in Hrun.
    eapply (for_Some_inv (same_sizes st)) in Hrun as [_ Hk]; [| |done].
    2:{ intros i l st1 l' st2 HP Hbody.
        apply bind_Some_inv in Hbody as (x & s1 & Hl1 & Hbody).
        apply bind_Some_inv in Hbody as (y & s2 & Hl2 & Hbody).
        apply load_Some_inv in Hl1 as [Hh1 _].
        apply load_Some_inv in Hl2 as [Hh2 _].
        apply store_Some_inv in Hbody as [Hs _].
        eapply same_sizes_trans; [|exact Hs].
        by apply (same_sizes_heap _ s1); [|apply (same_sizes_heap _ st1)]. }
    destruct Hshort as [Hshort|Hshort].
    + destruct (Hk (length B) Hshort) as (lk & stk & r & HP & Hbody).
      destruct r as [u r].
      apply bind_Some_inv in Hbody as (x & s1 & Hl1 & Hbody).
      apply bind_Some_inv in Hbody as (y & s2 & Hl2 & Hbody).
      apply load_Some_inv in Hl1 as [Hh1 _].
      apply load_Some_inv in Hl2 as [Hh2 (l & Hl & Hi)].
      rewrite Hh1 in Hl.
      pose proof (same_sizes_lookup _ _ _ _ _ HP Hb Hl). lia.
    + destruct (Hk (length O) Hshort) as (lk & stk & r & HP & Hbody).
      destruct r as [u r].
      apply bind_Some_inv in Hbody as (x & s1 & Hl1 & Hbody).
      apply bind_Some_inv in Hbody as (y & s2 & Hl2 & Hbody).
      apply load_Some_inv in Hl1 as [Hh1 _].
      apply load_Some_inv in Hl2 as [Hh2 _].
      apply store_Some_inv in Hbody as [_ (l & Hl & Hi)].
      rewrite Hh2, Hh1 in Hl.
      pose proof (same_sizes_lookup _ _ _ _ _ HP Ho Hl). lia.
  - intros Hshort. split.
    + intros f val.
      destruct (ewise_scalar f a val out st) as [[[] st']|] eqn:Hrun; [exfalso|done].
      unfold ewise_scalar in Hrun.
      rewrite (bind_Some _ _ _ _ _ (size_run _ _ _ Ha)) in Hrun.
      eapply (for_Some_inv (same_sizes st)) in Hrun as [_ Hk]; [| |done].
      2:{ intros i l st1 l' st2 HP Hbody.
          apply bind_Some_inv in Hbody as (x & s1 & Hl1 & Hbody).
          apply load_Some_inv in Hl1 as [Hh1 _].
          apply store_Some_inv in Hbody as [Hs _].
          eapply same_sizes_trans; [|exact Hs].
          by apply (same_sizes_heap _ st1). }
      destruct (Hk (length O) Hshort) as (lk & stk & r & HP & Hbody).
      destruct r as [u r].
      apply bind_Some_inv in Hbody as (x & s1 & Hl1 & Hbody).
      apply load_Some_inv in Hl1 as [Hh1 _].
      apply store_Some_inv in Hbody as [_ (l & Hl & Hi)].
      rewrite Hh1 in Hl.
      pose proof (same_sizes_lookup _ _ _ _ _ HP Ho Hl). lia.
    + intros f.
      destruct (ewise_unary f a out st) as [[[] st']|] eqn:Hrun; [exfalso|done].
      unfold ewise_unary in Hrun.
      rewrite (bind_Some _ _ _ _ _ (size_run _ _ _ Ha)) in Hrun.
      eapply (for_Some_inv (same_sizes st)) in Hrun as [_ Hk]; [| |done].
      2:{ intros i l st1 l' st2 HP Hbody.
          apply bind_Some_inv in Hbody as (x & s1 & Hl1 & Hbody).
          apply load_Some_inv in Hl1 as [Hh1 _].
          apply store_Some_inv in Hbody as [Hs _].
          eapply same_sizes_trans; [|exact Hs].
          by apply (same_sizes_heap _ st1). }
      destruct (Hk (length O) Hshort) as (lk & stk & r & HP & Hbody).
      destruct r as [u r].
      apply bind_Some_inv in Hbody as (x & s1 & Hl1 & Hbody).
      apply load_Some_inv in Hl1 as [Hh1 _].
      apply store_Some_inv in Hbody as [_ (l & Hl & Hi)].
      rewrite Hh1 in Hl.
      pose proof (same_sizes_lookup _ _ _ _ _ HP Ho Hl). lia.
Qed.

Lemma elementwise_kernels_fail_on_shorter_arguments_witness :
  EwiseAdd 0%nat 1%nat 2%nat (mem3 [f32 1; f32 2] [f32 3] [f32 0; f32 0]) = None
  ∧ ScalarMul 0%nat (f32 2) 2%nat (mem3 [f32 1; f32 2] [] [f32 0]) = None.
Proof.
  split.
  - destruct (elementwise_kernels_fail_on_shorter_arguments 0%nat 1%nat 2%nat
                [f32 1; f32 2] [f32 3] [f32 0; f32 0]
                (mem3 [f32 1; f32 2] [f32 3] [f32 0; f32 0])) as [H _].
    + reflexivity.
    + reflexivity.
    + reflexivity.
    + apply H. left. simpl. lia.
  - destruct (elementwise_kernels_fail_on_shorter_arguments 0%nat 1%nat 2%nat
                [f32 1; f32 2] [] [f32 0]
                (mem3 [f32 1; f32 2] [] [f32 0])) as [_ H].
    + reflexivity.
    + reflexivity.
    + reflexivity.
    + destruct H as [H _]; [simpl; lia|]. apply H.
Defined.

(** ** Partial runs *)

(** A strided loop whose rounds need a whole step below [hi] has no result
    when [hi] is not a multiple of the step. *)
Lemma for_step_partial {L} (P : state → Prop) hi step (body : Z → nat → L → M L) :
  0 < step → hi mod step ≠ 0 → hi + step ≤ 2 ^ 64 →
  (∀ i c l st l' st', P st → 0 ≤ i < hi → body i c l st = Some (l', st') →
                      P st' ∧ i + step ≤ hi) →
  ∀ fuel i c l st, P st → 0 ≤ i < hi → i mod step = 0 →
                   for_step fuel hi step body i c l st = None.
Proof.
  intros Hstep Hmod Hfit Hbody.
  induction fuel as [|fuel IH]; intros i c l st HP Hi Himod; simpl.
  - by rewrite bool_decide_true by lia.
  - rewrite bool_decide_true by lia. rewrite bind_run.
    destruct (body i c l st) as [[l' st']|] eqn:Hb; [|done].
    destruct (Hbody _ _ _ _ _ _ HP Hi Hb) as [HP' Hle].
    rewrite u64_id by lia.
    assert (Hm : (i + step) mod step = 0).
    { rewrite <- Zplus_mod_idemp_r, Z_mod_same_full, Z.add_0_r. done. }
    apply IH; [done| |done].
    split; [lia|]. destruct (decide (i + step = hi)) as [Heq|]; [|lia].
    rewrite Heq in Hm. done.
Qed.

Lemma for_range_loads_inv (g : scalar_t → scalar_t → scalar_t) a (lo hi : Z)
    init st0 st r st' :
  same_sizes st0 st →
  for_range lo hi (λ j acc, v ← load a j; mret (g acc v)) init st = Some (r, st') →
  same_sizes st0 st'
  ∧ ∀ j, lo ≤ j < hi → ∃ l, heap st0 !! a = Some l ∧ j < Z.of_nat (length l).
Proof.
  intros HP Hrun. unfold for_range in Hrun.
  eapply (for_Some_inv (λ s, heap s = heap st)) in Hrun as [Hh Hk]; [| |done].
  2:{ intros i l s1 l' s2 Hs Hbody.
      apply bind_Some_inv in Hbody as (v & s & Hl & Hret).
      apply load_Some_inv in Hl as [Hh _].
      injection Hret as _ <-. by rewrite Hh. }
  split; [by apply (same_sizes_heap _ st)|].
  intros j Hj.
  destruct (Hk (Z.to_nat (j - lo)) ltac:(lia)) as (lk & stk & rk & Hs & Hbody).
  destruct rk as [rk sk].
  apply bind_Some_inv in Hbody as (v & s & Hl & _).
  apply load_Some_inv in Hl as [_ (l & Hl & Hb)].
  rewrite Hs in Hl.
  pose proof (HP a) as Hsz. rewrite Hl in Hsz.
  destruct (heap st0 !! a) as [l0|] eqn:Hl0; [|done].
  exists l0. split; [done|]. injection Hsz as Hsz. lia.
Qed.

(** The reductions need whole runs.  When the size of [a] is not a multiple
    of a positive [reduce_size], [ReduceMax] and [ReduceSum] have no result:
    the round of the last, partial run reads [a] past its end, unless an
    earlier round has already written [out] past its end. *)
Theorem reductions_fail_on_a_partial_run
    (a out : handle) (reduce_size : Z) (A : list scalar_t) (st : state) :
  heap st !! a = Some A →
  0 < reduce_size → Z.of_nat (length A) mod reduce_size ≠ 0 →
  Z.of_nat (length A) + reduce_size ≤ 2 ^ 64 →
  ReduceMax a out reduce_size st = None
  ∧ ReduceSum a out reduce_size st = None.
Proof.
  intros Ha Hrs Hmod Hfit.
  assert (Hpos : 0 < Z.of_nat (length A)).
  { destruct A; [|simpl; lia]. by rewrite Zmod_0_l in Hmod. }
  unfold ReduceMax, ReduceSum.
  rewrite !(bind_Some _ _ _ _ _ (size_run _ _ _ Ha)).
  split.
  - apply (for_step_partial (same_sizes st) _ _ _ Hrs Hmod Hfit);
      [|done|lia|by rewrite Zmod_0_l].
    intros i c [] st1 l' st' HP Hi Hbody.
    apply bind_Some_inv in Hbody as (first & s1 & Hl & Hbody).
    apply bind_Some_inv in Hbody as (mx & s2 & Hin & Hbody).
    apply load_Some_inv in Hl as [Hh1 _].
    apply store_Some_inv in Hbody as [Hs _].
    eapply (for_range_loads_inv std_max a _ _ _ st) in Hin as [HP2 Hj];
      [|by apply (same_sizes_heap _ st1)].
    split; [by eapply same_sizes_trans|].
    destruct (decide (i + reduce_size ≤ Z.of_nat (length A))) as [|Hgt]; [done|].
    exfalso. rewrite !u64_id in Hj by lia.
    destruct (Hj (Z.of_nat (length A)) ltac:(lia)) as (l & Hl & Hb).
    rewrite Ha in Hl. injection Hl as <-. lia.
  - apply (for_step_partial (same_sizes st) _ _ _ Hrs Hmod Hfit);
      [|done|lia|by rewrite Zmod_0_l].
    intros i c [] st1 l' st' HP Hi Hbody.
    apply bind_Some_inv in Hbody as (sm & s2 & Hin & Hbody).
    apply store_Some_inv in Hbody as [Hs _].
    eapply (for_range_loads_inv fadd a _ _ _ st) in Hin as [HP2 Hj]; [|done].
    split; [by eapply same_sizes_trans|].
    destruct (decide (i + reduce_size ≤ Z.of_nat (length A))) as [|Hgt]; [done|].
    exfalso. rewrite !u64_id in Hj by lia.
    destruct (Hj (Z.of_nat (length A)) ltac:(lia)) as (l & Hl & Hb).
    rewrite Ha in Hl. injection Hl as <-. lia.
Qed.

Lemma reductions_fail_on_a_partial_run_witness :
  ReduceMax 0%nat 1%nat 2 (mem3 [f32 1; f32 2; f32 3] [f32 0; f32 0] []) = None
  ∧ ReduceSum 0%nat 1%nat 2 (mem3 [f32 1; f32 2; f32 3] [f32 0; f32 0] []) = None.
Proof.
  apply (reductions_fail_on_a_partial_run 0%nat 1%nat 2 [f32 1; f32 2; f32 3]).
  - reflexivity.
  - lia.
  - vm_compute; congruence.
  - vm_compute; congruence.
Defined.

(** ** The matrix products at their edges *)

Lemma for_skip {L} (body : nat → L → M L) n l st :
  (∀ i l st, (i < n)%nat → body i l st = Some (l, st)) →
  for_ n body l st = Some (l, st).
Proof.
  induction n as [|n IH]; intros Hbody; [done|].
  simpl. erewrite bind_Some; [|apply IH; intros; apply Hbody; lia].
  apply Hbody. lia.
Qed.

Lemma fsum_0 t init : fsum t 0 init = init.
Proof. done. Qed.

(** [Matmul] at its edges.  With [a] and [b] distinct from [out], [out] of
    at least [m * p <= 2^32] elements and all reads inside [a] and [b]:
    [Matmul] writes the first [m * p] positions of [out] and nothing else,
    so the rest of [out], [a] and [b] keep their contents; and when the
    inner dimension [n] is 0, every one of the [m * p] cells holds [+0]. *)
Theorem Matmul_writes_only_the_product_cells
    (a b out : handle) (m n p : Z) (A B O : list scalar_t) (st : state) :
  a ≠ out → b ≠ out →
  heap st !! a = Some A → heap st !! b = Some B → heap st !! out = Some O →
  0 ≤ m → 0 ≤ p → m * p ≤ 2 ^ 32 → m * p ≤ Z.of_nat (length O) →
  (∀ i j k, (i < Z.to_nat m)%nat → (j < Z.to_nat p)%nat → (k < Z.to_nat n)%nat →
        u32 (Z.of_nat i * n + Z.of_nat k) < Z.of_nat (length A)
        ∧ u32 (Z.of_nat k * p + Z.of_nat j) < Z.of_nat (length B)) →
  ∃ st' O',
    Matmul a b out m n p st = Some (tt, st')
    ∧ heap st' = <[out := O']> (heap st)
    ∧ heap st' !! a = Some A ∧ heap st' !! b = Some B
    ∧ length O' = length O
    ∧ (∀ r : nat, m * p ≤ Z.of_nat r → O' !! r = O !! r)
    ∧ (n = 0 → ∀ r : nat, Z.of_nat r < m * p → O' !! r = Some (f32 0)).
Proof.
  intros Hao Hbo Ha Hb Ho Hm Hp Hmp HlO Hin.
  destruct (Matmul_run a b out A B O st m n p) as (st' & Hrun & Hh); try done.
  eexists st', _. split; [done|]. split; [done|].
  split; [by rewrite Hh, lookup_insert_ne|].
  split; [by rewrite Hh, lookup_insert_ne|].
  split; [apply length_patch|]. split.
  - intros r Hr. rewrite lookup_patch.
    rewrite bool_decide_false by nia.
    by destruct (O !! r).
  - intros Hn r Hr. rewrite lookup_patch.
    rewrite bool_decide_true by nia.
    destruct (lookup_lt_is_Some_2 O r ltac:(lia)) as [x ->]. simpl.
    unfold dot32. replace (Z.to_nat n) with 0%nat by lia. done.
Qed.

Lemma Matmul_writes_only_the_product_cells_witness :
  ∃ st' O',
    Matmul 0%nat 1%nat 2%nat 1 0 2 (mem3 [] [] (f32 <$> [9; 9; 9])) = Some (tt, st')
    ∧ heap st' = <[2%nat := O']> (heap (mem3 [] [] (f32 <$> [9; 9; 9])))
    ∧ O' !! 1%nat = Some (f32 0)
    ∧ O' !! 2%nat = Some (f32 9).
Proof.
  destruct (Matmul_writes_only_the_product_cells 0%nat 1%nat 2%nat 1 0 2
              [] [] (f32 <$> [9; 9; 9]) (mem3 [] [] (f32 <$> [9; 9; 9])))
    as (st' & O' & H1 & H2 & _ & _ & _ & H6 & H7).
  - discriminate.
  - discriminate.
  - reflexivity.
  - reflexivity.
  - reflexivity.
  - lia.
  - lia.
  - vm_compute; congruence.
  - vm_compute; congruence.
  - intros i j k _ _ Hk. simpl in Hk. lia.
  - exists st', O'. split; [exact H1|]. split; [exact H2|]. split.
    + apply H7; [reflexivity|lia].
    + rewrite H6 by lia. reflexivity.
Defined.

(** [MatmulTiled] computes the product in the block layout when its vectors
    are aligned.  For [m], [n] and [p] positive multiples of [TILE] with
    [m * n], [n * p] and [m * p] at most 2^32, [a] and [b] holding an
    [m x n] and an [n x p] matrix in the block layout, another array [out]
    of [m * p] elements, and a run in which the allocator places [tile_a],
    [tile_b] and every [tmp_res] at a multiple of [TILE * ELEM_SIZE] bytes:
    [MatmulTiled] stores at the block-layout position of every cell [(i, j)]
    the products [a(i, k) * b(k, j)] added to 0 from left to right for
    [k = 0 .. n - 1].  Nothing of the old contents of [out] enters the
    result, and [a] and [b] keep their contents. *)
Theorem MatmulTiled_computes_the_block_product
    (v : vectors) (a b out : handle) (m n p : Z) (A B O : list scalar_t)
    (st : state) :
  vectors_aligned v (Z.to_nat (m / TILE)) (Z.to_nat (p / TILE)) →
  a ≠ out → b ≠ out →
  heap st !! a = Some A → heap st !! b = Some B → heap st !! out = Some O →
  0 < m → 0 < n → 0 < p →
  m mod TILE = 0 → n mod TILE = 0 → p mod TILE = 0 →
  Z.of_nat (length A) = m * n → Z.of_nat (length B) = n * p →
  Z.of_nat (length O) = m * p →
  m * n ≤ 2 ^ 32 → n * p ≤ 2 ^ 32 → m * p ≤ 2 ^ 32 →
  ∃ st' O',
    MatmulTiled v a b out m n p st = Some (tt, st')
    ∧ heap st' = <[out := O']> (heap st)
    ∧ heap st' !! a = Some A ∧ heap st' !! b = Some B
    ∧ length O' = length O
    ∧ ∀ i j : nat, Z.of_nat i < m → Z.of_nat j < p →
        O' !! Z.to_nat (tiled_index p (Z.of_nat i) (Z.of_nat j))
        = Some (dot_tiled A B n p i j).
Proof.
  intros Hal Hao Hbo Ha Hb Ho Hm Hn Hp Hmm Hnm Hpm HlA HlB HlO Hmn Hnp Hmp.
  destruct (MatmulTiled_cells v a b out A B O st m n p)
    as (st' & O' & Hrun & Hh & Hlen & Hcells); try done.
  exists st', O'. split; [done|]. split; [done|].
  split; [by rewrite Hh, lookup_insert_ne|].
  split; [by rewrite Hh, lookup_insert_ne|]. done.
Qed.

Lemma MatmulTiled_computes_the_block_product_witness :
  ∃ st' O',
    MatmulTiled (Vectors 4096 4384 (λ _ _, 4672)) 0%nat 1%nat 2%nat 8 8 8
      (mem3 (replicate 64 (f32 1)) (replicate 64 (f32 2)) (replicate 64 (f32 9)))
    = Some (tt, st')
    ∧ heap st' !! 2%nat = Some O'
    ∧ O' !! Z.to_nat (tiled_index 8 (Z.of_nat 3) (Z.of_nat 5))
      = Some (dot_tiled (replicate 64 (f32 1)) (replicate 64 (f32 2)) 8 8 3 5).
Proof.
  destruct (MatmulTiled_computes_the_block_product
              (Vectors 4096 4384 (λ _ _, 4672)) 0%nat 1%nat 2%nat 8 8 8
              (replicate 64 (f32 1)) (replicate 64 (f32 2)) (replicate 64 (f32 9))
              (mem3 (replicate 64 (f32 1)) (replicate 64 (f32 2))
                    (replicate 64 (f32 9))))
    as (st' & O' & H1 & H2 & _ & _ & _ & H6).
  - split; [reflexivity|]. split; [reflexivity|]. intros i j _ _. reflexivity.
  - discriminate.
  - discriminate.
  - reflexivity.
  - reflexivity.
  - reflexivity.
  - lia.
  - lia.
  - lia.
  - reflexivity.
  - reflexivity.
  - reflexivity.
  - reflexivity.
  - reflexivity.
  - reflexivity.
  - vm_compute; congruence.
  - vm_compute; congruence.
  - vm_compute; congruence.
  - exists st', O'. split; [exact H1|].
    split; [rewrite H2; apply lookup_insert_eq|]. apply H6; simpl; lia.
Defined.

(** [MatmulTiled] drops what does not fill a tile.  The loops run over
    [m / TILE], [p / TILE] and [n / TILE] blocks.  With [m] or [p] below
    [TILE] nothing is accessed and the call returns the state as it was.
    With [m] and [p] at least one tile but [0 <= n < TILE], no reduction
    block is run: every position of the [m / TILE * (p / TILE)] output
    blocks receives [+0], whatever [a] and [b] hold.  [AlignedDot] is not
    called in either case, so this holds wherever the vectors lie. *)
Theorem MatmulTiled_drops_partial_tiles
    (v : vectors) (a b out : handle) (m n p : Z) (A B O : list scalar_t)
    (st : state) :
  a ≠ out → b ≠ out →
  heap st !! a = Some A → heap st !! b = Some B → heap st !! out = Some O →
  0 ≤ m → 0 ≤ n → 0 ≤ p →
  (m < TILE ∨ p < TILE → MatmulTiled v a b out m n p st = Some (tt, st))
  ∧ (n < TILE → p mod TILE = 0 →
     (m / TILE) * p * TILE ≤ 2 ^ 32 →
     (m / TILE) * p * TILE ≤ Z.of_nat (length O) →
     ∃ st' O',
       MatmulTiled v a b out m n p st = Some (tt, st')
       ∧ heap st' = <[out := O']> (heap st)
       ∧ length O' = length O
       ∧ ∀ r : nat, Z.of_nat r < (m / TILE) * p * TILE → O' !! r = Some (f32 0)).
Proof.
  intros Hao Hbo Ha Hb Ho Hm Hn Hp. split.
  - intros Hsmall. unfold MatmulTiled.
    erewrite bind_Some; [done|].
    destruct Hsmall as [Hs|Hs].
    + rewrite (Z.div_small m TILE) by lia. done.
    + rewrite (Z.div_small p TILE) by lia.
      apply for_skip. intros i l st1 _. done.
  - intros Hsmall Hpm Hfit HlO.
    assert (Hn0 : n / TILE = 0) by (apply Z.div_small; lia).
    destruct (MatmulTiled_run v a b out A B O st m n p) as (st' & Hrun & Hh);
      try done.
    { intros Hge. lia. }
    { intros i j K q _ _ HK. rewrite Hn0 in HK. simpl in HK. lia. }
    eexists st', _. split; [done|]. split; [done|].
    split; [apply length_patch|].
    intros r Hr. rewrite lookup_patch.
    assert (Hp8 : p = p / TILE * TILE).
    { pose proof (Z.div_mod p TILE ltac:(done)). unfold TILE in *. lia. }
    assert (0 ≤ m / TILE) by (apply Z.div_pos; unfold TILE; lia).
    assert (0 ≤ p / TILE) by (apply Z.div_pos; unfold TILE; lia).
    rewrite bool_decide_true by (unfold TILE in *; nia).
    destruct (lookup_lt_is_Some_2 O r ltac:(lia)) as [x ->]. simpl. f_equal.
    unfold tiled_cell. rewrite Hn0.
    change (Z.to_nat 0) with 0%nat. cbn [block_acc].
    apply rd_nat_lookup. apply lookup_replicate_2.
    apply Nat.mod_upper_bound. done.
Qed.

Lemma MatmulTiled_drops_partial_tiles_witness :
  MatmulTiled (Vectors 4096 4368 (λ _ _, 4640)) 0%nat 1%nat 2%nat 7 8 8
    (mem3 (replicate 56 (f32 1)) (replicate 64 (f32 2)) (replicate 56 (f32 9)))
  = Some (tt, mem3 (replicate 56 (f32 1)) (replicate 64 (f32 2))
                   (replicate 56 (f32 9)))
  ∧ ∃ st' O',
      MatmulTiled (Vectors 4096 4368 (λ _ _, 4640)) 0%nat 1%nat 2%nat 8 7 8
        (mem3 (replicate 56 (f32 1)) (replicate 56 (f32 2)) (replicate 64 (f32 9)))
      = Some (tt, st')
      ∧ heap st' = <[2%nat := O']>
          (heap (mem3 (replicate 56 (f32 1)) (replicate 56 (f32 2))
                      (replicate 64 (f32 9))))
      ∧ O' !! 63%nat = Some (f32 0).
Proof.
  split.
  - destruct (MatmulTiled_drops_partial_tiles (Vectors 4096 4368 (λ _ _, 4640))
                0%nat 1%nat 2%nat 7 8 8
                (replicate 56 (f32 1)) (replicate 64 (f32 2)) (replicate 56 (f32 9))
                (mem3 (replicate 56 (f32 1)) (replicate 64 (f32 2))
                      (replicate 56 (f32 9)))) as [H _].
    + discriminate.
    + discriminate.
    + reflexivity.
    + reflexivity.
    + reflexivity.
    + lia.
    + lia.
    + lia.
    + apply H. left. unfold TILE. lia.
  - destruct (MatmulTiled_drops_partial_tiles (Vectors 4096 4368 (λ _ _, 4640))
                0%nat 1%nat 2%nat 8 7 8
                (replicate 56 (f32 1)) (replicate 56 (f32 2)) (replicate 64 (f32 9))
                (mem3 (replicate 56 (f32 1)) (replicate 56 (f32 2))
                      (replicate 64 (f32 9)))) as [_ H].
    + discriminate.
    + discriminate.
    + reflexivity.
    + reflexivity.
    + reflexivity.
    + lia.
    + lia.
    + lia.
    + destruct H as (st' & O' & H1 & H2 & _ & H4).
      * unfold TILE. lia.
      * reflexivity.
      * vm_compute; congruence.
      * vm_compute; congruence.
      * exists st', O'. split; [exact H1|]. split; [exact H2|].
        apply H4. vm_compute. reflexivity.
Defined.

(** ** Rank 0 and the offset *)

(** A loop whose first round has no result has none. *)
Lemma for_fails_first {L} (body : nat → L → M L) n l st :
  (0 < n)%nat → body 0%nat l st = None → for_ n body l st = None.
Proof.
  intros Hn Hbody. induction n as [|n IH]; [lia|].
  simpl. rewrite bind_run. destruct n as [|n].
  - simpl. done.
  - by rewrite IH by lia.
Qed.

(** The transfers need a rank of at least 1.  On an empty shape the index
    vector is empty; after the first element [updateIndices] starts its scan
    at position [SIZE_MAX] of that empty vector.  So [Compact] into a
    non-empty [out], [EwiseSetitem] from a non-empty [a] and [ScalarSetitem]
    of a positive size have no result, whatever the strides, the offset and
    the arrays are. *)
Theorem transfers_on_a_rank_0_shape_have_no_result
    (a out : handle) (strides : list Z) (offset : Z) (val : scalar_t)
    (X : list scalar_t) (st : state) :
  X ≠ [] →
  (heap st !! out = Some X → Compact a out [] strides offset st = None)
  ∧ (heap st !! a = Some X → EwiseSetitem a out [] strides offset st = None)
  ∧ (∀ size, 0 < size → ScalarSetitem size val out [] strides offset st = None).
Proof.
  intros Hne.
  assert (Hlen : (0 < length X)%nat) by (destruct X; [done|simpl; lia]).
  split; [|split].
  - intros Ho. unfold Compact.
    rewrite (bind_Some _ _ _ _ _ (size_run _ _ _ Ho)).
    rewrite bind_run, for_fails_first; [done|done|].
    rewrite bind_run. cbn [replicate length getLocation ofor lift].
    rewrite bind_run. destruct (load a offset st) as [[v s1]|]; [|done].
    rewrite bind_run. by destruct (store out _ v s1) as [[u s2]|].
  - intros Ha. unfold EwiseSetitem.
    rewrite (bind_Some _ _ _ _ _ (size_run _ _ _ Ha)).
    rewrite bind_run, for_fails_first; [done|done|].
    rewrite bind_run. cbn [replicate length getLocation ofor lift].
    rewrite bind_run. destruct (load a _ st) as [[v s1]|]; [|done].
    rewrite bind_run. by destruct (store out offset v s1) as [[u s2]|].
  - intros size Hsize. unfold ScalarSetitem.
    rewrite bind_run, for_fails_first; [done|lia|].
    rewrite bind_run. cbn [replicate length getLocation ofor lift].
    rewrite bind_run. by destruct (store out offset val st) as [[u s2]|].
Qed.

Lemma transfers_on_a_rank_0_shape_have_no_result_witness :
  Compact 0%nat 1%nat [] [] 0 (mem3 [f32 1] [f32 0] []) = None
  ∧ ScalarSetitem 1 (f32 7) 1%nat [] [] 0 (mem3 [f32 1] [f32 0] []) = None.
Proof.
  destruct (transfers_on_a_rank_0_shape_have_no_result 0%nat 1%nat [] 0 (f32 7)
              [f32 0] (mem3 [f32 1] [f32 0] [])) as (H1 & _ & H3).
  - discriminate.
  - split.
    + apply H1. reflexivity.
    + apply H3. lia.
Defined.

Lemma u64_add_l a b : u64 (u64 a + b) = u64 (a + b).
Proof. unfold u64. by rewrite Zplus_mod_idemp_l. Qed.

Lemma u64_add_r a b : u64 (a + u64 b) = u64 (a + b).
Proof. unfold u64. by rewrite Zplus_mod_idemp_r. Qed.

Lemma location_shift strides indices : ∀ offset d,
  location strides (u64 (d + offset)) indices
  = u64 (d + location strides offset indices).
Proof.
  unfold location.
  induction (zip strides indices) as [|[s x] l IH]; intros offset d; [done|].
  cbn [foldl fst snd].
  rewrite <- IH. f_equal.
  rewrite u64_add_l, u64_add_r. f_equal. lia.
Qed.

Lemma ofor_fails {L} (body : nat → L → option L) n k l :
  (k < n)%nat → (∀ l, body k l = None) → ofor n body l = None.
Proof.
  intros Hk Hbody. induction n as [|n IH]; [lia|].
  simpl. destruct (decide (k = n)) as [->|Hne].
  - destruct (ofor n body l); simpl; [apply Hbody|done].
  - by rewrite IH by lia.
Qed.

(** [getLocation] and the offset.  With at least as many strides as
    indices, [getLocation] returns a [size_t]; the offset only shifts it:
    the location at an offset is the location at offset 0 plus the offset,
    reduced modulo 2^64, whether or not a product of a stride and an index
    overflows.  With fewer strides than indices it reads the stride vector
    past its end and has no result. *)
Theorem getLocation_shifts_with_the_offset
    (strides indices : list Z) (offset : Z) :
  0 ≤ offset < 2 ^ 64 →
  ((length indices ≤ length strides)%nat →
   ∃ loc0 loc,
     getLocation strides 0 indices = Some loc0
     ∧ getLocation strides offset indices = Some loc
     ∧ 0 ≤ loc < 2 ^ 64
     ∧ loc = u64 (offset + loc0))
  ∧ ((length strides < length indices)%nat →
     getLocation strides offset indices = None).
Proof.
  intros Hoff. split.
  - intros Hlen. exists (location strides 0 indices), (location strides offset indices).
    rewrite !getLocation_location by done.
    split; [done|]. split; [done|].
    rewrite <- (location_shift strides indices 0 offset).
    rewrite Z.add_0_r, u64_id by done. split; [|done].
    rewrite <- (u64_id offset) by done.
    rewrite <- (Z.add_0_r offset) at 1 2.
    rewrite location_shift. apply u64_range.
  - intros Hlen. unfold getLocation.
    apply (ofor_fails _ _ (length strides)); [done|].
    intros l. by rewrite (lookup_ge_None_2 strides).
Qed.

Lemma getLocation_shifts_with_the_offset_witness :
  ∃ loc0 loc,
    getLocation [3; 1] 0 [1; 2] = Some loc0
    ∧ getLocation [3; 1] 4 [1; 2] = Some loc
    ∧ 0 ≤ loc < 2 ^ 64
    ∧ loc = u64 (4 + loc0).
Proof.
  destruct (getLocation_shifts_with_the_offset [3; 1] [1; 2] 4) as [H _].
  - lia.
  - apply H. simpl. lia.
Defined.

(** ** Views outside the buffer *)

(** A loop that returns has run each round to its end, from a state and
    with locals that satisfy the invariant of the round. *)
Lemma for_Some_rounds {L} (I : nat → L → state → Prop) n (body : nat → L → M L) l st :
  (∀ i l st l' st', (i < n)%nat → I i l st → body i l st = Some (l', st') →
                    I (S i) l' st') →
  I 0%nat l st →
  ∀ l' st', for_ n body l st = Some (l', st') →
    ∀ k, (k < n)%nat → ∃ lk stk r, I k lk stk ∧ body k lk stk = Some r.
Proof.
  intros Hpres HI.
  assert (Hgen : ∀ m, (m ≤ n)%nat → ∀ l' st', for_ m body l st = Some (l', st') →
            I m l' st'
            ∧ ∀ k, (k < m)%nat → ∃ lk stk r, I k lk stk ∧ body k lk stk = Some r).
  { induction m as [|m IH]; intros Hm l' st' Hrun.
    - injection Hrun as <- <-. split; [done|]. intros k Hk. lia.
    - simpl in Hrun. apply bind_Some_inv in Hrun as (l1 & st1 & Hn & Hb).
      destruct (IH ltac:(lia) _ _ Hn) as [HI1 Hk]. split.
      + apply (Hpres m l1 st1); [lia|done|done].
      + intros k Hlt. destruct (decide (k = m)) as [->|Hne].
        * by exists l1, st1, (l', st').
        * apply Hk. lia. }
  intros l' st' Hrun. by apply (Hgen n (le_n n) l' st' Hrun).
Qed.

Lemma lift_Some_inv {A} (o : option A) st x st' :
  lift o st = Some (x, st') → o = Some x ∧ st' = st.
Proof. destruct o; [|done]. by intros [= -> ->]. Qed.

Lemma getLocation_Some strides offset indices loc :
  getLocation strides offset indices = Some loc →
  loc = location strides offset indices.
Proof.
  intros Hloc.
  destruct (decide (length indices ≤ length strides)%nat) as [Hle|Hgt].
  - rewrite getLocation_location in Hloc by done. by injection Hloc.
  - unfold getLocation in Hloc.
    rewrite (ofor_fails _ _ (length strides)) in Hloc; [done|lia|].
    intros l. by rewrite (lookup_ge_None_2 strides).
Qed.

(** The invariant of the transfer loops: the arrays keep their sizes and
    the index vector of round [k] is the multi-index of rank [k]. *)
Lemma walker_invariant shape (n : nat) st0 i idx idx' st st' :
  shape ≠ [] → Forall axis shape → Z.of_nat n = product shape →
  (i < n)%nat →
  same_sizes st0 st ∧ ((i < n)%nat → idx = unravel shape (Z.of_nat i)) →
  same_sizes st st' → updateIndices shape idx = Some idx' →
  same_sizes st0 st' ∧ ((S i < n)%nat → idx' = unravel shape (Z.of_nat (S i))).
Proof.
  intros Hshape Hax Hn Hi [HP Hidx] Hs Hupd.
  split; [by eapply same_sizes_trans|].
  intros HSi. rewrite (Hidx Hi) in Hupd.
  destruct (walker_step shape i Hshape Hax) as (idx2 & Hupd2 & _ & Hnext).
  rewrite Hupd2 in Hupd. injection Hupd as <-. apply Hnext. lia.
Qed.

(** The transfers do not check the view against the buffer.  For a shape
    of rank at least 1 with positive axis sizes and a transfer of as many
    elements as the shape has: when some multi-index of the shape resolves
    to a location at or past the end of the strided array, [Compact],
    [EwiseSetitem] and [ScalarSetitem] access the array there and have no
    result. *)
Theorem transfers_fail_on_a_view_outside_the_buffer
    (a out : handle) (shape strides : list Z) (offset : Z) (val : scalar_t)
    (A O : list scalar_t) (indices : list Z) (st : state) :
  heap st !! a = Some A → heap st !! out = Some O →
  shape ≠ [] → Forall axis shape → in_shape shape indices →
  (Z.of_nat (length O) = product shape →
   Z.of_nat (length A) ≤ location strides offset indices →
   Compact a out shape strides offset st = None)
  ∧ (Z.of_nat (length A) = product shape →
     Z.of_nat (length O) ≤ location strides offset indices →
     EwiseSetitem a out shape strides offset st = None)
  ∧ (Z.of_nat (length O) ≤ location strides offset indices →
     ScalarSetitem (product shape) val out shape strides offset st = None).
Proof.
  intros Ha Ho Hshape Hax Hin.
  destruct (ravel_in_shape shape indices Hin) as [Hr Hu].
  split; [|split].
  - intros Hlen Hbad.
    destruct (Compact a out shape strides offset st) as [[[] st']|] eqn:Hrun;
      [exfalso|done].
    unfold Compact in Hrun.
    rewrite (bind_Some _ _ _ _ _ (size_run _ _ _ Ho)) in Hrun.
    apply bind_Some_inv in Hrun as (idx & st1 & Hrun & _).
    eapply (for_Some_rounds
              (λ k idx s, same_sizes st s
                          ∧ ((k < length O)%nat → idx = unravel shape (Z.of_nat k))))
      with (k := Z.to_nat (ravel shape indices)) in Hrun.
    + destruct Hrun as (lk & stk & [r sr] & [HP Hidx] & Hbody).
      rewrite (Hidx ltac:(lia)), Z2Nat.id, Hu in Hbody by lia.
      apply bind_Some_inv in Hbody as (loc & s1 & Hloc & Hbody).
      apply lift_Some_inv in Hloc as [Hloc ->].
      apply getLocation_Some in Hloc as ->.
      apply bind_Some_inv in Hbody as (v & s2 & Hl & _).
      apply load_Some_inv in Hl as [_ (l & Hl & Hb)].
      pose proof (same_sizes_lookup _ _ _ _ _ HP Ha Hl). lia.
    + intros i l s l' s' Hi HI Hbody.
      apply bind_Some_inv in Hbody as (loc & s1 & Hloc & Hbody).
      apply lift_Some_inv in Hloc as [_ ->].
      apply bind_Some_inv in Hbody as (v & s2 & Hl & Hbody).
      apply bind_Some_inv in Hbody as (u & s3 & Hs & Hbody).
      apply lift_Some_inv in Hbody as [Hupd ->].
      apply load_Some_inv in Hl as [Hh _].
      apply store_Some_inv in Hs as [Hs _].
      apply (walker_invariant shape (length O) st i l l' s s3); try done.
      intros h. by rewrite (Hs h), Hh.
    + split; [done|]. intros _. by rewrite unravel_0.
    + lia.
  - intros Hlen Hbad.
    destruct (EwiseSetitem a out shape strides offset st) as [[[] st']|] eqn:Hrun;
      [exfalso|done].
    unfold EwiseSetitem in Hrun.
    rewrite (bind_Some _ _ _ _ _ (size_run _ _ _ Ha)) in Hrun.
    apply bind_Some_inv in Hrun as (idx & st1 & Hrun & _).
    eapply (for_Some_rounds
              (λ k idx s, same_sizes st s
                          ∧ ((k < length A)%nat → idx = unravel shape (Z.of_nat k))))
      with (k := Z.to_nat (ravel shape indices)) in Hrun.
    + destruct Hrun as (lk & stk & [r sr] & [HP Hidx] & Hbody).
      rewrite (Hidx ltac:(lia)), Z2Nat.id, Hu in Hbody by lia.
      apply bind_Some_inv in Hbody as (loc & s1 & Hloc & Hbody).
      apply lift_Some_inv in Hloc as [Hloc ->].
      apply getLocation_Some in Hloc as ->.
      apply bind_Some_inv in Hbody as (v & s2 & Hl & Hbody).
      apply bind_Some_inv in Hbody as (u & s3 & Hs & _).
      apply load_Some_inv in Hl as [Hh _].
      apply store_Some_inv in Hs as [_ (l & Hl & Hb)].
      rewrite Hh in Hl.
      pose proof (same_sizes_lookup _ _ _ _ _ HP Ho Hl). lia.
    + intros i l s l' s' Hi HI Hbody.
      apply bind_Some_inv in Hbody as (loc & s1 & Hloc & Hbody).
      apply lift_Some_inv in Hloc as [_ ->].
      apply bind_Some_inv in Hbody as (v & s2 & Hl & Hbody).
      apply bind_Some_inv in Hbody as (u & s3 & Hs & Hbody).
      apply lift_Some_inv in Hbody as [Hupd ->].
      apply load_Some_inv in Hl as [Hh _].
      apply store_Some_inv in Hs as [Hs _].
      apply (walker_invariant shape (length A) st i l l' s s3); try done.
      intros h. by rewrite (Hs h), Hh.
    + split; [done|]. intros _. by rewrite unravel_0.
    + lia.
  - intros Hbad.
    destruct (ScalarSetitem (product shape) val out shape strides offset st)
      as [[[] st']|] eqn:Hrun; [exfalso|done].
    unfold ScalarSetitem in Hrun.
    apply bind_Some_inv in Hrun as (idx & st1 & Hrun & _).
    eapply (for_Some_rounds
              (λ k idx s, same_sizes st s
                          ∧ ((k < Z.to_nat (product shape))%nat
                             → idx = unravel shape (Z.of_nat k))))
      with (k := Z.to_nat (ravel shape indices)) in Hrun.
    + destruct Hrun as (lk & stk & [r sr] & [HP Hidx] & Hbody).
      rewrite (Hidx ltac:(lia)), Z2Nat.id, Hu in Hbody by lia.
      apply bind_Some_inv in Hbody as (loc & s1 & Hloc & Hbody).
      apply lift_Some_inv in Hloc as [Hloc ->].
      apply getLocation_Some in Hloc as ->.
      apply bind_Some_inv in Hbody as (u & s3 & Hs & _).
      apply store_Some_inv in Hs as [_ (l & Hl & Hb)].
      pose proof (same_sizes_lookup _ _ _ _ _ HP Ho Hl). lia.
    + intros i l s l' s' Hi HI Hbody.
      apply bind_Some_inv in Hbody as (loc & s1 & Hloc & Hbody).
      apply lift_Some_inv in Hloc as [_ ->].
      apply bind_Some_inv in Hbody as (u & s3 & Hs & Hbody).
      apply lift_Some_inv in Hbody as [Hupd ->].
      apply store_Some_inv in Hs as [Hs _].
      apply (walker_invariant shape (Z.to_nat (product shape)) st i l l' s s3);
        try done.
      pose proof (product_pos _ Hax). lia.
    + split; [done|]. intros _. by rewrite unravel_0.
    + lia.
Qed.

Lemma transfers_fail_on_a_view_outside_the_buffer_witness :
  Compact 0%nat 1%nat [2] [2] 1 (mem3 (f32 <$> [1; 2; 3]) (f32 <$> [0; 0]) []) = None.
Proof.
  destruct (transfers_fail_on_a_view_outside_the_buffer 0%nat 1%nat [2] [2] 1
              (f32 0) (f32 <$> [1; 2; 3]) (f32 <$> [0; 0]) [1]
              (mem3 (f32 <$> [1; 2; 3]) (f32 <$> [0; 0]) [])) as (H & _).
  - reflexivity.
  - reflexivity.
  - discriminate.
  - repeat constructor; vm_compute; congruence.
  - repeat constructor; vm_compute; congruence.
  - apply H; [reflexivity|vm_compute; congruence].
Defined.

(** ** Vectors that are not aligned *)

Lemma AlignedDot_ptr_unaligned pa pb pout a b out :
  ¬ (aligned pa ∧ aligned pb ∧ aligned pout) →
  AlignedDot_ptr pa pb pout a b out = None.
Proof.
  unfold aligned, AlignedDot_ptr, assume_aligned. intros Hn.
  repeat case_bool_decide; try done. destruct Hn. done.
Qed.

(** The first call of [AlignedDot] in [MatmulTiled]: the block [(0, 0)]
    with the reduction block 0. *)
Lemma MatmulTiled_first_call (v : vectors) (a b out : handle) (m n p : Z)
    (A B : list scalar_t) (st : state) :
  heap st !! a = Some A → heap st !! b = Some B →
  TILE ≤ m → TILE ≤ n → TILE ≤ p →
  TILE * TILE ≤ Z.of_nat (length A) → TILE * TILE ≤ Z.of_nat (length B) →
  ¬ (aligned (tile_a_data v) ∧ aligned (tile_b_data v)
     ∧ aligned (tmp_res_data v 0%nat 0%nat)) →
  MatmulTiled v a b out m n p st = None.
Proof.
  intros Ha Hb Hm Hn Hp HlA HlB Hun. unfold TILE in *.
  assert (Hmb : (0 < Z.to_nat (m / 8))%nat).
  { pose proof (Z.div_le_lower_bound m 8 1 ltac:(lia) ltac:(lia)). lia. }
  assert (Hnb : (0 < Z.to_nat (n / 8))%nat).
  { pose proof (Z.div_le_lower_bound n 8 1 ltac:(lia) ltac:(lia)). lia. }
  assert (Hpb : (0 < Z.to_nat (p / 8))%nat).
  { pose proof (Z.div_le_lower_bound p 8 1 ltac:(lia) ltac:(lia)). lia. }
  unfold MatmulTiled. rewrite bind_run.
  rewrite for_fails_first; [done|exact Hmb|].
  rewrite for_fails_first; [done|exact Hpb|].
  rewrite bind_run.
  rewrite for_fails_first; [done|exact Hnb|].
  cbn [fst snd]. cbv beta iota.
  destruct (load_tiles a b A B st
              (Z.of_nat 0 * n * TILE + Z.of_nat 0 * TILE * TILE)
              (Z.of_nat 0 * p * TILE + Z.of_nat 0 * TILE * TILE)
              (replicate (Z.to_nat (TILE * TILE)) (f32 0))
              (replicate (Z.to_nat (TILE * TILE)) (f32 0)))
    as (st1 & Hload & _); try done.
  { intros q Hq. change (Z.of_nat 0) with 0. rewrite !Z.mul_0_l, !Z.add_0_l.
    rewrite u32_id by lia. lia. }
  erewrite bind_Some; [|exact Hload]. cbv beta iota.
  by rewrite AlignedDot_ptr_unaligned.
Qed.

(** Claim C1 on the code.  [AlignedDot] opens with the assumption that its
    three pointers are multiples of [TILE * ELEM_SIZE] = 32 bytes, and
    [MatmulTiled] passes it the [data()] of its [std::vector] locals, which
    the allocator need not place so.  For every [m], [n] and [p] that are
    positive multiples of [TILE], with the arrays of the sizes the claim
    asks for and products of at most 2^32: on a run in which [tile_a],
    [tile_b] or the first [tmp_res] is not at a multiple of 32,
    [MatmulTiled] has no defined result, whereas [Matmul] returns and stores
    in every cell the sum of the products. *)
Theorem MatmulTiled_undefined_on_unaligned_vectors
    (v : vectors) (ta tb tout ra rb rout : handle) (m n p : Z)
    (AT BT OT AR BR OR : list scalar_t) (st : state) :
  ta ≠ tout → tb ≠ tout → ra ≠ rout → rb ≠ rout →
  heap st !! ta = Some AT → heap st !! tb = Some BT → heap st !! tout = Some OT →
  heap st !! ra = Some AR → heap st !! rb = Some BR → heap st !! rout = Some OR →
  0 < m → 0 < n → 0 < p →
  m mod TILE = 0 → n mod TILE = 0 → p mod TILE = 0 →
  Z.of_nat (length AT) = m * n → Z.of_nat (length BT) = n * p →
  Z.of_nat (length OT) = m * p →
  Z.of_nat (length AR) = m * n → Z.of_nat (length BR) = n * p →
  Z.of_nat (length OR) = m * p →
  m * n ≤ 2 ^ 32 → n * p ≤ 2 ^ 32 → m * p ≤ 2 ^ 32 →
  ¬ (aligned (tile_a_data v) ∧ aligned (tile_b_data v)
     ∧ aligned (tmp_res_data v 0%nat 0%nat)) →
  MatmulTiled v ta tb tout m n p st = None
  ∧ ∃ stN OR',
      Matmul ra rb rout m n p st = Some (tt, stN)
      ∧ heap stN !! rout = Some OR'
      ∧ ∀ i j : nat, Z.of_nat i < m → Z.of_nat j < p →
          OR' !! Z.to_nat (Z.of_nat i * p + Z.of_nat j) = Some (dot AR BR n p i j).
Proof.
  intros Hta Htb Hra Hrb HAT HBT HOT HAR HBR HOR Hm Hn Hp Hmmod Hnmod Hpmod
    HlAT HlBT HlOT HlAR HlBR HlOR Hmn Hnp Hmp Hun.
  assert (Hm8 : TILE ≤ m).
  { unfold TILE in *. pose proof (Z.div_mod m 8 ltac:(lia)).
    pose proof (Z.div_pos m 8 ltac:(lia) ltac:(lia)). lia. }
  assert (Hn8 : TILE ≤ n).
  { unfold TILE in *. pose proof (Z.div_mod n 8 ltac:(lia)).
    pose proof (Z.div_pos n 8 ltac:(lia) ltac:(lia)). lia. }
  assert (Hp8 : TILE ≤ p).
  { unfold TILE in *. pose proof (Z.div_mod p 8 ltac:(lia)).
    pose proof (Z.div_pos p 8 ltac:(lia) ltac:(lia)). lia. }
  split.
  - apply (MatmulTiled_first_call v ta tb tout m n p AT BT st); try done;
      unfold TILE in *; nia.
  - destruct (Matmul_cells ra rb rout m n p AR BR OR st)
      as (stN & OR' & HrunN & HhN & _ & HcN); try done; try lia.
    exists stN, OR'. split; [done|].
    split; [by rewrite HhN, lookup_insert_eq|done].
Qed.

Lemma MatmulTiled_undefined_on_unaligned_vectors_witness :
  MatmulTiled (Vectors 4096 4368 (λ _ _, 4640)) 0%nat 1%nat 2%nat 16 16 8
    (mem3 (replicate 256 (f32 1)) (replicate 128 (f32 1)) (replicate 128 (f32 0)))
  = None
  ∧ ∃ stN OR',
      Matmul 0%nat 1%nat 2%nat 16 16 8
        (mem3 (replicate 256 (f32 1)) (replicate 128 (f32 1)) (replicate 128 (f32 0)))
      = Some (tt, stN)
      ∧ heap stN !! 2%nat = Some OR'
      ∧ ∀ i j : nat, Z.of_nat i < 16 → Z.of_nat j < 8 →
          OR' !! Z.to_nat (Z.of_nat i * 8 + Z.of_nat j)
          = Some (dot (replicate 256 (f32 1)) (replicate 128 (f32 1)) 16 8 i j).
Proof.
  apply (MatmulTiled_undefined_on_unaligned_vectors
           (Vectors 4096 4368 (λ _ _, 4640))
           0%nat 1%nat 2%nat 0%nat 1%nat 2%nat 16 16 8
           (replicate 256 (f32 1)) (replicate 128 (f32 1)) (replicate 128 (f32 0))
           (replicate 256 (f32 1)) (replicate 128 (f32 1)) (replicate 128 (f32 0))).
  - discriminate.
  - discriminate.
  - discriminate.
  - discriminate.
  - reflexivity.
  - reflexivity.
  - reflexivity.
  - reflexivity.
  - reflexivity.
  - reflexivity.
  - lia.
  - lia.
  - lia.
  - reflexivity.
  - reflexivity.
  - reflexivity.
  - reflexivity.
  - reflexivity.
  - reflexivity.
  - reflexivity.
  - reflexivity.
  - reflexivity.
  - vm_compute; congruence.
  - vm_compute; congruence.
  - vm_compute; congruence.
  - intros (_ & H & _). vm_compute in H. discriminate.
Defined.
